(** * pkgcheck: the check pipeline of [pkgcheck.base] and two of its checks

    A shallow embedding of
    - [Result.__getstate__] / [Result.__setstate__]      (module [ResultState]),
    - [convert_check_filter]                             (module [CheckFilter]),
    - [RedundantVersionReport.feed]                      (module [Cleanup]),
    - [UnstableOnlyReport.__init__] / [feed]             (module [UnstableOnly]),
    - [CheckRunner.start] / [feed]                       (module [Runner]),
    - [plug] and its inner [build_transform]             (module [Plug]),
    - [Whitelist], [Blacklist] and [filter_update]       (module [CheckSets]),
    - the constructors of the results                    (module [Results]),
    - [CheckRunner.finish]                               (module [RunnerFinish]),
    - [Reporter.add_report], StrReporter, FancyReporter  (module [Reporters]),
    followed by the properties proved about them.

    [str.lower], [str.strip], the [re] module and the equality of
    pkgcore's packages are not part of the sources: the definitions take
    them as parameters, and module [Reference] states what the
    properties ask of them. *)

From Stdlib Require Import Ascii String List Arith ZArith Lia Permutation Sorted.
From stdpp Require Import gmap strings list.

Local Open Scope string_scope.

(* ===================================================================== *)
(** * Result state: [Result.__getstate__] and [Result.__setstate__]       *)
(* ===================================================================== *)

Module ResultState.

(** The two exceptions the methods raise. *)
Inductive exn := AttributeError | TypeError.

(** A result class: [__attrs__] when the class has one, and its
    [__slots__] ([Result] itself declares [__slots__ = ()], so every
    subclass has the attribute). *)
Record kind := Kind {
  k_attrs : option (list string);
  k_slots : list string
}.

(** [getattr(self, '__attrs__', getattr(self, '__slots__', None))] *)
Definition declared (k : kind) : list string :=
  match k_attrs k with
  | Some a => a
  | None => k_slots k
  end.

Section Instances.

Variable value : Type.

(** What [__getstate__] hands to the pickler: a dict, or [None]. *)
Inductive pyobj :=
| PyDict (d : gmap string value)
| PyNone.

(** [object.__getstate__], the interpreter's default. *)
Variable object_getstate : gmap string value -> pyobj.

(** [dict((k, getattr(self, k)) for k in attrs)]: a later pair
    overwrites an earlier one with the same key. *)
Definition dict_of_pairs (kvs : list (string * value)) : gmap string value :=
  fold_left (fun d kv => <[kv.1 := kv.2]> d) kvs ∅.

(** [getattr(self, k)] for each name; [None] when one of them is unset
    (the [AttributeError] of the source). *)
Fixpoint getattrs (self : gmap string value) (attrs : list string)
  : option (list (string * value)) :=
  match attrs with
  | [] => Some []
  | k :: rest =>
      match self !! k with
      | None => None
      | Some v =>
          match getattrs self rest with
          | None => None
          | Some kvs => Some ((k, v) :: kvs)
          end
      end
  end.

Definition getstate (k : kind) (self : gmap string value) : exn + pyobj :=
  match declared k with
  | [] => inr (object_getstate self)
  | attrs =>
      match getattrs self attrs with
      | Some kvs => inr (PyDict (dict_of_pairs kvs))
      | None => inl AttributeError
      end
  end.

(** [for k, v in data.items(): setattr(self, k, v)] *)
Definition setattrs (self data : gmap string value) : gmap string value :=
  map_fold (fun k v self => <[k := v]> self) self data.

(** [__setstate__]: the instance after the call, and the exception
    raised, if any.  Iterating [None] raises [TypeError] as well. *)
Definition setstate (k : kind) (self : gmap string value) (data : pyobj)
  : gmap string value * option exn :=
  match data with
  | PyNone => (self, Some TypeError)
  | PyDict d =>
      let attrs : gset string := list_to_set (declared k) in
      if decide (attrs ∖ dom d ≠ ∅ ∨ size attrs ≠ size d)
      then (self, Some TypeError)
      else (setattrs self d, None)
  end.

End Instances.

Arguments PyDict {value} d.
Arguments PyNone {value}.
Arguments dict_of_pairs {value} kvs.
Arguments getattrs {value} self attrs.
Arguments getstate {value} object_getstate k self.
Arguments setattrs {value} self data.
Arguments setstate {value} k self data.

End ResultState.

(* ===================================================================== *)
(** * Check-name filters: [convert_check_filter]                          *)
(* ===================================================================== *)

Module CheckFilter.

(** A [str] is held as the bytes of its UTF-8 text.  The filter reads
    the text itself only for [+], [*] and [.], each one byte that is
    part of no other character, and compares chunks for equality.
    Lower-casing is the interpreter's and pattern matching is the [re]
    module's: both are parameters of the filter. *)

(** [c in s] for a one-character [c]. *)
Fixpoint contains (c : ascii) (s : string) : bool :=
  match s with
  | EmptyString => false
  | String x s' => Ascii.eqb x c || contains c s'
  end.

(** [s.split(sep)] for a one-character separator: always at least one
    chunk, empty chunks are kept. *)
Fixpoint split (sep : ascii) (s : string) : list string :=
  match s with
  | EmptyString => [EmptyString]
  | String c s' =>
      if Ascii.eqb c sep then EmptyString :: split sep s'
      else match split sep s' with
           | h :: t => String c h :: t
           | [] => [String c EmptyString]
           end
  end.

Definition newline : ascii := ascii_of_nat 10.

Section Filter.

(** [str.lower] *)
Variable lower : string -> string.

(** Compiled patterns and match objects of the [re] module. *)
Variables pattern match_object : Type.

(** [re.compile(tok, re.I)]; [None] where it raises [re.error]. *)
Variable re_compile : string -> option pattern.

(** [pattern.match(name)]: a match object, or [None]. *)
Variable pattern_match : pattern -> string -> option match_object.

(** What a filter function returns: [True] or [False] from the inner
    [func], a match object or [None] from the bound method [match]. *)
Inductive answer :=
| PyBool (b : bool)
| Match (m : match_object)
| NoMatch.

(** The truth value, as [any] reads it: a match object is true. *)
Definition truth (a : answer) : bool :=
  match a with
  | PyBool b => b
  | Match _ => true
  | NoMatch => false
  end.

(** The inner [func] of the source: some slice of the name's chunks
    equals the token's chunks. *)
Definition func (toklist : list string) (name : string) : bool :=
  let chunks := split "." (lower name) in
  if (length chunks <? length toklist)%nat then false
  else existsb
         (fun i => bool_decide
                     (firstn (length toklist) (skipn i chunks) = toklist))
         (seq 0 (length chunks)).

(** [re.compile(tok, re.I).match], the bound method. *)
Definition bound_match (p : pattern) (name : string) : answer :=
  match pattern_match p name with
  | Some m => Match m
  | None => NoMatch
  end.

(** [convert_check_filter(tok)]; [None] where it raises [re.error]. *)
Definition convert_check_filter (tok : string) : option (string -> answer) :=
  let tok := lower tok in
  if contains "+" tok || contains "*" tok
  then option_map bound_match (re_compile tok)
  else Some (fun name => PyBool (func (split "." tok) name)).

(** [convert_check_filter(tok)(name)] *)
Definition matches (tok name : string) : option answer :=
  option_map (fun f => f name) (convert_check_filter tok).

End Filter.

Arguments PyBool {match_object} b.
Arguments Match {match_object} m.
Arguments NoMatch {match_object}.
Arguments truth {match_object} a.
Arguments bound_match {pattern match_object} pattern_match p name.
Arguments convert_check_filter lower {pattern match_object}
  re_compile pattern_match tok.
Arguments matches lower {pattern match_object} re_compile pattern_match
  tok name.

End CheckFilter.

(* ===================================================================== *)
(** * Packages, as the two checks read them                               *)
(* ===================================================================== *)

(** What the checks read of a package: its coordinates, slot, whether it
    is a live (VCS) version, and its keywords. *)
Record pkg := Pkg {
  category : string;
  package : string;
  fullver : string;
  slot : string;
  live : bool;
  keywords : list string
}.

Global Instance pkg_eq_dec : EqDecision pkg.
Proof. solve_decision. Defined.

(** [s.startswith(prefix)] *)
Definition startswith (prefix s : string) : bool := String.prefix prefix s.

(* ===================================================================== *)
(** * [checks/cleanup.py]: RedundantVersionReport                         *)
(* ===================================================================== *)

Module Cleanup.

Record RedundantVersion := {
  rv_category : string;
  rv_package : string;
  rv_version : string;
  rv_slot : string;
  rv_later_versions : list string
}.

(** [RedundantVersion.__init__(pkg, higher_pkgs)] *)
Definition RedundantVersion_init (p : pkg) (higher_pkgs : list pkg)
  : RedundantVersion :=
  {| rv_category := category p;
     rv_package := package p;
     rv_version := fullver p;
     rv_slot := slot p;
     rv_later_versions := List.map fullver higher_pkgs |}.

(** The loop variables [stack] and [bad]. *)
Record loop_state := {
  stack : list (pkg * gset string);
  bad : list (pkg * list pkg)
}.

(** One round of [for pkg in reversed(pkgset)]. *)
Definition visit_pkg (st : loop_state) (p : pkg) : loop_state :=
  if live p then st
  else
    let curr_set : gset string :=
      list_to_set
        (List.filter (fun x => negb (startswith "-" x)) (keywords p)) in
    if decide (curr_set = ∅) then st
    else
      let matches :=
        List.map fst
          (List.filter
             (fun vk : pkg * gset string =>
                String.eqb (slot vk.1) (slot p) &&
                bool_decide (curr_set ∖ vk.2 = ∅))
             (stack st)) in
      let curr_set' : gset string :=
        curr_set ∪
        set_map (String.append "~")
          (filter (fun x => startswith "~" x = false) curr_set) in
      {| stack := stack st ++ [(p, curr_set')];
         bad := match matches with
                | [] => bad st
                | _ => bad st ++ [(p, matches)]
                end |}.

(** [RedundantVersionReport.feed]: the results handed to
    [reporter.add_report], in order. *)
Definition feed (pkgset : list pkg) : list RedundantVersion :=
  if (length pkgset =? 1)%nat then []
  else
    let st := fold_left visit_pkg (rev pkgset) {| stack := []; bad := [] |} in
    List.map (fun pm => RedundantVersion_init pm.1 pm.2) (rev (bad st)).

End Cleanup.

(* ===================================================================== *)
(** * [checks/unstable_only.py]: UnstableOnlyReport                       *)
(* ===================================================================== *)

Module UnstableOnly.

Record UnstableOnly := {
  uo_category : string;
  uo_package : string;
  uo_versions : list string;
  uo_arches : list string
}.

(** [UnstableOnly.__init__(pkgs, arches)]; [pkgs[0]] raises [IndexError]
    on an empty tuple, which is [None] here. *)
Definition UnstableOnly_init (pkgs : list pkg) (arches : list string)
  : option UnstableOnly :=
  match pkgs with
  | [] => None
  | p0 :: _ =>
      Some {| uo_category := category p0;
              uo_package := package p0;
              uo_versions := List.map fullver pkgs;
              uo_arches := arches |}
  end.

(** [s.lstrip(chars)], for a set of one-byte characters. *)
Fixpoint lstrip (drop : ascii -> bool) (s : string) : string :=
  match s with
  | EmptyString => EmptyString
  | String c s' => if drop c then lstrip drop s' else s
  end.

(** The two restrictions stored per arch:
    [PackageRestriction("keywords", ContainmentMatch2((arch,)))] and the
    same for ["~" + arch]; each holds when the value is one of the
    package's keywords. *)
Definition stable_restrict (arch : string) (x : pkg) : bool :=
  bool_decide (arch ∈ keywords x).

Definition unstable_restrict (arch : string) (x : pkg) : bool :=
  bool_decide (("~" ++ arch) ∈ keywords x).

Section Report.

(** [str.strip], with no argument: the interpreter's notion of
    whitespace. *)
Variable strip : string -> string.

(** [==] on packages.  It is pkgcore's, not identity and not equality
    of what the checks read; the dict of [feed] uses it on its keys
    (with [__hash__], taken to agree with it). *)
Variable pkg_eqb : pkg -> pkg -> bool.

(** [x.strip().lstrip("~")] of [UnstableOnlyReport.__init__]. *)
Definition normalize_arch (x : string) : string :=
  lstrip (Ascii.eqb "~") (strip x).

(** The set [arches] of [__init__]; the keys of [self.arch_restricts]
    are its elements, in the order the set is iterated. *)
Definition arches_of (stable_arches : list string) : gset string :=
  list_to_set (List.map normalize_arch stable_arches).

(** [==] on tuples of packages: the same length, and equal element by
    element. *)
Fixpoint key_eqb (k1 k2 : list pkg) : bool :=
  match k1, k2 with
  | [], [] => true
  | x :: k1', y :: k2' => pkg_eqb x y && key_eqb k1' k2'
  | _, _ => false
  end.

(** [unstable_arches[key].append(k)] on a [defaultdict(list)]: an equal
    key that is there already is kept; dicts keep their keys in
    insertion order. *)
Fixpoint append_arch (key : list pkg) (k : string)
         (d : list (list pkg * list string)) : list (list pkg * list string) :=
  match d with
  | [] => [(key, [k])]
  | (key', ks) :: rest =>
      if key_eqb key' key then (key', (ks ++ [k])%list) :: rest
      else (key', ks) :: append_arch key k rest
  end.

(** One round of [for k, v in self.arch_restricts.items()]. *)
Definition visit_arch (pkgset : list pkg) (d : list (list pkg * list string))
           (k : string) : list (list pkg * list string) :=
  if existsb (stable_restrict k) pkgset then d
  else
    match List.filter (unstable_restrict k) pkgset with
    | [] => d
    | unstable => append_arch unstable k d
    end.

(** The dict [unstable_arches] when the first loop is over;
    [arch_restricts] lists the keys of [self.arch_restricts]. *)
Definition unstable_arches (arch_restricts : list string) (pkgset : list pkg)
  : list (list pkg * list string) :=
  fold_left (visit_arch pkgset) arch_restricts [].

(** [UnstableOnlyReport.feed]: the results reported, in order ([None]
    if a constructor raised). *)
Definition feed (arch_restricts : list string) (pkgset : list pkg)
  : option (list UnstableOnly) :=
  mapM (fun g => UnstableOnly_init g.1 g.2)
       (unstable_arches arch_restricts pkgset).

End Report.

End UnstableOnly.

(* ===================================================================== *)
(** * [CheckRunner]: start and feed                                       *)
(* ===================================================================== *)

Module Runner.

Section Runner.

Context {item result pkgid error : Type}.
Context `{EqDecision pkgid, EqDecision error}.

(** [str(e.error)] *)
Variable str : error -> string.

(** A [MetadataException] as the runner reads it. *)
Record MetadataException := {
  e_pkg : pkgid;
  e_error : error;
  e_attr : string
}.

(** What one call of a check's [start] or [feed] does: it hands results
    to the reporter, and it returns or raises a [MetadataException]. *)
Record behaviour := {
  reported : list result;
  raised : option MetadataException
}.

Record template := {
  s_start : behaviour;
  s_feed : item -> behaviour
}.

(** The children of a runner: checks, and transforms around a runner of
    their own.  Every [CheckRunner] instance has its own
    [_metadata_errors]; [self] names the instance. *)
Inductive check :=
| Sink (s : template)
| Transform (convert : item -> list item) (child : runner)
with runner :=
| CheckRunner (self : nat) (checks : list check).

(** The calls the reporter receives: [add_report(r)] from a check, and
    [add_report(MetadataError(e.pkg, e.attr, error_str))] from the runner
    [by_runner] handling [e]. *)
Inductive event :=
| AddReport (r : result)
| AddMetadataError (by_runner : nat) (e : MetadataException).

(** The arguments of the [MetadataError] the runner builds:
    [error_str = ': '.join(str(e.error).split('\n'))]. *)
Definition MetadataError_args (e : MetadataException)
  : pkgid * string * string :=
  (e_pkg e, e_attr e,
   String.concat ": " (CheckFilter.split CheckFilter.newline (str (e_error e)))).

(** The mutable state of a run: the set [_metadata_errors] of every
    runner instance, and what the reporter has received. *)
Record world := {
  metadata_errors : nat -> list (pkgid * error);
  log : list event
}.

Definition add_reports (rs : list result) (w : world) : world :=
  {| metadata_errors := metadata_errors w;
     log := log w ++ List.map AddReport rs |}.

(** The [except MetadataException as e] clause of runner [self]. *)
Definition except_metadata (self : nat) (e : MetadataException) (w : world)
  : world :=
  let exc_info := (e_pkg e, e_error e) in
  if bool_decide (exc_info ∈ metadata_errors w self) then w
  else
    {| metadata_errors :=
         fun r => if decide (r = self)
                  then (metadata_errors w self ++ [exc_info])%list
                  else metadata_errors w r;
       log := log w ++ [AddMetadataError self e] |}.

(** [try: call except MetadataException as e: ...] *)
Definition guarded (self : nat)
           (call : world -> world * option MetadataException) (w : world)
  : world :=
  match call w with
  | (w', None) => w'
  | (w', Some e) => except_metadata self e w'
  end.

(** [check.start(reporter)] and [CheckRunner.start]; [Transform.start]
    starts the child. *)
Fixpoint start_check (c : check) (w : world)
  : world * option MetadataException :=
  match c with
  | Sink s => (add_reports (reported (s_start s)) w, raised (s_start s))
  | Transform _ child => (start_runner child w, None)
  end
with start_runner (r : runner) (w : world) : world :=
  match r with
  | CheckRunner self checks =>
      fold_left (fun w c => guarded self (start_check c) w) checks w
  end.

(** [check.feed(item, reporter)] and [CheckRunner.feed].

    Modelled from the spec: [Transform.feed] of the base class raises
    [NotImplementedError] and the subclasses are not part of the sources
    read here; a transform "may emit zero or more output items per
    input", each fed to its child. *)
Fixpoint feed_check (c : check) (i : item) (w : world)
  : world * option MetadataException :=
  match c with
  | Sink s => (add_reports (reported (s_feed s i)) w, raised (s_feed s i))
  | Transform convert child =>
      (fold_left (fun w o => feed_runner child o w) (convert i) w, None)
  end
with feed_runner (r : runner) (i : item) (w : world) : world :=
  match r with
  | CheckRunner self checks =>
      fold_left (fun w c => guarded self (feed_check c i) w) checks w
  end.

(** A run of one pipeline: [start], then [feed] on every item. *)
Definition run (r : runner) (items : list item) (w : world) : world :=
  fold_left (fun w i => feed_runner r i w) items (start_runner r w).

(** The runner instances below a check. *)
Fixpoint check_ids (c : check) : list nat :=
  match c with
  | Sink _ => []
  | Transform _ child => runner_ids child
  end
with runner_ids (r : runner) : list nat :=
  match r with
  | CheckRunner self checks => self :: flat_map check_ids checks
  end.

(** The exceptions the direct children of a runner raise during a run,
    in order: only checks raise, a transform's child runner handles its
    own. *)
Definition raised_on_start (c : check) : option MetadataException :=
  match c with
  | Sink s => raised (s_start s)
  | Transform _ _ => None
  end.

Definition raised_on_feed (i : item) (c : check) : option MetadataException :=
  match c with
  | Sink s => raised (s_feed s i)
  | Transform _ _ => None
  end.

Definition raised_in_run (checks : list check) (items : list item)
  : list MetadataException :=
  (omap raised_on_start checks ++
   flat_map (fun i => omap (raised_on_feed i) checks) items)%list.

(** How many [MetadataError] results for the pair [exc_info] the
    reporter received: from runner [self], and in all. *)
Definition is_metadata_error_for (exc_info : pkgid * error) (ev : event)
  : bool :=
  match ev with
  | AddReport _ => false
  | AddMetadataError _ e => bool_decide ((e_pkg e, e_error e) = exc_info)
  end.

Definition is_from (self : nat) (ev : event) : bool :=
  match ev with
  | AddReport _ => false
  | AddMetadataError r _ => bool_decide (r = self)
  end.

Definition metadata_errors_reported (exc_info : pkgid * error)
           (l : list event) : nat :=
  length (List.filter (is_metadata_error_for exc_info) l).

Definition metadata_errors_reported_by (self : nat)
           (exc_info : pkgid * error) (l : list event) : nat :=
  length (List.filter
            (fun ev => is_from self ev && is_metadata_error_for exc_info ev) l).

End Runner.

Arguments MetadataException : clear implicits.
Arguments behaviour : clear implicits.
Arguments template : clear implicits.
Arguments check : clear implicits.
Arguments runner : clear implicits.
Arguments event : clear implicits.
Arguments world : clear implicits.

End Runner.

(* ===================================================================== *)
(** * The planner: [plug]                                                 *)
(* ===================================================================== *)

Module Plug.

(** Sources and checks are instances, transforms are classes; all three
    compare by identity, which [*_name] stands for.  Feed types are
    strings, scopes are the integers 0..3, costs and priorities are
    integers. *)
Record source := Source {
  src_name : string;
  src_feed_type : string;
  src_scope : nat;
  src_cost : Z
}.

Record transform := TransformClass {
  tr_name : string;
  tr_source : string;
  tr_dest : string;
  tr_scope : nat;
  tr_cost : Z
}.

Record sink := Check {
  sink_name : string;
  sink_feed_type : string;
  sink_scope : nat;
  sink_priority : Z
}.

Global Instance source_eq_dec : EqDecision source.
Proof. solve_decision. Defined.
Global Instance transform_eq_dec : EqDecision transform.
Proof. solve_decision. Defined.
Global Instance sink_eq_dec : EqDecision sink.
Proof. solve_decision. Defined.

Global Program Instance source_countable : Countable source :=
  inj_countable'
    (fun s => (src_name s, src_feed_type s, src_scope s, src_cost s))
    (fun p => Source p.1.1.1 p.1.1.2 p.1.2 p.2) _.
Next Obligation. by intros []. Qed.

Global Program Instance transform_countable : Countable transform :=
  inj_countable'
    (fun t => (tr_name t, tr_source t, tr_dest t, tr_scope t, tr_cost t))
    (fun p => TransformClass p.1.1.1.1 p.1.1.1.2 p.1.1.2 p.1.2 p.2) _.
Next Obligation. by intros []. Qed.

(** What [plug] returns per pipeline: a tree of [CheckRunner]s, whose
    children are transforms around a runner and checks. *)
Inductive runner :=
| CheckRunner (children : list child)
with child :=
| Wrapped (trans : transform) (r : runner)
| Plain (s : sink).

(** How a call ends. *)
Inductive outcome (A : Type) :=
| Returned (a : A)
| AssertionError
| OutOfFuel.
Arguments Returned {A} a.
Arguments AssertionError {A}.
Arguments OutOfFuel {A}.

(** ** Hash sets

    A [frozenset] that is compared or hashed is a [gset]; a [set] that is
    popped or iterated is the list of its elements, without duplicates.
    In which order a set is iterated, and which element [pop] removes, is
    not fixed by the language: [pick] chooses, given the elements, and
    the choosers of a [hash_order] are also given the time (the fuel or
    the number of elements left), so that a set holding the same elements
    twice in a run need not answer the same way twice. *)
Definition set_add {A} `{EqDecision A} (x : A) (s : list A) : list A :=
  if bool_decide (x ∈ s) then s else (s ++ [x])%list.

Definition set_pop {A} (pick : list A -> nat) (s : list A)
  : option (A * list A) :=
  match s with
  | [] => None
  | x0 :: _ =>
      let i := (pick s mod length s)%nat in
      Some (nth i s x0, (take i s ++ drop (S i) s)%list)
  end.

Fixpoint set_iter_from {A} (pick : nat -> list A -> nat) (n : nat)
         (s : list A) : list A :=
  match n with
  | O => []
  | S n' =>
      match set_pop (pick n') s with
      | None => []
      | Some (x, s') => x :: set_iter_from pick n' s'
      end
  end.

(** The elements of a set in the order a [for] loop sees them. *)
Definition set_iter {A} (pick : nat -> list A -> nat) (s : list A)
  : list A :=
  set_iter_from pick (length s) s.

(** [(visited_types, source, transforms, price)] *)
Definition pipe : Type := gset string * source * gset transform * Z.

(** [(visited, sources, seq, cost)] of the second search. *)
Definition combo : Type :=
  gset string * gset source * list (source * gset transform) * Z.

Record hash_order := {
  pick_feed : nat -> list string -> nat;
  pick_pipe : nat -> list pipe -> nat;
  pick_combo : nat -> list combo -> nat;
  pick_trans : nat -> list transform -> nat
}.

Section Planner.

Variable o : hash_order.

(** The argument [transforms] of [plug]. *)
Variable transforms : list transform.

(** ** Reachable feed types and [best_scope] *)

(** [feed_to_transforms.get(feed_type, ())]: the transforms that start
    at [feed_type], in the order of [transforms]. *)
Definition feed_to_transforms (feed_type : string) : list transform :=
  List.filter (fun t => bool_decide (tr_source t = feed_type)) transforms.

(** [while todo: ...] for one source. *)
Fixpoint reach (fuel : nat) (src : source) (reachable todo : list string)
  : option (list string) :=
  match fuel with
  | O => None
  | S fuel' =>
      match set_pop (pick_feed o fuel') todo with
      | None => Some reachable
      | Some (feed_type, todo) =>
          let reachable := set_add feed_type reachable in
          let todo :=
            fold_left
              (fun todo t =>
                 if (tr_scope t <=? src_scope src)%nat &&
                    negb (bool_decide (tr_dest t ∈ reachable))
                 then set_add (tr_dest t) todo else todo)
              (feed_to_transforms feed_type) todo in
          reach fuel' src reachable todo
      end
  end.

(** [for feed_type in reachable: ...] *)
Definition raise_scopes (src : source) (best_scope : gmap string nat)
           (reachable : list string) : gmap string nat :=
  fold_left
    (fun best_scope feed_type =>
       match best_scope !! feed_type with
       | None => <[feed_type := src_scope src]> best_scope
       | Some scope =>
           if (scope <? src_scope src)%nat
           then <[feed_type := src_scope src]> best_scope
           else best_scope
       end)
    (set_iter (pick_feed o) reachable) best_scope.

(** [for source in sources: ...], the first loop. *)
Fixpoint best_scopes (fuel : nat) (sources : list source)
         (best_scope : gmap string nat) : option (gmap string nat) :=
  match sources with
  | [] => Some best_scope
  | src :: rest =>
      match reach fuel src [] [src_feed_type src] with
      | None => None
      | Some reachable =>
          best_scopes fuel rest (raise_scopes src best_scope reachable)
      end
  end.

(** [scope is None or sink.scope > scope] *)
Definition is_bad (best_scope : gmap string nat) (s : sink) : bool :=
  match best_scope !! sink_feed_type s with
  | None => true
  | Some scope => (scope <? sink_scope s)%nat
  end.

(** ** The cheapest source per scope and feed type *)

Fixpoint dict_get {K V} `{EqDecision K} (d : list (K * V)) (k : K)
  : option V :=
  match d with
  | [] => None
  | (k', v) :: rest => if decide (k' = k) then Some v else dict_get rest k
  end.

(** [d[k] = v]: a new key goes last, an old key keeps its place. *)
Fixpoint dict_set {K V} `{EqDecision K} (d : list (K * V)) (k : K) (v : V)
  : list (K * V) :=
  match d with
  | [] => [(k, v)]
  | (k', v') :: rest =>
      if decide (k' = k) then (k', v) :: rest
      else (k', v') :: dict_set rest k v
  end.

Definition source_map (sources : list source)
  : list (nat * string * source) :=
  fold_left
    (fun m new_source =>
       let key := (src_scope new_source, src_feed_type new_source) in
       match dict_get m key with
       | None => dict_set m key new_source
       | Some current_source =>
           if (src_cost new_source <? src_cost current_source)%Z
           then dict_set m key new_source else m
       end)
    sources [].

(** ** The search for one pipeline *)

(** The variables of the first [while unprocessed] loop; [source_var]
    is the function's variable [source], which [build_transform] reads
    later. *)
Record search := {
  pipes : list pipe;
  unprocessed : list pipe;
  pipes_to_run : option (list (source * gset transform));
  best_cost : option Z;
  source_var : source
}.

(** [best_cost is None or cost < best_cost] *)
Definition improves (best_cost : option Z) (cost : Z) : bool :=
  match best_cost with
  | None => true
  | Some b => (cost <? b)%Z
  end.

(** [best_cost is not None and best_cost <= cost] *)
Definition hopeless (best_cost : option Z) (cost : Z) : bool :=
  match best_cost with
  | None => false
  | Some b => (b <=? cost)%Z
  end.

(** [for transform in transforms: ... unprocessed.add(...)] *)
Definition grow (next : pipe) (unprocessed : list pipe) : list pipe :=
  let '(visited, source, trans, cost) := next in
  fold_left
    (fun unprocessed t =>
       if (tr_scope t <=? src_scope source)%nat &&
          bool_decide (tr_source t ∈ visited) &&
          negb (bool_decide (tr_dest t ∈ visited))
       then set_add (visited ∪ {[tr_dest t]}, source, trans ∪ {[t]},
                     (cost + tr_cost t)%Z) unprocessed
       else unprocessed)
    transforms unprocessed.

Definition search_step (sink_types : gset string) (next : pipe)
           (rest : list pipe) (st : search) : search :=
  if bool_decide (next ∈ pipes st)
  then {| pipes := pipes st; unprocessed := rest;
          pipes_to_run := pipes_to_run st; best_cost := best_cost st;
          source_var := source_var st |}
  else
    let '(visited, source, trans, cost) := next in
    let pipes' := set_add next (pipes st) in
    if bool_decide (sink_types ⊆ visited)
    then
      if improves (best_cost st) cost
      then {| pipes := pipes'; unprocessed := rest;
              pipes_to_run := Some [(source, trans)];
              best_cost := Some cost; source_var := source |}
      else {| pipes := pipes'; unprocessed := rest;
              pipes_to_run := pipes_to_run st; best_cost := best_cost st;
              source_var := source |}
    else if hopeless (best_cost st) cost
    then {| pipes := pipes'; unprocessed := rest;
            pipes_to_run := pipes_to_run st; best_cost := best_cost st;
            source_var := source |}
    else {| pipes := pipes'; unprocessed := grow next rest;
            pipes_to_run := pipes_to_run st; best_cost := best_cost st;
            source_var := source |}.

Fixpoint search_loop (fuel : nat) (sink_types : gset string) (st : search)
  : option search :=
  match fuel with
  | O => None
  | S fuel' =>
      match set_pop (pick_pipe o fuel') (unprocessed st) with
      | None => Some st
      | Some (next, rest) =>
          search_loop fuel' sink_types (search_step sink_types next rest st)
      end
  end.

(** ** The search for a combination of pipelines *)

(** [source_to_pipes.setdefault(source, []).append(x)] *)
Definition dict_append {K V} `{EqDecision K} (d : list (K * list V))
           (k : K) (x : V) : list (K * list V) :=
  match dict_get d k with
  | None => dict_set d k [x]
  | Some l => dict_set d k (l ++ [x])%list
  end.

Record combine := {
  done : list combo;
  unprocessed2 : list combo;
  pipes_to_run2 : option (list (source * gset transform));
  best_cost2 : option Z;
  source_var2 : source
}.

(** [for source, source_pipes in source_to_pipes.items(): ...] *)
Definition grow_combo
           (source_to_pipes :
              list (source * list (gset string * gset transform * Z)))
           (next : combo) (unprocessed : list combo) : list combo :=
  let '(visited, sources, seq, cost) := next in
  fold_left
    (fun unprocessed sp =>
       if bool_decide (sp.1 ∈ sources) then unprocessed
       else
         fold_left
           (fun unprocessed (p : gset string * gset transform * Z) =>
              set_add (visited ∪ p.1.1, sources ∪ {[sp.1]},
                       (seq ++ [(sp.1, p.1.2)])%list, (cost + p.2)%Z)
                      unprocessed)
           sp.2 unprocessed)
    source_to_pipes unprocessed.

(** The last key of a dict, or [dflt] when the dict is empty: what a
    finished [for source, _ in ...items()] leaves in [source]. *)
Definition last_key {K V} (d : list (K * V)) (dflt : K) : K :=
  match last d with
  | Some kv => kv.1
  | None => dflt
  end.

Definition combine_step
           (source_to_pipes :
              list (source * list (gset string * gset transform * Z)))
           (sink_types : gset string) (next : combo) (rest : list combo)
           (st : combine) : combine :=
  if bool_decide (next ∈ done st)
  then {| done := done st; unprocessed2 := rest;
          pipes_to_run2 := pipes_to_run2 st; best_cost2 := best_cost2 st;
          source_var2 := source_var2 st |}
  else
    let '(visited, sources, seq, cost) := next in
    let done' := set_add next (done st) in
    let found :=
      bool_decide (sink_types ⊆ visited) && improves (best_cost2 st) cost in
    let pipes_to_run' := if found then Some seq else pipes_to_run2 st in
    let best_cost' := if found then Some cost else best_cost2 st in
    if hopeless best_cost' cost
    then {| done := done'; unprocessed2 := rest;
            pipes_to_run2 := pipes_to_run'; best_cost2 := best_cost';
            source_var2 := source_var2 st |}
    else {| done := done';
            unprocessed2 := grow_combo source_to_pipes next rest;
            pipes_to_run2 := pipes_to_run'; best_cost2 := best_cost';
            source_var2 := last_key source_to_pipes (source_var2 st) |}.

Fixpoint combine_loop (fuel : nat)
         (source_to_pipes :
            list (source * list (gset string * gset transform * Z)))
         (sink_types : gset string) (st : combine) : option combine :=
  match fuel with
  | O => None
  | S fuel' =>
      match set_pop (pick_combo o fuel') (unprocessed2 st) with
      | None => Some st
      | Some (next, rest) =>
          combine_loop fuel' source_to_pipes sink_types
            (combine_step source_to_pipes sink_types next rest st)
      end
  end.

(** The block under [if pipes_to_run is None]. *)
Definition combine_pipes (fuel : nat) (sink_types : gset string)
           (st : search) : option combine :=
  let seen := set_iter (pick_pipe o) (pipes st) in
  let source_to_pipes :=
    fold_left
      (fun d (p : pipe) => dict_append d p.1.1.2 (p.1.1.1, p.1.2, p.2))
      seen [] in
  let source' :=
    match last seen with
    | Some p => p.1.1.2
    | None => source_var st
    end in
  let unprocessed :=
    fold_left
      (fun u (p : pipe) =>
         set_add (p.1.1.1, ({[p.1.1.2]} : gset source),
                  [(p.1.1.2, p.1.2)], p.2) u)
      seen [] in
  combine_loop fuel source_to_pipes sink_types
    {| done := []; unprocessed2 := unprocessed;
       pipes_to_run2 := pipes_to_run st; best_cost2 := best_cost st;
       source_var2 := source' |}.

(** ** Building the trees *)

(** [good_sinks.sort(key=attrgetter('priority'))]: ascending, stable. *)
Fixpoint insert_sorted (s : sink) (l : list sink) : list sink :=
  match l with
  | [] => [s]
  | x :: rest =>
      if (sink_priority x <=? sink_priority s)%Z
      then x :: insert_sorted s rest
      else s :: l
  end.

Definition sort_by_priority (l : list sink) : list sink :=
  fold_left (fun acc s => insert_sorted s acc) l [].

(** [for i in reversed(range(len(good_sinks))): ...]: the checks taken
    into [children], and what is left of [good_sinks].  [source_scope] is
    [source.scope] for the function's variable [source]. *)
Definition take_sinks (source_scope : nat) (feed_type : string)
           (good_sinks : list sink) : list sink * list sink :=
  fold_left
    (fun (acc : list sink * list sink) i =>
       match acc.2 !! i with
       | None => acc
       | Some s =>
           if bool_decide (sink_feed_type s = feed_type) &&
              (sink_scope s <=? source_scope)%nat
           then ((acc.1 ++ [s])%list, delete i acc.2)
           else acc
       end)
    (rev (seq 0 (length good_sinks))) ([], good_sinks).

(** The inner function [build_transform]; it returns the runner and the
    [good_sinks] it leaves.  [None]: the recursion does not end within
    [fuel] calls. *)
Fixpoint build_transform (fuel : nat) (source_scope : nat)
         (scope : nat) (feed_type : string) (trans : gset transform)
         (good_sinks : list sink) : option (runner * list sink) :=
  match fuel with
  | O => None
  | S fuel' =>
      let wrapped :=
        fold_left
          (fun (acc : option (list child * list sink)) t =>
             match acc with
             | None => None
             | Some (children, good_sinks) =>
                 if bool_decide (tr_source t = feed_type) &&
                    (tr_scope t <=? scope)%nat
                 then
                   match build_transform fuel' source_scope scope
                                         (tr_dest t) trans good_sinks with
                   | None => None
                   | Some (r, good_sinks) =>
                       Some ((children ++ [Wrapped t r])%list, good_sinks)
                   end
                 else acc
             end)
          (set_iter (pick_trans o) (elements trans))
          (Some ([], good_sinks)) in
      match wrapped with
      | None => None
      | Some (children, good_sinks) =>
          let taken := take_sinks source_scope feed_type good_sinks in
          Some (CheckRunner (children ++ List.map Plain taken.1)%list,
                taken.2)
      end
  end.

(** [result = list((source, build_transform(...)) for ... in pipes_to_run)] *)
Fixpoint build_all (fuel : nat) (source_scope : nat)
         (to_run : list (source * gset transform)) (good_sinks : list sink)
  : option (list (source * runner) * list sink) :=
  match to_run with
  | [] => Some ([], good_sinks)
  | (src, trans) :: rest =>
      match build_transform fuel source_scope (src_scope src)
                            (src_feed_type src) trans good_sinks with
      | None => None
      | Some (r, good_sinks) =>
          match build_all fuel source_scope rest good_sinks with
          | None => None
          | Some (result, good_sinks) => Some ((src, r) :: result, good_sinks)
          end
      end
  end.

(** ** [plug] *)

(** Where [plug] stands after the searches: it has returned early with
    every sink unreachable, or it goes on to build the trees with the
    unreachable sinks, the reachable ones, [pipes_to_run], and its
    variable [source]. *)
Record plan := {
  bad_sinks : list sink;
  good_sinks : list sink;
  to_run : option (list (source * gset transform));
  final_source : source
}.

Inductive planned :=
| Unplugged (unreachable : list sink)
| Plugged (p : plan).

(** [min(sink.scope for sink in good_sinks)] *)
Definition min_scope (l : list sink) : nat :=
  match l with
  | [] => 0
  | s :: rest =>
      fold_left (fun m x => Nat.min m (sink_scope x)) rest (sink_scope s)
  end.

(** The seeds of the first search, one per entry of [source_map]. *)
Definition seeds (sources : list source) : list pipe :=
  fold_left
    (fun u (kv : nat * string * source) =>
       set_add (({[src_feed_type kv.2]} : gset string),
                kv.2, (∅ : gset transform), src_cost kv.2) u)
    (source_map sources) [].

Definition plan_pipes (fuel : nat) (sinks : list sink) (sources : list source)
  : outcome planned :=
  match sinks with
  | [] => AssertionError
  | _ =>
      match best_scopes fuel sources ∅ with
      | None => OutOfFuel
      | Some best_scope =>
          let bad := List.filter (is_bad best_scope) sinks in
          let good := List.filter (fun s => negb (is_bad best_scope s)) sinks in
          match good, last sources with
          | [], _ | _, None => Returned (Unplugged bad)
          | _, Some source0 =>
              let lowest_required_scope := min_scope good in
              let sources' :=
                List.filter
                  (fun s => (lowest_required_scope <=? src_scope s)%nat)
                  sources in
              match sources' with
              | [] => Returned (Unplugged (bad ++ good)%list)
              | _ =>
                  let sink_types : gset string :=
                    list_to_set (List.map sink_feed_type good) in
                  match search_loop fuel sink_types
                          {| pipes := []; unprocessed := seeds sources';
                             pipes_to_run := None; best_cost := None;
                             source_var := source0 |} with
                  | None => OutOfFuel
                  | Some st =>
                      match pipes_to_run st with
                      | Some seq =>
                          Returned
                            (Plugged {| bad_sinks := bad; good_sinks := good;
                                        to_run := Some seq;
                                        final_source := source_var st |})
                      | None =>
                          match combine_pipes fuel sink_types st with
                          | None => OutOfFuel
                          | Some st2 =>
                              Returned
                                (Plugged {| bad_sinks := bad;
                                            good_sinks := good;
                                            to_run := pipes_to_run2 st2;
                                            final_source := source_var2 st2 |})
                          end
                      end
                  end
              end
          end
      end
  end.

(** [plug(sinks, transforms, sources)]: the pair it returns. *)
Definition plug (fuel : nat) (sinks : list sink) (sources : list source)
  : outcome (list sink * list (source * runner)) :=
  match plan_pipes fuel sinks sources with
  | OutOfFuel => OutOfFuel
  | AssertionError => AssertionError
  | Returned (Unplugged unreachable) => Returned (unreachable, [])
  | Returned (Plugged p) =>
      match to_run p with
      | None | Some [] => AssertionError
      | Some seq =>
          match build_all fuel (src_scope (final_source p)) seq
                          (sort_by_priority (good_sinks p)) with
          | None => OutOfFuel
          | Some (result, []) => Returned (bad_sinks p, result)
          | Some (_, _ :: _) => AssertionError
          end
      end
  end.

End Planner.

(** ** What a pipeline does with the checks *)

(** The checks of a tree, in the order one [feed] on its root calls
    them when every transform passes its item on: [CheckRunner.feed]
    goes through the children in list order. *)
Fixpoint feed_order (r : runner) : list sink :=
  match r with
  | CheckRunner children => flat_map child_feed_order children
  end
with child_feed_order (c : child) : list sink :=
  match c with
  | Wrapped _ r => feed_order r
  | Plain s => [s]
  end.

(** Two ways to iterate a set: first element first, last element first. *)
Definition first_order : hash_order :=
  {| pick_feed := fun _ _ => 0; pick_pipe := fun _ _ => 0;
     pick_combo := fun _ _ => 0; pick_trans := fun _ _ => 0 |}.

Definition last_order : hash_order :=
  {| pick_feed := fun _ l => pred (length l);
     pick_pipe := fun _ l => pred (length l);
     pick_combo := fun _ l => pred (length l);
     pick_trans := fun _ l => pred (length l) |}.

End Plug.

(* ===================================================================== *)
(** * Check sets: [Whitelist], [Blacklist] and [filter_update]            *)
(* ===================================================================== *)

Module CheckSets.
Import CheckFilter.

(** A check or result class, as the filters read it. *)
Record pyclass := PyClass {
  cls_module : string;
  cls_name : string
}.

Global Instance pyclass_eq_dec : EqDecision pyclass.
Proof. solve_decision. Defined.

(** [f'{c.__module__}.{c.__name__}'] *)
Definition qualname (c : pyclass) : string :=
  cls_module c ++ "." ++ cls_name c.

Section Sets.

(** [str.lower] and the [re] module, as [convert_check_filter] uses
    them. *)
Variable lower : string -> string.
Variables pattern match_object : Type.
Variable re_compile : string -> option pattern.
Variable pattern_match : pattern -> string -> option match_object.

(** [_CheckSet.__init__]: the filter functions of the patterns; [None]
    when [convert_check_filter] raises for one of them. *)
Definition CheckSet_init (patterns : list string)
  : option (list (string -> answer match_object)) :=
  mapM (convert_check_filter lower re_compile pattern_match) patterns.

(** [any(p(name) for p in self.patterns)] *)
Definition any_pattern (patterns : list (string -> answer match_object))
           (c : pyclass) : bool :=
  existsb (fun p => truth (p (qualname c))) patterns.

(** [Whitelist.filter] *)
Definition Whitelist_filter (patterns : list (string -> answer match_object))
           (checks : list pyclass) : list pyclass :=
  List.filter (any_pattern patterns) checks.

(** [Blacklist.filter] *)
Definition Blacklist_filter (patterns : list (string -> answer match_object))
           (checks : list pyclass) : list pyclass :=
  List.filter (fun c => negb (any_pattern patterns c)) checks.

(** [filter_update(objs, enabled, disabled)]: an empty sequence of
    patterns is false, and its filter is not built; [None] when a
    pattern does not compile. *)
Definition filter_update (objs : list pyclass) (enabled disabled : list string)
  : option (list pyclass) :=
  let objs :=
    match enabled with
    | [] => Some objs
    | _ => option_map (fun ps => Whitelist_filter ps objs)
                      (CheckSet_init enabled)
    end in
  match objs with
  | None => None
  | Some objs =>
      match disabled with
      | [] => Some objs
      | _ => option_map (fun ps => Blacklist_filter ps objs)
                        (CheckSet_init disabled)
      end
  end.

End Sets.

Arguments CheckSet_init lower {pattern match_object} re_compile pattern_match
  patterns.
Arguments any_pattern {match_object} patterns c.
Arguments Whitelist_filter {match_object} patterns checks.
Arguments Blacklist_filter {match_object} patterns checks.
Arguments filter_update lower {pattern match_object} re_compile pattern_match
  objs enabled disabled.

End CheckSets.

(* ===================================================================== *)
(** * The results the runner and the two checks construct                 *)
(* ===================================================================== *)

Module Results.
Import ResultState.

(** The values the constructors store: a string, a tuple of strings, or
    a list of strings. *)
Inductive pyval :=
| PyStr (s : string)
| PyTuple (l : list string)
| PyList (l : list string).

(** [Result._store_cp] and [Result._store_cpv] *)
Definition store_cp (self : gmap string pyval) (p : pkg) : gmap string pyval :=
  <["package" := PyStr (package p)]> (<["category" := PyStr (category p)]> self).

Definition store_cpv (self : gmap string pyval) (p : pkg) : gmap string pyval :=
  <["version" := PyStr (fullver p)]> (store_cp self p).

(** The three classes, by their [__slots__]. *)
Definition MetadataError_class : kind :=
  Kind None ["category"; "package"; "version"; "attr"; "msg"].

Definition RedundantVersion_class : kind :=
  Kind None ["category"; "package"; "version"; "slot"; "later_versions"].

Definition UnstableOnly_class : kind :=
  Kind None ["category"; "package"; "versions"; "arches"].

(** [MetadataError.__init__(pkg, attr, msg)], for a [msg] that is a
    string already. *)
Definition MetadataError_new (p : pkg) (attr msg : string)
  : gmap string pyval :=
  <["msg" := PyStr msg]> (<["attr" := PyStr attr]> (store_cpv ∅ p)).

(** [RedundantVersion.__init__(pkg, higher_pkgs)] *)
Definition RedundantVersion_new (p : pkg) (higher_pkgs : list pkg)
  : gmap string pyval :=
  <["later_versions" := PyTuple (List.map fullver higher_pkgs)]>
    (<["slot" := PyStr (slot p)]> (store_cpv ∅ p)).

(** [UnstableOnly.__init__(pkgs, arches)]; [None] is the [IndexError]
    of [pkgs[0]]. *)
Definition UnstableOnly_new (pkgs : list pkg) (arches : list string)
  : option (gmap string pyval) :=
  match pkgs with
  | [] => None
  | p0 :: _ =>
      Some (<["versions" := PyTuple (List.map fullver pkgs)]>
              (<["arches" := PyList arches]> (store_cp ∅ p0)))
  end.

End Results.

(* ===================================================================== *)
(** * [CheckRunner.finish]                                                *)
(* ===================================================================== *)

Module RunnerFinish.
Import Runner.

Section Finish.

Context {item result pkgid error : Type}.

(** What the [finish] of a check does; [Template.finish] itself does
    nothing. *)
Variable s_finish :
  template item result pkgid error -> behaviour result pkgid error.

(** [check.finish(reporter)] and [CheckRunner.finish]: a loop without a
    [try]; [Transform.finish] finishes the child. *)
Fixpoint finish_check (c : check item result pkgid error)
         (w : world result pkgid error)
  : world result pkgid error * option (MetadataException pkgid error) :=
  match c with
  | Sink s => (add_reports (reported (s_finish s)) w, raised (s_finish s))
  | Transform _ child => finish_runner child w
  end
with finish_runner (r : runner item result pkgid error)
                   (w : world result pkgid error)
  : world result pkgid error * option (MetadataException pkgid error) :=
  match r with
  | CheckRunner _ checks =>
      fold_left
        (fun (acc : world result pkgid error *
                    option (MetadataException pkgid error)) c =>
           match acc.2 with
           | None => finish_check c acc.1
           | Some e => acc
           end)
        checks (w, None)
  end.

End Finish.

End RunnerFinish.

(* ===================================================================== *)
(** * [reporters.py]: [Reporter.add_report], StrReporter, FancyReporter   *)
(* ===================================================================== *)

Module Reporters.

(** The feed types of [base.py], which are the thresholds of results. *)
Definition repository_feed : string := "repo".
Definition category_feed : string := "cat".
Definition package_feed : string := "cat/pkg".
Definition versioned_feed : string := "cat/pkg-ver".
Definition ebuild_feed : string := "cat/pkg-ver+text".

Inductive exn := AttributeError | KeyError.

(** A result, as the reporters read it: its class, [_level] and
    [threshold], the attributes [category], [package] and [version] when
    they are set, and its two descriptions ([long_desc] is [short_desc]
    unless the class overrides it). *)
Record result := Result {
  r_class : string;
  r_level : Z;
  r_threshold : string;
  r_category : option string;
  r_package : option string;
  r_version : option string;
  r_short_desc : string;
  r_long_desc : string
}.

(** [Result.desc], once [add_report] has set [_verbosity]. *)
Definition desc (verbosity : Z) (r : result) : string :=
  if (verbosity =? 0)%Z then r_short_desc r else r_long_desc r.

(** [Result.color]: [_level_to_desc[self._level][1]] *)
Definition color (r : result) : option string :=
  if (r_level r =? 40)%Z then Some "red"
  else if (r_level r =? 30)%Z then Some "yellow"
  else if (r_level r =? 20)%Z then Some "green"
  else None.

(** [getattr]: the attribute, or [AttributeError]. *)
Definition attr (a : option string) : exn + string :=
  match a with
  | Some s => inr s
  | None => inl AttributeError
  end.

(** ** [base.Reporter] *)

Record reporter := {
  verbosity : Z;
  filtered_keywords : option (list string)
}.

(** [Reporter.__init__(out, keywords, verbosity)] *)
Definition Reporter_init (keywords : option (list string))
           (verbosity : option Z) : reporter :=
  {| verbosity := match verbosity with Some v => v | None => 0%Z end;
     filtered_keywords := keywords |}.

(** The test of [add_report]. *)
Definition enabled (self : reporter) (r : result) : bool :=
  match filtered_keywords self with
  | None => true
  | Some keywords => bool_decide (r_class r ∈ keywords)
  end.

(** [Reporter.add_report]; [process] is the [process_report] of the
    subclass, given the verbosity stamped on the result. *)
Definition add_report {S : Type}
           (process : Z -> result -> S -> S * option exn)
           (self : reporter) (r : result) (st : S) : S * option exn :=
  if enabled self r then process (verbosity self) r st else (st, None).

(** [add_report] for each result in turn, until one raises. *)
Definition add_report_all {S : Type}
           (process : Z -> result -> S -> S * option exn)
           (self : reporter) (rs : list result) (st : S) : S * option exn :=
  fold_left
    (fun (acc : S * option exn) r =>
       match acc.2 with
       | None => add_report process self r acc.1
       | Some _ => acc
       end)
    rs (st, None).

(** ** StrReporter

    [out] is the list of the calls of [self.out.write], each with the
    string it was given, if any. *)
Record str_reporter := {
  str_out : list (list string);
  first_report : bool
}.

(** [StrReporter.__init__] *)
Definition StrReporter_init : str_reporter :=
  {| str_out := []; first_report := true |}.

(** The line written for a result. *)
Definition str_line (v : Z) (r : result) : exn + string :=
  if String.eqb (r_threshold r) versioned_feed then
    match attr (r_category r), attr (r_package r), attr (r_version r) with
    | inr c, inr p, inr ver =>
        inr (c ++ "/" ++ p ++ "-" ++ ver ++ ": " ++ desc v r)
    | inl e, _, _ | _, inl e, _ | _, _, inl e => inl e
    end
  else if String.eqb (r_threshold r) package_feed then
    match attr (r_category r), attr (r_package r) with
    | inr c, inr p => inr (c ++ "/" ++ p ++ ": " ++ desc v r)
    | inl e, _ | _, inl e => inl e
    end
  else if String.eqb (r_threshold r) category_feed then
    match attr (r_category r) with
    | inr c => inr (c ++ ": " ++ desc v r)
    | inl e => inl e
    end
  else inr (desc v r).

(** [StrReporter.process_report] *)
Definition StrReporter_process (v : Z) (r : result) (self : str_reporter)
  : str_reporter * option exn :=
  let self :=
    if first_report self
    then {| str_out := str_out self ++ [[]]; first_report := false |}
    else self in
  match str_line v r with
  | inr line =>
      ({| str_out := str_out self ++ [[line]];
          first_report := first_report self |}, None)
  | inl e => (self, Some e)
  end.

(** [StrReporter.finish] *)
Definition StrReporter_finish (self : str_reporter) : str_reporter :=
  if first_report self then self
  else {| str_out := str_out self ++ [[]];
          first_report := first_report self |}.

(** ** FancyReporter

    What [self.out.write] is given: strings, and the formatter's
    [bold], [fg(color)] and [reset]. *)
Inductive token :=
| Txt (s : string)
| Bold
| Fg (color : string)
| Reset.

Record fancy_reporter := {
  fancy_out : list (list token);
  first_prefix : list string;
  later_prefix : list string;
  key : option string
}.

(** [FancyReporter.__init__], on a formatter without prefixes. *)
Definition FancyReporter_init : fancy_reporter :=
  {| fancy_out := []; first_prefix := []; later_prefix := []; key := None |}.

(** The [key] of a result. *)
Definition fancy_key (r : result) : exn + string :=
  if String.eqb (r_threshold r) versioned_feed ||
     String.eqb (r_threshold r) package_feed then
    match attr (r_category r), attr (r_package r) with
    | inr c, inr p => inr (c ++ "/" ++ p)
    | inl e, _ | _, inl e => inl e
    end
  else if String.eqb (r_threshold r) category_feed then attr (r_category r)
  else inr "repo".

(** The arguments of the last [write] of [process_report]. *)
Definition fancy_line (v : Z) (r : result) : exn + list token :=
  match (if String.eqb (r_threshold r) versioned_feed
         then match attr (r_version r) with
              | inr ver => inr ("version " ++ ver ++ ": ")
              | inl e => inl e
              end
         else inr "") with
  | inl e => inl e
  | inr s =>
      match color r with
      | None => inl KeyError
      | Some c =>
          inr [Fg c; Txt (r_class r); Reset; Txt ": "; Txt s; Txt (desc v r)]
      end
  end.

(** [FancyReporter.process_report]: the prefixes are pushed before the
    line is put together and popped after it is written. *)
Definition FancyReporter_process (v : Z) (r : result) (self : fancy_reporter)
  : fancy_reporter * option exn :=
  match fancy_key r with
  | inl e => (self, Some e)
  | inr k =>
      let self :=
        if bool_decide (Some k = key self) then self
        else {| fancy_out := fancy_out self ++ [[]; [Bold; Txt k]];
                first_prefix := first_prefix self;
                later_prefix := later_prefix self;
                key := Some k |} in
      let pushed :=
        {| fancy_out := fancy_out self;
           first_prefix := first_prefix self ++ ["  "];
           later_prefix := later_prefix self ++ ["    "];
           key := key self |} in
      match fancy_line v r with
      | inl e => (pushed, Some e)
      | inr line =>
          ({| fancy_out := fancy_out self ++ [line];
              first_prefix := first_prefix self;
              later_prefix := later_prefix self;
              key := key self |}, None)
      end
  end.

End Reporters.

(* ===================================================================== *)
(** * What is asked of the interpreter, of [re] and of pkgcore            *)
(* ===================================================================== *)

(** [str.lower], [str.strip], the [re] module and the equality of
    packages are parameters of the definitions above.  Where a statement
    needs to know what they answer, it asks for their documented
    behaviour on ASCII text, on a fragment of the pattern syntax, or on
    versions that differ by [-r0]; this module states that behaviour,
    and gives the functions that have it and nothing else. *)
Module Reference.
Import CheckFilter.

(** ** ASCII text *)

Fixpoint ascii_only (s : string) : bool :=
  match s with
  | EmptyString => true
  | String c s' => (nat_of_ascii c <? 128)%nat && ascii_only s'
  end.

(** [str.lower] on ASCII text folds [A]-[Z] and nothing else. *)
Definition lower_ascii (c : ascii) : ascii :=
  let n := nat_of_ascii c in
  if (65 <=? n)%nat && (n <=? 90)%nat then ascii_of_nat (n + 32) else c.

Fixpoint lower_str (s : string) : string :=
  match s with
  | EmptyString => EmptyString
  | String c s' => String (lower_ascii c) (lower_str s')
  end.

Definition lower_as_documented (lower : string -> string) : Prop :=
  forall s, ascii_only s = true -> lower s = lower_str s.

(** [str.strip] on ASCII text drops tab to carriage return, the four
    separators and the space, at both ends. *)
Definition is_space (c : ascii) : bool :=
  let n := nat_of_ascii c in
  ((9 <=? n)%nat && (n <=? 13)%nat) || ((28 <=? n)%nat && (n <=? 32)%nat).

Fixpoint rstrip (drop : ascii -> bool) (s : string) : string :=
  match s with
  | EmptyString => EmptyString
  | String c s' =>
      match rstrip drop s' with
      | EmptyString => if drop c then EmptyString else String c EmptyString
      | r => String c r
      end
  end.

Definition strip_str (s : string) : string :=
  rstrip is_space (UnstableOnly.lstrip is_space s).

Definition strip_as_documented (strip : string -> string) : Prop :=
  forall s, ascii_only s = true -> strip s = strip_str s.

(** ** A fragment of the pattern syntax

    Literal characters, [.], the postfix repetitions [*] and [+], and
    groups [(?-i:...)] of these that are not repeated themselves.
    Under [re.I] a literal is compared without case, except inside
    [(?-i:...)]; [.] takes anything but a newline. *)
Inductive atom := Lit (c : ascii) | Exact (c : ascii) | AnyChar.
Inductive quant := Once | Star | Plus.

Definition special (c : ascii) : bool :=
  contains c "\^$?{}[]()|*+".

Definition atom_of (exact : bool) (c : ascii) : option atom :=
  if Ascii.eqb c "." then Some AnyChar
  else if special c then None
  else Some (if exact then Exact c else Lit c).

(** The pattern, when it is of the fragment; [exact] says that the text
    is inside [(?-i:...)]. *)
Fixpoint parse_re (exact : bool) (s : string) : option (list (atom * quant)) :=
  match s with
  | EmptyString => if exact then None else Some []
  | String "(" (String "?" (String "-" (String "i" (String ":" rest)))) =>
      if exact then None else parse_re true rest
  | String c rest =>
      if exact && Ascii.eqb c ")"
      then match rest with
           | String "*" _ | String "+" _ => None
           | _ => parse_re false rest
           end
      else
        match atom_of exact c with
        | None => None
        | Some a =>
            match rest with
            | String "*" rest' =>
                option_map (cons (a, Star)) (parse_re exact rest')
            | String "+" rest' =>
                option_map (cons (a, Plus)) (parse_re exact rest')
            | _ => option_map (cons (a, Once)) (parse_re exact rest)
            end
        end
  end.

Definition atom_ok (a : atom) (c : ascii) : bool :=
  match a with
  | Lit x => Ascii.eqb (lower_ascii x) (lower_ascii c)
  | Exact x => Ascii.eqb x c
  | AnyChar => negb (Ascii.eqb c newline)
  end.

(** Whether the pattern matches at the start of [s]. *)
Fixpoint re_match (items : list (atom * quant)) (s : string) {struct items}
  : bool :=
  match items with
  | [] => true
  | (a, q) :: rest =>
      let fix star (s : string) : bool :=
        re_match rest s ||
        match s with
        | String c s' => atom_ok a c && star s'
        | EmptyString => false
        end in
      match q with
      | Once =>
          match s with
          | String c s' => atom_ok a c && re_match rest s'
          | EmptyString => false
          end
      | Star => star s
      | Plus =>
          match s with
          | String c s' => atom_ok a c && star s'
          | EmptyString => false
          end
      end
  end.

(** A pattern of the fragment compiles, and its [match] answers a match
    object on ASCII text exactly where the pattern matches at the
    start. *)
Definition re_as_documented {pattern match_object : Type}
           (re_compile : string -> option pattern)
           (pattern_match : pattern -> string -> option match_object) : Prop :=
  forall tok items,
    ascii_only tok = true -> parse_re false tok = Some items ->
    exists p, re_compile tok = Some p /\
              forall s, ascii_only s = true ->
                        (is_Some (pattern_match p s) <-> re_match items s = true).

(** The matcher that knows the fragment only; its match object says
    nothing. *)
Definition fragment_compile (tok : string) : option (list (atom * quant)) :=
  parse_re false tok.

Definition fragment_match (p : list (atom * quant)) (s : string) : option unit :=
  if re_match p s then Some tt else None.

(** ** Packages that are equal

    pkgcore compares packages by category, package and version, and a
    version without a revision is the version with [-r0].  [cpv_eqb] is
    that comparison for versions that are spelled alike but for a
    trailing [-r0]. *)
Fixpoint without_r0 (v : string) : string :=
  match v with
  | EmptyString => EmptyString
  | String c v' => if String.eqb v "-r0" then EmptyString
                   else String c (without_r0 v')
  end.

Definition cpv_eqb (p q : pkg) : bool :=
  String.eqb (category p) (category q) &&
  String.eqb (package p) (package q) &&
  String.eqb (without_r0 (fullver p)) (without_r0 (fullver q)).

End Reference.

(* ===================================================================== *)
(** * Properties                                                          *)
(* ===================================================================== *)

Module ResultStateFacts.
Import ResultState.

Section Instances.

Variable value : Type.
Variable object_getstate : gmap string value -> pyobj value.

Lemma setattrs_union (self data : gmap string value) :
  setattrs self data = data ∪ self.
Proof.
  unfold setattrs. rewrite map_fold_foldr.
  transitivity (foldr (fun p => <[p.1 := p.2]>) self (map_to_list data)).
  - induction (map_to_list data) as [|[i x] l IH]; simpl; [done|].
    by rewrite IH.
  - rewrite foldr_insert_union. by rewrite list_to_map_to_list.
Qed.

Lemma dict_of_pairs_lookup_acc (kvs : list (string * value))
      (acc : gmap string value) (a : string) :
  fold_left (fun d kv => <[kv.1 := kv.2]> d) kvs acc !! a =
  match list_find (fun kv => kv.1 = a) (reverse kvs) with
  | Some (_, kv) => Some kv.2
  | None => acc !! a
  end.
Proof.
  revert acc. induction kvs as [|[k v] kvs IH]; intros acc; simpl.
  - done.
  - rewrite IH. rewrite reverse_cons.
    destruct (list_find (fun kv => kv.1 = a) (reverse kvs)) as [[i kv]|] eqn:E.
    + erewrite list_find_app_l by exact E. done.
    + rewrite list_find_app_r by exact E. simpl.
      case_decide as Hk; simpl in *.
      * subst. simpl. by rewrite lookup_insert_eq.
      * by rewrite lookup_insert_ne.
Qed.

Lemma getattrs_spec (self : gmap string value) (attrs : list string) kvs :
  getattrs self attrs = Some kvs ->
  Forall (fun kv => self !! kv.1 = Some kv.2) kvs /\ kvs.*1 = attrs.
Proof.
  revert kvs. induction attrs as [|k rest IH]; intros kvs; simpl.
  - intros [= <-]. split; constructor.
  - destruct (self !! k) as [v|] eqn:E; [|done].
    destruct (getattrs self rest) as [kvs'|]; [|done].
    intros [= <-]. destruct (IH kvs' eq_refl) as [H1 H2].
    split; [constructor; done | rewrite fmap_cons; simpl; by f_equal].
Qed.

Lemma getattrs_total (self : gmap string value) (attrs : list string) :
  (forall a, a ∈ attrs -> is_Some (self !! a)) ->
  exists kvs, getattrs self attrs = Some kvs.
Proof.
  induction attrs as [|k rest IH]; intros H; simpl; [by eexists|].
  destruct (H k) as [v Hv]; [by left|]. rewrite Hv.
  destruct IH as [kvs Hk]; [intros a Ha; apply H; by right|].
  rewrite Hk. by eexists.
Qed.

(** The dict built by [__getstate__] has exactly the declared names as
    keys, each bound to the instance's value. *)
Lemma dict_of_getattrs (self : gmap string value) attrs kvs :
  getattrs self attrs = Some kvs ->
  dom (dict_of_pairs kvs) = list_to_set attrs /\
  forall a, a ∈ attrs -> dict_of_pairs kvs !! a = self !! a.
Proof.
  intros H. destruct (getattrs_spec _ _ _ H) as [Hall Hfst].
  assert (Hlk : forall a, dict_of_pairs kvs !! a =
                          if decide (a ∈ attrs) then self !! a else None).
  { intros a. unfold dict_of_pairs. rewrite dict_of_pairs_lookup_acc.
    destruct (list_find (fun kv => kv.1 = a) (reverse kvs)) as [[i kv]|] eqn:E.
    - apply list_find_Some in E as (Hi & Hk & _).
      assert (Hin : kv ∈ kvs).
      { apply elem_of_reverse. eapply list_elem_of_lookup_2. exact Hi. }
      rewrite decide_True.
      + rewrite Forall_forall in Hall. subst a. symmetry. by apply Hall.
      + rewrite <- Hfst. subst a. apply list_elem_of_fmap. by exists kv.
    - rewrite lookup_empty. case_decide as Hin; [|done].
      exfalso. rewrite <- Hfst in Hin.
      apply list_elem_of_fmap in Hin as (kv & -> & Hin).
      apply list_find_None in E. rewrite Forall_forall in E.
      apply (E kv); [by apply elem_of_reverse | done]. }
  split.
  - apply set_eq. intros a. rewrite elem_of_dom, elem_of_list_to_set, Hlk.
    case_decide as Hin.
    + split; [done|]. intros _.
      rewrite <- Hfst in Hin. apply list_elem_of_fmap in Hin as (kv & -> & Hin).
      rewrite Forall_forall in Hall. rewrite (Hall kv Hin). by eexists.
    + split; [intros [? ?]; done | done].
  - intros a Ha. rewrite Hlk. by rewrite decide_True.
Qed.

(** The guard of [__setstate__] passes exactly on equal key sets. *)
Lemma setstate_guard (attrs : gset string) (d : gmap string value) :
  (attrs ∖ dom d ≠ ∅ ∨ size attrs ≠ size d) <-> dom d ≠ attrs.
Proof.
  split.
  - intros [H|H] Heq; subst attrs.
    + apply H. set_solver.
    + apply H. by rewrite size_dom.
  - intros Hne.
    destruct (decide (attrs ∖ dom d = ∅)) as [Hsub|]; [|by left].
    right. intros Hsz. apply Hne. symmetry.
    apply set_subseteq_size_eq.
    + intros x Hx. destruct (decide (x ∈ dom d)); [done|]. set_solver.
    + rewrite size_dom. lia.
Qed.

(** C9. Pickle round trip.  For a result whose class declares a
    non-empty attribute set, all of it set on the instance,
    [__getstate__] returns a dict, [__setstate__] accepts that dict on
    any instance [fresh] of the same class, and afterwards every declared
    attribute of the restored instance equals the original's. *)
Theorem getstate_setstate_roundtrip (k : kind) (self fresh : gmap string value) :
  declared k <> [] ->
  (forall a, a ∈ declared k -> is_Some (self !! a)) ->
  exists d restored,
    getstate object_getstate k self = inr (PyDict d) /\
    setstate k fresh (PyDict d) = (restored, None) /\
    forall a, a ∈ declared k -> restored !! a = self !! a.
Proof.
  intros Hne Hset.
  destruct (getattrs_total self (declared k) Hset) as [kvs Hk].
  destruct (dict_of_getattrs self _ _ Hk) as [Hdom Hlk].
  exists (dict_of_pairs kvs), (dict_of_pairs kvs ∪ fresh). split; [|split].
  - unfold getstate. destruct (declared k) as [|a0 l] eqn:E; [done|].
    by rewrite Hk.
  - unfold setstate. rewrite decide_False.
    + by rewrite setattrs_union.
    + rewrite setstate_guard. intros Hbad. by apply Hbad.
  - intros a Ha. rewrite <- (Hlk a Ha).
    apply lookup_union_l'. rewrite (Hlk a Ha). by apply Hset.
Qed.

(** C10. [__setstate__] accepts a state dict exactly when its key set is
    the declared attribute set, and then assigns every pair; on any other
    dict it raises [TypeError] and leaves the instance as it was. *)
Theorem setstate_exact_keys (k : kind) (self d : gmap string value) :
  setstate k self (PyDict d) =
  if decide (dom d = list_to_set (declared k))
  then (d ∪ self, None)
  else (self, Some TypeError).
Proof.
  unfold setstate.
  destruct (decide (dom d = list_to_set (declared k))) as [Heq|Hne].
  - rewrite decide_False; [by rewrite setattrs_union|].
    rewrite setstate_guard. intros Hbad. by apply Hbad.
  - rewrite decide_True; [done|]. by rewrite setstate_guard.
Qed.

End Instances.

(** The class [MetadataError] of the source and one of its instances. *)
Definition MetadataError : kind :=
  Kind None ["category"; "package"; "version"; "attr"; "msg"].

Definition a_metadata_error : gmap string string :=
  <["category" := "dev-lang"]> (<["package" := "python"]>
  (<["version" := "3.7"]> (<["attr" := "depend"]>
  (<["msg" := "bad atom"]> (<["_verbosity" := "0"]> ∅))))).

Lemma getstate_setstate_roundtrip_witness :
  exists d restored,
    getstate (fun _ => PyNone) MetadataError a_metadata_error = inr (PyDict d) /\
    setstate MetadataError ∅ (PyDict d) = (restored, None) /\
    forall a, a ∈ declared MetadataError ->
              restored !! a = a_metadata_error !! a.
Proof.
  apply (getstate_setstate_roundtrip string (fun _ => PyNone)
           MetadataError a_metadata_error ∅).
  - discriminate.
  - intros a Ha. unfold MetadataError, declared in Ha. simpl in Ha.
    rewrite !elem_of_cons in Ha. rewrite elem_of_nil in Ha.
    destruct Ha as [->|[->|[->|[->|[->|[]]]]]]; vm_compute; eexists; reflexivity.
Defined.

(** [Error] and [Warning] declare nothing of their own: they inherit
    [__slots__ = ()] from [Result]. *)
Definition Error : kind := Kind None [].

(** [object.__getstate__] for an instance with a [__dict__] and no
    slots: the [__dict__], or [None] when it is empty. *)
Definition dict_or_none (self : gmap string string) : pyobj string :=
  if decide (self = ∅) then PyNone else PyDict self.

(** C9 as stated fails.  A [MetadataError] on which [msg] is not set
    has no state: [__getstate__] raises.  And an [Error], which declares
    no attribute, has the state the interpreter gives it, here its
    [_verbosity], which [__setstate__] then refuses. *)
Lemma roundtrip_needs_declared_attributes :
  getstate dict_or_none MetadataError (delete "msg" a_metadata_error)
    = inl AttributeError /\
  getstate dict_or_none Error {["_verbosity" := "0"]}
    = inr (PyDict {["_verbosity" := "0"]}) /\
  setstate Error ∅ (PyDict {["_verbosity" := "0"]}) = (∅, Some TypeError).
Proof. repeat split; vm_compute; reflexivity. Qed.

End ResultStateFacts.

Module CheckFilterFacts.
Import CheckFilter Reference.

(** ** The reference functions *)

Lemma newline_lower (c : ascii) :
  Ascii.eqb (lower_ascii c) newline = Ascii.eqb c newline.
Proof.
  destruct c as [[] [] [] [] [] [] [] []]; reflexivity.
Qed.

Lemma lower_ascii_ascii (c : ascii) :
  (nat_of_ascii (lower_ascii c) <? 128)%nat = (nat_of_ascii c <? 128)%nat.
Proof.
  destruct c as [[] [] [] [] [] [] [] []]; reflexivity.
Qed.

Lemma ascii_only_lower (s : string) :
  ascii_only (lower_str s) = ascii_only s.
Proof.
  induction s as [|c s IH]; [done|]. cbn [lower_str ascii_only].
  by rewrite lower_ascii_ascii, IH.
Qed.

Lemma lower_str_documented : lower_as_documented lower_str.
Proof. by intros s _. Qed.

Lemma fragment_documented : re_as_documented fragment_compile fragment_match.
Proof.
  intros tok items _ Hp. exists items. split; [exact Hp|].
  intros s _. unfold fragment_match.
  destruct (re_match items s); split;
    first [done | by eexists | by intros [? ?]].
Qed.

(** The patterns in which no literal is inside [(?-i:...)]. *)
Definition ignores_case (items : list (atom * quant)) : bool :=
  forallb (fun aq : atom * quant =>
             match aq.1 with Exact _ => false | _ => true end) items.

Lemma atom_ok_lower (a : atom) (c c' : ascii) :
  match a with Exact _ => false | _ => true end = true ->
  lower_ascii c = lower_ascii c' -> atom_ok a c = atom_ok a c'.
Proof.
  intros Ha H. destruct a as [x|x|]; simpl; [|done|].
  - by rewrite H.
  - rewrite <- (newline_lower c), <- (newline_lower c'). by rewrite H.
Qed.

(** Such a pattern cannot tell apart two strings that differ in the
    case of ASCII letters only. *)
Lemma re_match_lower (items : list (atom * quant)) :
  ignores_case items = true ->
  forall s s', lower_str s = lower_str s' ->
               re_match items s = re_match items s'.
Proof.
  induction items as [|[a q] rest IH]; intros Hi s s' H; [done|].
  cbn [ignores_case forallb fst] in Hi.
  apply andb_true_iff in Hi as [Ha Hi]. specialize (IH Hi).
  assert (Hstar : forall t t', lower_str t = lower_str t' ->
    (fix star (s : string) : bool :=
       re_match rest s ||
       match s with
       | String c s' => atom_ok a c && star s'
       | EmptyString => false
       end) t =
    (fix star (s : string) : bool :=
       re_match rest s ||
       match s with
       | String c s' => atom_ok a c && star s'
       | EmptyString => false
       end) t').
  { induction t as [|c t IHt]; intros [|c' t'] Ht; simpl in Ht; try discriminate.
    - done.
    - injection Ht as Hc Ht.
      rewrite (IH (String c t) (String c' t')) by (simpl; congruence).
      by rewrite (atom_ok_lower a c c' Ha Hc), (IHt t' Ht). }
  destruct q; simpl.
  - destruct s as [|c s], s' as [|c' s']; simpl in H; try discriminate; [done|].
    injection H as Hc Hs.
    by rewrite (atom_ok_lower a c c' Ha Hc), (IH s s' Hs).
  - by apply Hstar.
  - destruct s as [|c s], s' as [|c' s']; simpl in H; try discriminate; [done|].
    injection H as Hc Hs.
    by rewrite (atom_ok_lower a c c' Ha Hc), (Hstar s s' Hs).
Qed.

(** ** The filter, for any [str.lower] and any [re] *)

Section Filter.

Variable lower : string -> string.
Variables pattern match_object : Type.
Variable re_compile : string -> option pattern.
Variable pattern_match : pattern -> string -> option match_object.

Local Abbreviation ask := (matches lower re_compile pattern_match).

(** The token is a pattern: [+] or [*] is in it, once lower-cased. *)
Definition is_regex (tok : string) : bool :=
  contains "+" (lower tok) || contains "*" (lower tok).

Lemma func_lower (toklist : list string) (name name' : string) :
  lower name = lower name' ->
  func lower toklist name = func lower toklist name'.
Proof. intros H. unfold func. by rewrite H. Qed.

Lemma ask_token_case (tok tok' name : string) :
  lower tok = lower tok' -> ask tok name = ask tok' name.
Proof. intros H. unfold matches, convert_check_filter. by rewrite H. Qed.

Lemma ask_plain (tok name : string) :
  is_regex tok = false ->
  ask tok name = Some (PyBool (func lower (split "." (lower tok)) name)).
Proof.
  unfold is_regex, matches, convert_check_filter. by intros ->.
Qed.

Lemma ask_regex (tok name : string) :
  is_regex tok = true ->
  ask tok name =
  option_map (fun p => bound_match pattern_match p name)
             (re_compile (lower tok)).
Proof.
  unfold is_regex, matches, convert_check_filter. intros ->.
  by destruct (re_compile (lower tok)).
Qed.

Lemma ask_regex_not_bool (tok name : string) (a : answer match_object) :
  is_regex tok = true -> ask tok name = Some a -> forall b, a <> PyBool b.
Proof.
  intros Hre. rewrite (ask_regex _ _ Hre).
  destruct (re_compile (lower tok)) as [p|]; [|done]. cbn [option_map].
  unfold bound_match. intros [= <-] b.
  by destruct (pattern_match p name).
Qed.

Hypothesis lower_ok : lower_as_documented lower.
Hypothesis re_ok : re_as_documented re_compile pattern_match.

(** On ASCII text, with a pattern of the fragment, the truth value of
    the answer is that of the reference matcher. *)
Lemma ask_fragment (tok name : string) (items : list (atom * quant)) :
  ascii_only tok = true -> ascii_only name = true ->
  contains "+" (lower_str tok) || contains "*" (lower_str tok) = true ->
  parse_re false (lower_str tok) = Some items ->
  exists a, ask tok name = Some a /\
            truth a = re_match items name /\
            (re_match items name = true -> exists m, a = Match m) /\
            (re_match items name = false -> a = NoMatch).
Proof.
  intros Ht Hn Hre Hp.
  assert (Hl : lower tok = lower_str tok) by (by apply lower_ok).
  rewrite ask_regex by (unfold is_regex; by rewrite Hl).
  rewrite Hl.
  destruct (re_ok (lower_str tok) items) as (p & -> & Hm);
    [by rewrite ascii_only_lower|done|].
  cbn [option_map]. unfold bound_match. specialize (Hm name Hn).
  destruct (pattern_match p name) as [m|]; eexists; (split; [done|]).
  - assert (Hr : re_match items name = true) by (apply Hm; by eexists).
    rewrite Hr. split; [done|]. split; [by eexists|done].
  - destruct (re_match items name) eqn:Hr.
    + destruct (proj2 Hm eq_refl) as [? ?]. done.
    + split; [done|]. split; done.
Qed.

Lemma ask_ascii_plain (tok name : string) :
  ascii_only tok = true -> ascii_only name = true ->
  contains "+" (lower_str tok) || contains "*" (lower_str tok) = false ->
  ask tok name =
  Some (PyBool (func lower_str (split "." (lower_str tok)) name)).
Proof.
  intros Ht Hn Hre.
  assert (Hl : lower tok = lower_str tok) by (by apply lower_ok).
  rewrite ask_plain by (unfold is_regex; by rewrite Hl).
  rewrite Hl. unfold func. by rewrite (lower_ok name Hn).
Qed.


End Filter.



End CheckFilterFacts.

Module CleanupFacts.
Import Cleanup.

Definition a_b_1 : pkg := Pkg "a" "b" "1" "0" false ["amd64"].
Definition a_b_2 : pkg := Pkg "a" "b" "2" "0" false ["amd64"].

(** C7. Scenario RedundantVersion-A: versions 1 and 2 of [a/b], both
    keyworded [amd64], in slot 0 and not live, give one result, for
    version 1, overshadowed by version 2, in slot 0. *)
Theorem redundant_version_A :
  feed [a_b_1; a_b_2] =
  [ {| rv_category := "a"; rv_package := "b"; rv_version := "1";
       rv_slot := "0"; rv_later_versions := ["2"] |} ].
Proof. vm_compute. reflexivity. Qed.

End CleanupFacts.

Module UnstableOnlyFacts.
Import UnstableOnly.

Lemma filter_snoc {A} (f : A -> bool) (l : list A) (x : A) :
  List.filter f (l ++ [x]) =
  (List.filter f l ++ if f x then [x] else [])%list.
Proof. rewrite List.filter_app. simpl. by destruct (f x). Qed.

Lemma NoDup_fmap_inj_on {A B} (f : A -> B) (l : list A) (x y : A) :
  NoDup (f <$> l) -> x ∈ l -> y ∈ l -> f x = f y -> x = y.
Proof.
  induction l as [|z l IH]; [by rewrite elem_of_nil|].
  rewrite fmap_cons, NoDup_cons, !elem_of_cons.
  intros [Hz Hnd] [->|Hx] [->|Hy] Hf; [done| | |by apply IH].
  - exfalso. apply Hz. rewrite Hf. apply list_elem_of_fmap. by exists y.
  - exfalso. apply Hz. rewrite <- Hf. apply list_elem_of_fmap. by exists x.
Qed.

Lemma fmap_inj_on_sublists {A B} (f : A -> B) (l : list A) :
  NoDup (f <$> l) ->
  forall k1 k2 : list A,
    (forall x, x ∈ k1 -> x ∈ l) -> (forall x, x ∈ k2 -> x ∈ l) ->
    f <$> k1 = f <$> k2 -> k1 = k2.
Proof.
  intros Hnd. induction k1 as [|x k1 IH]; intros [|y k2] H1 H2 Heq;
    try discriminate; [done|].
  rewrite !fmap_cons in Heq. injection Heq as Hxy Hrest.
  f_equal.
  - apply (NoDup_fmap_inj_on f l); [done| | |done].
    + apply H1. by left.
    + apply H2. by left.
  - apply IH; [| |done].
    + intros z Hz. apply H1. by right.
    + intros z Hz. apply H2. by right.
Qed.

Lemma elem_of_filter_pkgset (f : pkg -> bool) (pkgset : list pkg) (x : pkg) :
  x ∈ List.filter f pkgset -> x ∈ pkgset.
Proof. intros H. apply list_elem_of_In, filter_In in H as [H _]. by apply list_elem_of_In. Qed.

Section Report.

(** The packages' [==]: an equivalence, as a dict key needs it. *)
Variable pkg_eqb : pkg -> pkg -> bool.
Hypothesis pkg_eqb_refl : forall x, pkg_eqb x x = true.
Hypothesis pkg_eqb_sym : forall x y, pkg_eqb x y = pkg_eqb y x.
Hypothesis pkg_eqb_trans :
  forall x y z, pkg_eqb x y = true -> pkg_eqb y z = true -> pkg_eqb x z = true.

Local Abbreviation same := (key_eqb pkg_eqb).

Lemma same_refl (k : list pkg) : same k k = true.
Proof. induction k as [|x k IH]; [done|]. simpl. by rewrite pkg_eqb_refl, IH. Qed.

Lemma same_sym (k1 k2 : list pkg) : same k1 k2 = same k2 k1.
Proof.
  revert k2. induction k1 as [|x k1 IH]; intros [|y k2]; try done.
  simpl. by rewrite pkg_eqb_sym, IH.
Qed.

Lemma same_trans (k1 k2 k3 : list pkg) :
  same k1 k2 = true -> same k2 k3 = true -> same k1 k3 = true.
Proof.
  revert k2 k3. induction k1 as [|x k1 IH]; intros [|y k2] [|z k3]; try done.
  simpl. rewrite !andb_true_iff. intros [H1 H2] [H3 H4].
  split; [by eapply pkg_eqb_trans|by eapply IH].
Qed.

(** Two tuples equal as keys give the same answer against a third. *)
Lemma same_congr (k1 k2 k3 : list pkg) :
  same k1 k2 = true -> same k1 k3 = same k2 k3.
Proof.
  intros H. destruct (same k2 k3) eqn:E.
  - by eapply same_trans.
  - destruct (same k1 k3) eqn:E'; [|done].
    rewrite <- E. symmetry. apply (same_trans k2 k1 k3); [|done].
    by rewrite same_sym.
Qed.

(** Where equal packages of the set are one package, tuples of the set
    that are equal as keys are one tuple. *)
Lemma same_eq (pkgset k1 k2 : list pkg) :
  (forall x y, x ∈ pkgset -> y ∈ pkgset -> pkg_eqb x y = true -> x = y) ->
  (forall x, x ∈ k1 -> x ∈ pkgset) -> (forall x, x ∈ k2 -> x ∈ pkgset) ->
  same k1 k2 = true -> k1 = k2.
Proof.
  intros Hinj. revert k2. induction k1 as [|x k1 IH]; intros [|y k2] H1 H2;
    try done.
  simpl. rewrite andb_true_iff. intros [Hxy Hk]. f_equal.
  - apply Hinj; [apply H1|apply H2|done]; by left.
  - apply IH; [| |done]; intros z Hz; [apply H1|apply H2]; by right.
Qed.

(** [shares pkgset key b]: arch [b] is stable nowhere in [pkgset], and
    the tuple of the versions keyworded [~b] is equal to [key], as a
    dict key. *)
Definition shares (pkgset key : list pkg) (b : string) : bool :=
  negb (existsb (stable_restrict b) pkgset) &&
  same key (List.filter (unstable_restrict b) pkgset).

(** [d.get(key)] on the insertion-ordered dict. *)
Fixpoint arches_for (d : list (list pkg * list string)) (key : list pkg)
  : option (list string) :=
  match d with
  | [] => None
  | (key', ks) :: rest =>
      if same key' key then Some ks else arches_for rest key
  end.

(** No two keys of the dict are equal. *)
Fixpoint keys_apart (d : list (list pkg * list string)) : Prop :=
  match d with
  | [] => True
  | (key, _) :: rest => arches_for rest key = None /\ keys_apart rest
  end.

(** The expected content of the dict once the arches [seen] are done. *)
Definition expected (pkgset : list pkg) (seen : list string) (key : list pkg)
  : option (list string) :=
  match key with
  | [] => None
  | _ => match List.filter (shares pkgset key) seen with
         | [] => None
         | ks => Some ks
         end
  end.

Lemma shares_congr (pkgset k1 k2 : list pkg) (b : string) :
  same k1 k2 = true -> shares pkgset k1 b = shares pkgset k2 b.
Proof. intros H. unfold shares. by rewrite (same_congr k1 k2 _ H). Qed.

Lemma expected_congr (pkgset : list pkg) (seen : list string)
      (k1 k2 : list pkg) :
  same k1 k2 = true -> expected pkgset seen k1 = expected pkgset seen k2.
Proof.
  intros H. unfold expected.
  rewrite (filter_ext (shares pkgset k1) (shares pkgset k2))
    by (intros b; by apply shares_congr).
  destruct k1, k2; done.
Qed.

Lemma arches_for_congr d (k1 k2 : list pkg) :
  same k1 k2 = true -> arches_for d k1 = arches_for d k2.
Proof.
  intros H. induction d as [|[key0 ks0] rest IH]; [done|]. simpl.
  rewrite (same_sym key0 k1), (same_sym key0 k2), (same_congr k1 k2 _ H).
  by rewrite IH.
Qed.

Lemma arches_for_append key k d key' :
  arches_for (append_arch pkg_eqb key k d) key' =
  if same key key'
  then Some (default [] (arches_for d key) ++ [k])%list
  else arches_for d key'.
Proof.
  induction d as [|[key0 ks0] rest IH]; simpl.
  - by destruct (same key key').
  - destruct (same key0 key) eqn:Hk; simpl.
    + rewrite (same_congr key0 key key' Hk). by destruct (same key key').
    + rewrite IH. destruct (same key0 key') eqn:Hk'; [|done].
      destruct (same key key') eqn:Hkk; [|done].
      exfalso. rewrite (same_trans key0 key' key) in Hk; [done|done|].
      by rewrite same_sym.
Qed.

Lemma arches_for_None d key :
  arches_for d key = None <->
  forall key' ks, (key', ks) ∈ d -> same key' key = false.
Proof.
  induction d as [|[key0 ks0] rest IH]; simpl.
  - split; [|done]. intros _ key' ks H. by apply elem_of_nil in H.
  - destruct (same key0 key) eqn:Hk.
    + split; [done|]. intros H. rewrite (H key0 ks0) in Hk; [done|by left].
    + rewrite IH. split.
      * intros H key' ks Hin. apply elem_of_cons in Hin as [[= -> ->]|Hin];
          [done|by eapply H].
      * intros H key' ks Hin. apply (H key' ks). by right.
Qed.

Lemma arches_for_entry d key ks :
  keys_apart d -> (key, ks) ∈ d -> arches_for d key = Some ks.
Proof.
  induction d as [|[key0 ks0] rest IH]; simpl; intros Hap Hin.
  - by apply elem_of_nil in Hin.
  - destruct Hap as [Hnone Hap].
    apply elem_of_cons in Hin as [[= -> ->]|Hin]; [by rewrite same_refl|].
    rewrite same_sym.
    rewrite (proj1 (arches_for_None rest key0) Hnone key ks Hin).
    by apply IH.
Qed.

Lemma keys_apart_lookup d i j k1 ks1 k2 ks2 :
  keys_apart d -> d !! i = Some (k1, ks1) -> d !! j = Some (k2, ks2) ->
  same k1 k2 = true -> i = j.
Proof.
  revert i j. induction d as [|[key0 ks0] rest IH]; intros i j Hap Hi Hj Hs;
    [done|].
  destruct Hap as [Hnone Hap].
  pose proof (proj1 (arches_for_None rest key0) Hnone) as Hno.
  destruct i as [|i], j as [|j]; simpl in Hi, Hj.
  - done.
  - injection Hi as -> ->. apply list_elem_of_lookup_2 in Hj.
    rewrite same_sym in Hs. by rewrite (Hno _ _ Hj) in Hs.
  - injection Hj as -> ->. apply list_elem_of_lookup_2 in Hi.
    by rewrite (Hno _ _ Hi) in Hs.
  - f_equal. by eapply IH.
Qed.

Lemma keys_apart_NoDup d : keys_apart d -> NoDup d.*1.
Proof.
  induction d as [|[key0 ks0] rest IH]; simpl; [constructor|].
  intros [Hnone Hap]. apply NoDup_cons. split; [|by apply IH].
  intros Hin. apply list_elem_of_fmap in Hin as ([k ks] & Heq & Hin).
  simpl in Heq. subst key0.
  pose proof (proj1 (arches_for_None rest k) Hnone k ks Hin) as Hf.
  by rewrite same_refl in Hf.
Qed.

Lemma append_arch_apart key k d :
  keys_apart d -> keys_apart (append_arch pkg_eqb key k d).
Proof.
  induction d as [|[key0 ks0] rest IH]; simpl; intros Hap; [done|].
  destruct Hap as [Hnone Hap].
  destruct (same key0 key) eqn:Hk; simpl; [done|].
  split; [|by apply IH]. rewrite arches_for_append.
  by rewrite same_sym, Hk.
Qed.

Lemma elem_of_append_arch key k d key' ks' :
  (key', ks') ∈ append_arch pkg_eqb key k d ->
  (key', ks') = (key, [k]) \/
  exists ks, (key', ks) ∈ d /\ (ks' = ks \/ ks' = (ks ++ [k])%list).
Proof.
  induction d as [|[key0 ks0] rest IH]; simpl.
  - intros H. apply list_elem_of_singleton in H. by left.
  - destruct (same key0 key).
    + intros H. apply elem_of_cons in H as [[= -> ->]|H]; right.
      * exists ks0. split; [by left|by right].
      * exists ks'. split; [by right|by left].
    + intros H. apply elem_of_cons in H as [[= -> ->]|H].
      * right. exists ks0. split; [by left|by left].
      * destruct (IH H) as [?|(ks & Hin & Hks)]; [by left|].
        right. exists ks. split; [by right|done].
Qed.

Lemma expected_snoc (pkgset : list pkg) (seen : list string) (k : string)
      (key : list pkg) :
  expected pkgset (seen ++ [k]) key =
  match key with
  | [] => None
  | _ => if shares pkgset key k
         then Some (default [] (expected pkgset seen key) ++ [k])%list
         else expected pkgset seen key
  end.
Proof.
  unfold expected. destruct key as [|q key]; [done|].
  rewrite filter_snoc.
  destruct (shares pkgset (q :: key) k).
  - by destruct (List.filter (shares pkgset (q :: key)) seen).
  - by rewrite app_nil_r.
Qed.

(** The loop invariant of [feed]: after the arches [seen], no two keys
    of the dict are equal; the dict holds, per non-empty tuple, the
    arches of [seen] that share it; and every key is the tuple of the
    arch listed first under it. *)
Lemma unstable_arches_inv (pkgset : list pkg) (arch_restricts : list string) :
  let d := unstable_arches pkg_eqb arch_restricts pkgset in
  keys_apart d /\
  (forall key, arches_for d key = expected pkgset arch_restricts key) /\
  (forall key ks, (key, ks) ∈ d ->
     exists b, head ks = Some b /\
               key = List.filter (unstable_restrict b) pkgset).
Proof.
  unfold unstable_arches.
  induction arch_restricts as [|k seen IH] using rev_ind; simpl.
  - split; [done|]. split; [intros [|? ?]; done|].
    intros key ks H. by apply elem_of_nil in H.
  - rewrite fold_left_app. simpl.
    destruct IH as (Hap & Hget & Horigin).
    set (d := fold_left (visit_arch pkg_eqb pkgset) seen []) in *.
    unfold visit_arch.
    destruct (existsb (stable_restrict k) pkgset) eqn:Hst.
    { split; [done|]. split; [|done]. intros key. rewrite expected_snoc, Hget.
      destruct key as [|p key]; [done|].
      unfold shares. by rewrite Hst. }
    destruct (List.filter (unstable_restrict k) pkgset) as [|p u] eqn:Hu.
    { split; [done|]. split; [|done]. intros key. rewrite expected_snoc, Hget.
      destruct key as [|p key]; [done|].
      unfold shares. rewrite Hst, Hu. done. }
    split; [by apply append_arch_apart|]. split.
    + intros key. rewrite arches_for_append, expected_snoc, !Hget.
      destruct key as [|q key]; [done|].
      unfold shares at 1. rewrite Hst, Hu. cbn [negb andb].
      rewrite (same_sym (q :: key)).
      destruct (same (p :: u) (q :: key)) eqn:Hs; [|done].
      by rewrite (expected_congr _ _ _ _ Hs).
    + intros key ks Hin.
      apply elem_of_append_arch in Hin as [[= -> ->]|(ks0 & Hin & Hks)].
      * exists k. by rewrite Hu.
      * destruct (Horigin _ _ Hin) as (b & Hb & Hkey).
        exists b. split; [|done]. destruct Hks as [->| ->]; [done|].
        by destruct ks0.
Qed.

Lemma expected_Some (pkgset : list pkg) (seen : list string) key ks :
  expected pkgset seen key = Some ks ->
  key <> [] /\ ks <> [] /\ ks = List.filter (shares pkgset key) seen.
Proof.
  unfold expected. destruct key as [|q key]; [done|].
  destruct (List.filter (shares pkgset (q :: key)) seen) eqn:E; [done|].
  intros [= <-]. done.
Qed.

Lemma shares_true (pkgset key : list pkg) (b : string) :
  shares pkgset key b = true <->
  existsb (stable_restrict b) pkgset = false /\
  same key (List.filter (unstable_restrict b) pkgset) = true.
Proof. unfold shares. by rewrite andb_true_iff, negb_true_iff. Qed.


End Report.

(** ** pkgcore's equality *)

Lemma cpv_eqb_refl (x : pkg) : Reference.cpv_eqb x x = true.
Proof. unfold Reference.cpv_eqb. by rewrite !String.eqb_refl. Qed.

Lemma cpv_eqb_sym (x y : pkg) : Reference.cpv_eqb x y = Reference.cpv_eqb y x.
Proof.
  unfold Reference.cpv_eqb.
  by rewrite (String.eqb_sym (category x)), (String.eqb_sym (package x)),
    (String.eqb_sym (Reference.without_r0 (fullver x))).
Qed.

Lemma cpv_eqb_trans (x y z : pkg) :
  Reference.cpv_eqb x y = true -> Reference.cpv_eqb y z = true ->
  Reference.cpv_eqb x z = true.
Proof.
  unfold Reference.cpv_eqb. rewrite !andb_true_iff, !String.eqb_eq.
  intros [[-> ->] ->] [[-> ->] ->]. done.
Qed.

(** Scenario UnstableOnly-A. *)
Definition unstable_1 : pkg := Pkg "a" "b" "1" "0" false ["~amd64"; "~x86"].
Definition unstable_2 : pkg := Pkg "a" "b" "2" "0" false ["~amd64"; "~x86"].


(** C8 as stated fails.  Two packages that pkgcore takes for equal,
    [a/b-1] and [a/b-1-r0]: the versions keyworded [~amd64] are [("1",)]
    and those keyworded [~x86] are [("1-r0",)], two tuples, but one
    result is reported, which lists [x86] with the versions [("1",)]. *)
Definition b_1 : pkg := Pkg "a" "b" "1" "0" false ["~amd64"].
Definition b_1_r0 : pkg := Pkg "a" "b" "1-r0" "0" false ["~x86"].


End UnstableOnlyFacts.

Module RunnerFacts.
Import Runner.

Section Facts.

Context {item result pkgid error : Type}.
Context `{EqDecision pkgid, EqDecision error}.

Abbreviation check := (check item result pkgid error).
Abbreviation runner := (runner item result pkgid error).
Abbreviation world := (world result pkgid error).
Abbreviation event := (event result pkgid error).
Abbreviation MetadataException := (MetadataException pkgid error).

(** Induction over a tree of runners. *)
Section tree_ind.
Variables (P : check -> Prop) (Q : runner -> Prop).
Hypothesis HS : forall s, P (Sink s).
Hypothesis HT : forall cv r, Q r -> P (Transform cv r).
Hypothesis HR : forall self cs, Forall P cs -> Q (CheckRunner self cs).

Fixpoint check_tree_ind (c : check) : P c :=
  match c with
  | Sink s => HS s
  | Transform cv r => HT cv r (runner_tree_ind r)
  end
with runner_tree_ind (r : runner) : Q r :=
  match r with
  | CheckRunner self cs =>
      HR self cs
         ((fix go (l : list check) : Forall P l :=
             match l with
             | [] => @List.Forall_nil _ P
             | c :: l' => @List.Forall_cons _ P c l' (check_tree_ind c) (go l')
             end) cs)
  end.

End tree_ind.

(** The pair a report of runner [self] stands for. *)
Definition own_info (self : nat) (ev : event) : option (pkgid * error) :=
  match ev with
  | AddReport _ => None
  | AddMetadataError r e =>
      if decide (r = self) then Some (e_pkg e, e_error e) else None
  end.

(** [quiet self f]: [f] leaves the set of runner [self] alone and only
    appends reports that are not [self]'s. *)
Definition quiet (self : nat) (f : world -> world) : Prop :=
  forall w, metadata_errors (f w) self = metadata_errors w self /\
            exists ext, log (f w) = (log w ++ ext)%list /\
                        omap (own_info self) ext = [].

Lemma quiet_id self : quiet self (fun w => w).
Proof. intros w. split; [done|]. exists []. by rewrite app_nil_r. Qed.

Lemma quiet_compose self f g :
  quiet self f -> quiet self g -> quiet self (fun w => g (f w)).
Proof.
  intros Hf Hg w. destruct (Hf w) as (Hf1 & e1 & Hf2 & Hf3).
  destruct (Hg (f w)) as (Hg1 & e2 & Hg2 & Hg3).
  split; [congruence|]. exists (e1 ++ e2)%list.
  rewrite Hg2, Hf2, <- app_assoc. split; [done|].
  by rewrite omap_app, Hf3, Hg3.
Qed.

Lemma quiet_fold {A} self (f : world -> A -> world) (l : list A) :
  (forall a, quiet self (fun w => f w a)) ->
  quiet self (fun w => fold_left f l w).
Proof.
  intros Hf. induction l as [|a l IH]; simpl; [apply quiet_id|].
  apply (quiet_compose self (fun w => f w a) (fun w => fold_left f l w));
    [apply Hf | apply IH].
Qed.

Lemma quiet_add_reports self (rs : list result) :
  quiet self (add_reports rs).
Proof.
  intros w. split; [done|]. exists (List.map AddReport rs). split; [done|].
  induction rs as [|r rs IH]; [done|]. simpl. exact IH.
Qed.

Lemma quiet_except self other (e : MetadataException) :
  other <> self -> quiet self (except_metadata other e).
Proof.
  intros Hne w. unfold except_metadata.
  destruct (bool_decide _); [apply quiet_id|]. simpl. split.
  - rewrite decide_False; [done|congruence].
  - eexists. split; [done|]. simpl. rewrite decide_False; [done|congruence].
Qed.

Lemma quiet_guarded self other
      (call : world -> world * option MetadataException) :
  other <> self -> quiet self (fun w => (call w).1) ->
  quiet self (guarded other call).
Proof.
  intros Hne Hq w. unfold guarded.
  destruct (Hq w) as (H1 & ext & H2 & H3).
  destruct (call w) as [w' [e|]]; simpl in *.
  - destruct (quiet_except self other e Hne w') as (G1 & ext2 & G2 & G3).
    split; [congruence|]. exists (ext ++ ext2)%list.
    rewrite G2, H2, <- app_assoc. split; [done|].
    by rewrite omap_app, H3, G3.
  - split; [done|]. by exists ext.
Qed.

(** Runners other than [self] are quiet for [self]. *)
Lemma quiet_start_check self (c : check) :
  self ∉ check_ids c -> quiet self (fun w => (start_check c w).1).
Proof.
  revert c.
  apply (check_tree_ind
           (fun c => self ∉ check_ids c ->
                     quiet self (fun w => (start_check c w).1))
           (fun r => self ∉ runner_ids r -> quiet self (start_runner r))).
  - intros s _. simpl. apply quiet_add_reports.
  - intros cv r IH Hid. simpl. by apply IH.
  - intros other cs IH Hid. simpl in *.
    apply not_elem_of_cons in Hid as [Hne Hid].
    induction IH as [|c cs Hc _ IHcs]; simpl; [apply quiet_id|].
    simpl in Hid. apply not_elem_of_app in Hid as [Hid1 Hid2].
    apply (quiet_compose self (guarded other (start_check c))
             (fun w => fold_left
                         (fun w c => guarded other (start_check c) w) cs w)).
    + apply quiet_guarded; [done | by apply Hc].
    + by apply IHcs.
Qed.

Lemma quiet_feed_check self (c : check) (i : item) :
  self ∉ check_ids c -> quiet self (fun w => (feed_check c i w).1).
Proof.
  revert c i.
  apply (check_tree_ind
           (fun c => forall i, self ∉ check_ids c ->
                     quiet self (fun w => (feed_check c i w).1))
           (fun r => forall i, self ∉ runner_ids r ->
                     quiet self (feed_runner r i))).
  - intros s i _. simpl. apply quiet_add_reports.
  - intros cv r IH i Hid. simpl.
    apply (quiet_fold self (fun w o => feed_runner r o w)).
    intros o. by apply IH.
  - intros other cs IH i Hid. simpl in *.
    apply not_elem_of_cons in Hid as [Hne Hid].
    induction IH as [|c cs Hc _ IHcs]; simpl; [apply quiet_id|].
    simpl in Hid. apply not_elem_of_app in Hid as [Hid1 Hid2].
    apply (quiet_compose self (guarded other (feed_check c i))
             (fun w => fold_left
                         (fun w c => guarded other (feed_check c i) w) cs w)).
    + apply quiet_guarded; [done | by apply Hc].
    + by apply IHcs.
Qed.

(** The pair an exception is filed under. *)
Definition exc_info (e : MetadataException) : pkgid * error :=
  (e_pkg e, e_error e).

(** The invariant of runner [self]: its reports so far stand for the
    pairs of its set, one report per pair. *)
Definition tidy (self : nat) (w : world) : Prop :=
  omap (own_info self) (log w) = metadata_errors w self /\
  NoDup (metadata_errors w self).

Lemma prefix_elem {A} (l1 l2 : list A) (x : A) :
  l1 `prefix_of` l2 -> x ∈ l1 -> x ∈ l2.
Proof. intros [k ->] Hx. apply elem_of_app. by left. Qed.

Lemma quiet_prefix self f (w : world) :
  quiet self f -> log w `prefix_of` log (f w).
Proof. intros Hq. destruct (Hq w) as (_ & ext & -> & _). by exists ext. Qed.

Lemma except_metadata_tidy self (e : MetadataException) (w : world) :
  tidy self w ->
  tidy self (except_metadata self e w) /\
  (forall info, info ∈ metadata_errors (except_metadata self e w) self <->
                info ∈ metadata_errors w self \/ exc_info e = info) /\
  log w `prefix_of` log (except_metadata self e w).
Proof.
  intros [Hlog Hnd]. unfold except_metadata.
  destruct (bool_decide ((e_pkg e, e_error e) ∈ metadata_errors w self)) eqn:Hin.
  - apply bool_decide_eq_true in Hin. split; [done|]. split; [|done].
    intros info. unfold exc_info. split; [by left|].
    intros [?|<-]; done.
  - apply bool_decide_eq_false in Hin. unfold tidy.
    cbn [log metadata_errors]. rewrite decide_True by done.
    split; [split|split].
    + rewrite omap_app, Hlog. cbn [omap list_omap own_info].
      by rewrite decide_True.
    + apply NoDup_app. split; [done|]. split; [|apply NoDup_singleton].
      intros x Hx Hx'. apply list_elem_of_singleton in Hx'. by subst.
    + intros info. rewrite elem_of_app, list_elem_of_singleton.
      unfold exc_info. split; intros [?|?]; auto.
    + by eexists.
Qed.

Lemma guarded_tidy self (call : world -> world * option MetadataException)
      (w : world) :
  quiet self (fun w => (call w).1) -> tidy self w ->
  tidy self (guarded self call w) /\
  (forall info, info ∈ metadata_errors (guarded self call w) self <->
                info ∈ metadata_errors w self \/
                exists e, (call w).2 = Some e /\ exc_info e = info) /\
  log (call w).1 `prefix_of` log (guarded self call w).
Proof.
  intros Hq [Hlog Hnd]. unfold guarded.
  destruct (Hq w) as (Hset & ext & Hext & Hown).
  assert (Ht : tidy self (call w).1).
  { split; [|by rewrite Hset]. by rewrite Hext, omap_app, Hown, app_nil_r, Hset. }
  destruct (call w) as [w' [e|]]; simpl in *.
  - destruct (except_metadata_tidy self e w' Ht) as (T1 & T2 & T3).
    split; [done|]. split; [|done].
    intros info. rewrite T2, Hset. split.
    + intros [?|?]; [by left | right; by exists e].
    + intros [?|(e' & [= <-] & ?)]; [by left | by right].
  - split; [done|]. split; [|done].
    intros info. rewrite Hset. split; [by left|].
    intros [?|(e' & ? & ?)]; done.
Qed.

(** One pass of a runner over its children, for [start] or for [feed]
    of one item. *)
Lemma pass_tidy self (F : check -> world -> world * option MetadataException)
      (R : check -> option MetadataException) (E : check -> list event)
      (checks : list check) :
  (forall c, c ∈ checks ->
     quiet self (fun w => (F c w).1) /\
     forall w, (F c w).2 = R c /\
               exists k, log (F c w).1 = (log w ++ E c ++ k)%list) ->
  forall w, tidy self w ->
    let w' := fold_left (fun w c => guarded self (F c) w) checks w in
    tidy self w' /\
    (forall info, info ∈ metadata_errors w' self <->
                  info ∈ metadata_errors w self \/
                  exists e, e ∈ omap R checks /\ exc_info e = info) /\
    log w `prefix_of` log w' /\
    forall c ev, c ∈ checks -> ev ∈ E c -> ev ∈ log w'.
Proof.
  induction checks as [|c cs IH]; intros Hall w Ht; simpl.
  - split; [done|]. split; [|split; [done|]].
    + intros info. split; [by left|]. intros [?|(e & He & _)]; [done|].
      by apply elem_of_nil in He.
    + intros c ev Hc. by apply elem_of_nil in Hc.
  - destruct (Hall c) as [Hq Hc]; [by left|].
    destruct (guarded_tidy self (F c) w Hq Ht) as (T1 & T2 & T3).
    destruct (IH (fun c' Hc' => Hall c' (list_elem_of_further _ _ _ Hc'))
                 (guarded self (F c) w) T1) as (I1 & I2 & I3 & I4).
    destruct (Hc w) as (HR & k & Hk).
    split; [done|]. split; [|split].
    + intros info. rewrite I2, T2, HR. split.
      * intros [[?|(e & He & ?)]|(e & He & ?)].
        -- by left.
        -- right. exists e. rewrite He. split; [by left|done].
        -- right. exists e. split; [|done].
           destruct (R c); [by right|done].
      * intros [?|(e & He & ?)]; [by left; left|].
        destruct (R c) as [e0|] eqn:ER.
        -- apply elem_of_cons in He as [->|He]; [left; right; by exists e0|].
           right. by exists e.
        -- right. by exists e.
    + etrans; [|exact I3]. etrans; [|exact T3]. rewrite Hk. by eexists.
    + intros c' ev Hc' Hev. apply elem_of_cons in Hc' as [->|Hc'].
      * eapply prefix_elem; [exact I3|]. eapply prefix_elem; [exact T3|].
        rewrite Hk, !elem_of_app. auto.
      * by eapply I4.
Qed.

(** The reports a direct child is sure to make in one call. *)
Definition start_reports (c : check) : list event :=
  match c with
  | Sink s => List.map AddReport (reported (s_start s))
  | Transform _ _ => []
  end.

Definition feed_reports (i : item) (c : check) : list event :=
  match c with
  | Sink s => List.map AddReport (reported (s_feed s i))
  | Transform _ _ => []
  end.

Lemma start_child self (c : check) :
  self ∉ check_ids c ->
  quiet self (fun w => (start_check c w).1) /\
  forall w, (start_check c w).2 = raised_on_start c /\
            exists k, log (start_check c w).1 = (log w ++ start_reports c ++ k)%list.
Proof.
  intros Hid. split; [by apply quiet_start_check|]. intros w.
  destruct c as [s|cv r].
  - simpl. split; [done|]. exists []. by rewrite app_nil_r.
  - split; [done|].
    destruct (quiet_prefix self _ w (quiet_start_check self (Transform cv r) Hid))
      as [k Hk].
    by exists k.
Qed.

Lemma feed_child self (c : check) (i : item) :
  self ∉ check_ids c ->
  quiet self (fun w => (feed_check c i w).1) /\
  forall w, (feed_check c i w).2 = raised_on_feed i c /\
            exists k, log (feed_check c i w).1 = (log w ++ feed_reports i c ++ k)%list.
Proof.
  intros Hid. split; [by apply quiet_feed_check|]. intros w.
  destruct c as [s|cv r].
  - simpl. split; [done|]. exists []. by rewrite app_nil_r.
  - split; [done|].
    destruct (quiet_prefix self _ w (quiet_feed_check self (Transform cv r) i Hid))
      as [k Hk].
    by exists k.
Qed.

Lemma not_in_children self (checks : list check) (c : check) :
  self ∉ flat_map check_ids checks -> c ∈ checks -> self ∉ check_ids c.
Proof.
  intros Hid Hc Hin. apply Hid. apply list_elem_of_In, in_flat_map.
  exists c. split; by apply list_elem_of_In.
Qed.

(** The feeding part of a run. *)
Lemma feeds_tidy self (checks : list check) (items : list item) :
  self ∉ flat_map check_ids checks ->
  forall w, tidy self w ->
    let w' := fold_left (fun w i => feed_runner (CheckRunner self checks) i w)
                        items w in
    tidy self w' /\
    (forall info, info ∈ metadata_errors w' self <->
                  info ∈ metadata_errors w self \/
                  exists e, e ∈ flat_map (fun i => omap (raised_on_feed i) checks)
                                         items /\ exc_info e = info) /\
    log w `prefix_of` log w' /\
    forall i c ev, i ∈ items -> c ∈ checks -> ev ∈ feed_reports i c ->
                   ev ∈ log w'.
Proof.
  intros Hid. induction items as [|i items IH]; intros w Ht; simpl.
  - split; [done|]. split; [|split; [done|]].
    + intros info. split; [by left|]. intros [?|(e & He & _)]; [done|].
      by apply elem_of_nil in He.
    + intros i c ev Hi. by apply elem_of_nil in Hi.
  - destruct (pass_tidy self (fun c => feed_check c i) (raised_on_feed i)
                (feed_reports i) checks
                (fun c Hc => feed_child self c i (not_in_children _ _ _ Hid Hc))
                w Ht) as (P1 & P2 & P3 & P4).
    destruct (IH _ P1) as (I1 & I2 & I3 & I4).
    split; [done|]. split; [|split].
    + intros info. rewrite I2, P2. setoid_rewrite elem_of_app. naive_solver.
    + by etrans.
    + intros i' c ev Hi Hc Hev. apply elem_of_cons in Hi as [->|Hi].
      * eapply prefix_elem; [exact I3|]. by eapply P4.
      * by eapply I4.
Qed.

Lemma count_own self info (l : list event) :
  metadata_errors_reported_by self info l =
  length (List.filter (fun x => bool_decide (x = info)) (omap (own_info self) l)).
Proof.
  unfold metadata_errors_reported_by.
  induction l as [|[r|by_r e] l IH]; [done|exact IH|].
  cbn [List.filter omap list_omap own_info is_from is_metadata_error_for].
  destruct (decide (by_r = self)) as [->|Hne].
  - rewrite bool_decide_eq_true_2 by done. cbn [andb List.filter].
    destruct (bool_decide ((e_pkg e, e_error e) = info)); simpl; by rewrite IH.
  - rewrite bool_decide_eq_false_2 by done. exact IH.
Qed.

Lemma count_NoDup {A} `{EqDecision A} (x : A) (l : list A) :
  NoDup l ->
  length (List.filter (fun y => bool_decide (y = x)) l) =
  if bool_decide (x ∈ l) then 1 else 0.
Proof.
  induction 1 as [|y l Hy Hnd IH]; [done|]. simpl.
  destruct (decide (y = x)) as [->|Hne].
  - rewrite bool_decide_eq_true_2 by done. simpl. rewrite IH.
    rewrite (bool_decide_eq_false_2 (x ∈ l)) by done.
    by rewrite bool_decide_eq_true_2 by (by left).
  - rewrite bool_decide_eq_false_2 by done. rewrite IH.
    rewrite (bool_decide_ext (x ∈ y :: l) (x ∈ l)); [done|].
    rewrite elem_of_cons. naive_solver.
Qed.

(** C5, as the code has it.  One [CheckRunner] instance, started with an
    empty set and run over any items, whatever its children are (checks,
    or transforms around other runner instances): for every pair
    (package, error) it reports exactly one [MetadataError] if a child
    raised that pair during [start] or [feed], however often, and none
    otherwise; and every child is called on every item, so all the
    results the checks hand over reach the reporter. *)
Theorem metadata_error_once_per_runner
        (self : nat) (checks : list check) (items : list item)
        (w : world) (info : pkgid * error) :
  self ∉ flat_map check_ids checks ->
  metadata_errors w self = [] -> log w = [] ->
  let w' := run (CheckRunner self checks) items w in
  metadata_errors_reported_by self info (log w') =
    (if bool_decide (info ∈ List.map exc_info (raised_in_run checks items))
     then 1 else 0) /\
  (forall s, Sink s ∈ checks ->
     (forall x, x ∈ reported (s_start s) -> AddReport x ∈ log w') /\
     (forall i x, i ∈ items -> x ∈ reported (s_feed s i) ->
                  AddReport x ∈ log w')).
Proof.
  intros Hid Hset Hlog.
  assert (Ht : tidy self w).
  { split; rewrite Hset; [by rewrite Hlog | constructor]. }
  destruct (pass_tidy self start_check raised_on_start start_reports checks
              (fun c Hc => start_child self c (not_in_children _ _ _ Hid Hc))
              w Ht) as (P1 & P2 & P3 & P4).
  destruct (feeds_tidy self checks items Hid _ P1) as (F1 & F2 & F3 & F4).
  set (w1 := fold_left (fun w c => guarded self (start_check c) w) checks w) in *.
  set (w2 := fold_left (fun w i => feed_runner (CheckRunner self checks) i w)
                       items w1) in *.
  change (run (CheckRunner self checks) items w) with w2. cbv zeta. split.
  - rewrite count_own. destruct F1 as [-> Hnd]. rewrite (count_NoDup _ _ Hnd).
    match goal with
    | |- (if bool_decide ?P then _ else _) = (if bool_decide ?Q then _ else _) =>
        rewrite (bool_decide_ext P Q); [done|]
    end. rewrite F2, P2, Hset. unfold raised_in_run.
    rewrite list_elem_of_fmap. setoid_rewrite elem_of_app.
    rewrite elem_of_nil. naive_solver.
  - intros s Hs. split.
    + intros x Hx. eapply prefix_elem; [exact F3|].
      apply (P4 (Sink s)); [done|]. simpl. apply list_elem_of_fmap. by exists x.
    + intros i x Hi Hx. apply (F4 i (Sink s)); [done|done|].
      simpl. apply list_elem_of_fmap. by exists x.
Qed.

End Facts.

(** ** A concrete pipeline

    Two checks whose [start] raises the same [MetadataException]: [A] is
    a child of the outer runner, [B] sits below a transform, in the
    transform's own runner. *)
Definition bad_depend : MetadataException string string :=
  {| e_pkg := "a/b-1"; e_error := "bad atom"; e_attr := "depend" |}.

Definition raising (reports : list string) : template nat string string string :=
  {| s_start := {| reported := reports; raised := Some bad_depend |};
     s_feed := fun _ => {| reported := reports; raised := None |} |}.

Definition always_raising (reports : list string)
  : template nat string string string :=
  {| s_start := {| reported := reports; raised := Some bad_depend |};
     s_feed := fun _ => {| reported := reports; raised := Some bad_depend |} |}.

Definition fresh : world string string string :=
  {| metadata_errors := fun _ => []; log := [] |}.

Definition nested_pipeline : runner nat string string string :=
  CheckRunner 0
    [ Transform (fun i => [i]) (CheckRunner 1 [Sink (raising ["B"])]);
      Sink (raising ["A"]) ].

(** C5 as stated fails: in one run of [nested_pipeline] the reporter gets
    two [MetadataError] results for the one pair, one from each runner
    instance. *)
Lemma metadata_error_twice_in_one_run :
  metadata_errors_reported ("a/b-1", "bad atom")
    (log (run nested_pipeline [1; 2] fresh)) = 2 /\
  metadata_errors_reported ("a/b-1", "bad atom")
    (log (run nested_pipeline [1; 2] fresh)) <> 1.
Proof. split; vm_compute; [reflexivity | discriminate]. Qed.

Lemma metadata_error_once_per_runner_witness :
  metadata_errors_reported_by 0 ("a/b-1", "bad atom")
    (log (run (CheckRunner 0 [Sink (always_raising ["A"]);
                              Sink (always_raising ["B"])])
              [1; 2] fresh)) = 1.
Proof.
  destruct (metadata_error_once_per_runner 0
              [Sink (always_raising ["A"]); Sink (always_raising ["B"])]
              [1; 2] fresh ("a/b-1", "bad atom")) as [Hcount _].
  - simpl. apply not_elem_of_nil.
  - reflexivity.
  - reflexivity.
  - rewrite Hcount. vm_compute. reflexivity.
Defined.

End RunnerFacts.

Module PlugFacts.
Import Plug.
Local Open Scope list_scope.

(** ** Taking checks out of [good_sinks] *)

Definition wanted (source_scope : nat) (feed_type : string) (s : sink) : bool :=
  bool_decide (sink_feed_type s = feed_type) &&
  (sink_scope s <=? source_scope)%nat.

(** The backwards loop with [del] takes the matching checks last to
    first, and leaves the others in place. *)
Lemma take_sinks_fold (source_scope : nat) (feed_type : string)
      (l tail taken : list sink) :
  fold_left
    (fun (acc : list sink * list sink) i =>
       match acc.2 !! i with
       | None => acc
       | Some s =>
           if bool_decide (sink_feed_type s = feed_type) &&
              (sink_scope s <=? source_scope)%nat
           then ((acc.1 ++ [s])%list, delete i acc.2)
           else acc
       end)
    (rev (seq 0 (length l))) (taken, (l ++ tail)%list) =
  ((taken ++ rev (List.filter (wanted source_scope feed_type) l))%list,
   (List.filter (fun s => negb (wanted source_scope feed_type s)) l ++ tail)%list).
Proof.
  revert tail taken. induction l as [|x l IH] using rev_ind; intros tail taken.
  - simpl. by rewrite app_nil_r.
  - rewrite length_app, Nat.add_comm. cbn [length Nat.add].
    rewrite seq_S, rev_app_distr. cbn [rev app fold_left Nat.add snd fst].
    rewrite <- app_assoc.
    cbn [app].
    rewrite (list_lookup_middle l tail x (length l) eq_refl).
    rewrite !List.filter_app. cbn [List.filter]. fold (wanted source_scope feed_type x).
    destruct (wanted source_scope feed_type x) eqn:Hx; cbn [negb].
    + replace (delete (length l) (l ++ x :: tail)) with (l ++ tail)%list.
      * rewrite IH. rewrite rev_app_distr, app_nil_r. cbn [rev app].
        by rewrite <- app_assoc.
      * clear. induction l as [|y l IHl]; [done|]. simpl. by f_equal.
    + rewrite IH. rewrite !app_nil_r. by rewrite <- app_assoc.
Qed.

Lemma take_sinks_spec (source_scope : nat) (feed_type : string)
      (good_sinks : list sink) :
  take_sinks source_scope feed_type good_sinks =
  (rev (List.filter (wanted source_scope feed_type) good_sinks),
   List.filter (fun s => negb (wanted source_scope feed_type s)) good_sinks).
Proof.
  unfold take_sinks.
  pose proof (take_sinks_fold source_scope feed_type good_sinks [] []) as H.
  rewrite !app_nil_r in H. exact H.
Qed.

Lemma filter_split_perm {A} (f : A -> bool) (l : list A) :
  (List.filter f l ++ List.filter (fun x => negb (f x)) l)%list ≡ₚ l.
Proof.
  induction l as [|x l IH]; [done|]. simpl. destruct (f x); simpl.
  - by rewrite IH.
  - rewrite <- Permutation_middle. by rewrite IH.
Qed.

Lemma take_sinks_perm (source_scope : nat) (feed_type : string)
      (good_sinks : list sink) :
  ((take_sinks source_scope feed_type good_sinks).1 ++
   (take_sinks source_scope feed_type good_sinks).2)%list ≡ₚ good_sinks.
Proof.
  rewrite take_sinks_spec. simpl.
  rewrite <- (filter_split_perm (wanted source_scope feed_type) good_sinks) at 3.
  apply Permutation_app_tail. symmetry. apply Permutation_rev.
Qed.

(** ** The trees hold the checks of [good_sinks], each once *)

Lemma feed_order_plain (l : list sink) :
  flat_map child_feed_order (List.map Plain l) = l.
Proof. induction l as [|x l IH]; [done|]. simpl. by rewrite IH. Qed.

Lemma fold_left_None {A B} (f : option A -> B -> option A) (l : list B) :
  (forall b, f None b = None) -> fold_left f l None = None.
Proof. intros Hf. induction l as [|b l IH]; [done|]. simpl. by rewrite Hf. Qed.

Lemma build_transform_perm (o : hash_order) (fuel : nat) :
  forall source_scope scope feed_type trans pool r pool',
    build_transform o fuel source_scope scope feed_type trans pool
      = Some (r, pool') ->
    feed_order r ++ pool' ≡ₚ pool.
Proof.
  induction fuel as [|fuel IH]; intros source_scope scope feed_type trans pool
    r pool' H; [done|].
  cbn [build_transform] in H.
  set (step := fun (acc : option (list child * list sink)) t =>
         match acc with
         | None => None
         | Some (children, good_sinks) =>
             if bool_decide (tr_source t = feed_type) &&
                (tr_scope t <=? scope)%nat
             then
               match build_transform o fuel source_scope scope
                                     (tr_dest t) trans good_sinks with
               | None => None
               | Some (r, good_sinks) =>
                   Some (children ++ [Wrapped t r], good_sinks)
               end
             else acc
         end) in H.
  assert (Hfold : forall ts children pool0 children' pool1,
            fold_left step ts (Some (children, pool0)) = Some (children', pool1) ->
            flat_map child_feed_order children' ++ pool1 ≡ₚ
            flat_map child_feed_order children ++ pool0).
  { induction ts as [|t ts IHts]; intros children pool0 children' pool1 Hf.
    - simpl in Hf. by injection Hf as <- <-.
    - cbn [fold_left] in Hf. unfold step at 2 in Hf.
      destruct (bool_decide (tr_source t = feed_type) &&
                (tr_scope t <=? scope)%nat).
      + destruct (build_transform o fuel source_scope scope (tr_dest t)
                                  trans pool0) as [[r0 p0]|] eqn:E.
        * rewrite (IHts _ _ _ _ Hf). rewrite flat_map_app. simpl.
          rewrite app_nil_r, <- app_assoc.
          apply Permutation_app_head. by eapply IH.
        * rewrite fold_left_None in Hf; [done|]. done.
      + by apply IHts. }
  destruct (fold_left step (set_iter (pick_trans o) (elements trans))
                      (Some ([], pool))) as [[children pool1]|] eqn:E; [|done].
  injection H as <- <-.
  change (feed_order (CheckRunner ?c)) with (flat_map child_feed_order c).
  rewrite flat_map_app, feed_order_plain, <- app_assoc, take_sinks_perm.
  by apply (Hfold _ _ _ _ _ E).
Qed.

Lemma build_all_perm (o : hash_order) (fuel source_scope : nat) :
  forall chosen pool result pool',
    build_all o fuel source_scope chosen pool = Some (result, pool') ->
    flat_map (fun p : source * runner => feed_order p.2) result ++ pool' ≡ₚ pool.
Proof.
  induction chosen as [|[src trans] rest IH]; intros pool result pool' H.
  - simpl in H. by injection H as <- <-.
  - cbn [build_all] in H.
    destruct (build_transform o fuel source_scope (src_scope src)
                              (src_feed_type src) trans pool)
      as [[r p1]|] eqn:E1; [|done].
    destruct (build_all o fuel source_scope rest p1) as [[res p2]|] eqn:E2;
      [|done].
    injection H as <- <-. simpl. rewrite <- app_assoc, (IH _ _ _ E2).
    by eapply build_transform_perm.
Qed.

Lemma insert_sorted_perm (s : sink) (l : list sink) :
  insert_sorted s l ≡ₚ s :: l.
Proof.
  induction l as [|x l IH]; [done|]. simpl.
  destruct (sink_priority x <=? sink_priority s)%Z; [|done].
  rewrite IH. apply perm_swap.
Qed.

Lemma sort_by_priority_perm (l : list sink) : sort_by_priority l ≡ₚ l.
Proof.
  unfold sort_by_priority.
  assert (H : forall acc, fold_left (fun acc s => insert_sorted s acc) l acc
                          ≡ₚ l ++ acc).
  { induction l as [|x l IH]; intros acc; [done|]. simpl.
    rewrite IH, insert_sorted_perm. by rewrite Permutation_middle. }
  rewrite H. by rewrite app_nil_r.
Qed.

(** [bad_sinks] and [good_sinks] split the input. *)
Lemma plan_pipes_split (o : hash_order) (transforms : list transform)
      (fuel : nat) (sinks : list sink) (sources : list source) :
  match plan_pipes o transforms fuel sinks sources with
  | Returned (Unplugged unreachable) => unreachable ≡ₚ sinks
  | Returned (Plugged p) => bad_sinks p ++ good_sinks p ≡ₚ sinks
  | _ => True
  end.
Proof.
  unfold plan_pipes. destruct sinks as [|s0 sinks']; [done|].
  set (sinks := s0 :: sinks').
  destruct (best_scopes o transforms fuel sources ∅) as [best_scope|] eqn:Eb;
    [|done].
  pose proof (filter_split_perm (is_bad best_scope) sinks) as Hsplit.
  destruct (List.filter (fun s => negb (is_bad best_scope s)) sinks)
    as [|g good'] eqn:Egood.
  { by rewrite app_nil_r in Hsplit. }
  destruct (last sources) as [source0|] eqn:Elast.
  - destruct (List.filter _ sources) as [|s1 sources']; [done|].
    destruct (search_loop _ _ _ _ _) as [st|]; [|done].
    destruct (pipes_to_run st); [done|].
    by destruct (combine_pipes _ _ _ _) as [st2|].
  - apply last_None in Elast. subst sources. injection Eb as <-.
    exfalso. assert (Hin : g ∈ g :: good') by (by left).
    rewrite <- Egood in Hin. apply list_elem_of_In, filter_In in Hin as [_ Hg].
    unfold is_bad in Hg. by rewrite lookup_empty in Hg.
Qed.

Definition assigned (result : list (source * runner)) : list sink :=
  flat_map (fun p : source * runner => feed_order p.2) result.

(** Whenever [plug] returns, the unreachable sinks together with the
    checks of the pipelines are the input sinks, each as often as in the
    input: for an input without repetitions, every sink is either
    unreachable or in exactly one pipeline, at one place. *)
Theorem plug_partitions_sinks (o : hash_order) (transforms : list transform)
        (fuel : nat) (sinks : list sink) (sources : list source)
        (unreachable : list sink) (result : list (source * runner)) :
  plug o transforms fuel sinks sources = Returned (unreachable, result) ->
  sinks <> [] /\
  unreachable ++ assigned result ≡ₚ sinks /\
  (NoDup sinks -> NoDup (unreachable ++ assigned result)).
Proof.
  intros H.
  assert (Hperm : unreachable ++ assigned result ≡ₚ sinks).
  { unfold plug in H.
    pose proof (plan_pipes_split o transforms fuel sinks sources) as Hsplit.
    destruct (plan_pipes o transforms fuel sinks sources) as [[u|p]| |];
      try discriminate.
    - injection H as <- <-. unfold assigned. simpl. by rewrite app_nil_r.
    - destruct (to_run p) as [[|p0 seq]|]; try discriminate.
      destruct (build_all o fuel (src_scope (final_source p)) (p0 :: seq)
                          (sort_by_priority (good_sinks p)))
        as [[res [|x left]]|] eqn:E; try discriminate.
      injection H as <- <-.
      apply build_all_perm in E. rewrite app_nil_r in E.
      unfold assigned. rewrite E, sort_by_priority_perm. exact Hsplit. }
  split; [|split; [exact Hperm|]].
  - intros ->. unfold plug, plan_pipes in H. discriminate.
  - intros Hnd. by rewrite Hperm.
Qed.


(** ** Sets as lists *)

Lemma elem_of_set_add {A} `{EqDecision A} (x y : A) (s : list A) :
  y ∈ set_add x s <-> y = x \/ y ∈ s.
Proof.
  unfold set_add. case_bool_decide as Hx.
  - split; [by right|]. intros [->|?]; done.
  - rewrite elem_of_app, list_elem_of_singleton. tauto.
Qed.

Lemma set_pop_None {A} (pick : list A -> nat) (s : list A) :
  set_pop pick s = None <-> s = [].
Proof. destruct s; simpl; split; done. Qed.

Lemma set_pop_Some {A} (pick : list A -> nat) (s : list A) x rest :
  set_pop pick s = Some (x, rest) ->
  (forall y, y ∈ s <-> y = x \/ y ∈ rest) /\ length s = S (length rest).
Proof.
  destruct s as [|x0 s']; [done|]. unfold set_pop.
  set (s := x0 :: s'). set (i := (pick s mod length s)%nat).
  assert (Hi : (i < length s)%nat) by (apply Nat.mod_upper_bound; done).
  assert (Hne : s <> []) by done.
  clearbody i s. intros [= <- <-].
  assert (Hs : s = take i s ++ nth i s x0 :: drop (S i) s).
  { rewrite <- (take_drop i s) at 1. f_equal.
    destruct (drop i s) as [|y d] eqn:Ed.
    - apply (f_equal length) in Ed. rewrite length_drop in Ed.
      cbn [length] in Ed. lia.
    - assert (Hy : nth i s x0 = y).
      { rewrite <- (take_drop i s) at 1. rewrite Ed.
        rewrite app_nth2; rewrite length_take; [|lia].
        replace (i - i `min` length s)%nat with 0%nat by lia. done. }
      rewrite Hy. f_equal.
      change (S i) with (1 + i)%nat. rewrite Nat.add_comm, <- drop_drop, Ed. done. }
  split.
  - intros y. rewrite Hs at 1. rewrite !elem_of_app, elem_of_cons. tauto.
  - rewrite Hs at 1. rewrite !length_app. simpl. lia.
Qed.

Lemma elem_of_set_iter {A} (pick : nat -> list A -> nat) (s : list A) (x : A) :
  x ∈ set_iter pick s <-> x ∈ s.
Proof.
  unfold set_iter. remember (length s) as n eqn:Hn. revert s Hn.
  induction n as [|n IH]; intros s Hn.
  - destruct s; [done|discriminate].
  - simpl. destruct (set_pop (pick n) s) as [[y rest]|] eqn:E.
    + destruct (set_pop_Some _ _ _ _ E) as [Hel Hlen].
      rewrite elem_of_cons, Hel, (IH rest) by lia. done.
    + apply set_pop_None in E. subst. done.
Qed.

(** ** Reachable feed types do not depend on the hash order *)

Section Reach.

Variable transforms : list transform.
Variable src : source.

(** The feed types [src] can be turned into. *)
Inductive reachable_from : string -> Prop :=
| reach_root : reachable_from (src_feed_type src)
| reach_step t :
    reachable_from (tr_source t) -> t ∈ transforms ->
    (tr_scope t <= src_scope src)%nat -> reachable_from (tr_dest t).

Definition reach_inv (reachable todo : list string) : Prop :=
  (forall ft, ft ∈ reachable \/ ft ∈ todo -> reachable_from ft) /\
  (src_feed_type src ∈ reachable \/ src_feed_type src ∈ todo) /\
  (forall t, tr_source t ∈ reachable -> t ∈ transforms ->
             (tr_scope t <= src_scope src)%nat ->
             tr_dest t ∈ reachable \/ tr_dest t ∈ todo).

Lemma elem_of_feed_to_transforms (ft : string) (t : transform) :
  t ∈ feed_to_transforms transforms ft <-> t ∈ transforms /\ tr_source t = ft.
Proof.
  unfold feed_to_transforms. rewrite list_elem_of_In, filter_In,
    <- list_elem_of_In, bool_decide_eq_true. done.
Qed.

Lemma reach_todo_spec (reachable : list string) (ts : list transform)
      (todo : list string) (x : string) :
  (x ∈ fold_left
         (fun todo t =>
            if (tr_scope t <=? src_scope src)%nat &&
               negb (bool_decide (tr_dest t ∈ reachable))
            then set_add (tr_dest t) todo else todo) ts todo) <->
  x ∈ todo \/
  exists t, t ∈ ts /\ (tr_scope t <= src_scope src)%nat /\
            (tr_dest t ∉ reachable) /\ x = tr_dest t.
Proof.
  revert todo. induction ts as [|t ts IH]; intros todo; simpl.
  - split; [by left|]. intros [?|(t & Ht & _)]; [done|].
    by apply elem_of_nil in Ht.
  - rewrite IH. clear IH.
    destruct (tr_scope t <=? src_scope src)%nat eqn:Hsc;
      [apply Nat.leb_le in Hsc | apply Nat.leb_gt in Hsc]; simpl.
    + case_bool_decide as Hd; simpl.
      * setoid_rewrite elem_of_cons. split.
        -- intros [?|(t' & Ht' & ?)]; [by left|]. right. exists t'. auto.
        -- intros [?|(t' & [->|Ht'] & ? & ? & ?)]; [by left|done|].
           right. by exists t'.
      * rewrite elem_of_set_add. setoid_rewrite elem_of_cons. split.
        -- intros [[->|?]|(t' & Ht' & ?)]; [|by left|].
           ++ right. exists t. auto.
           ++ right. exists t'. auto.
        -- intros [?|(t' & [->|Ht'] & ? & ? & ->)]; [by left; right|by left; left|].
           right. by exists t'.
    + setoid_rewrite elem_of_cons. split.
      * intros [?|(t' & Ht' & ?)]; [by left|]. right. exists t'. auto.
      * intros [?|(t' & [->|Ht'] & ? & ? & ?)]; [by left|lia|].
        right. by exists t'.
Qed.

Lemma reach_closed (o : hash_order) (fuel : nat) :
  forall reachable todo result,
    reach o transforms fuel src reachable todo = Some result ->
    reach_inv reachable todo ->
    forall ft, ft ∈ result <-> reachable_from ft.
Proof.
  induction fuel as [|fuel IH]; intros reachable todo result H Hinv; [done|].
  cbn [reach] in H.
  destruct (set_pop (pick_feed o fuel) todo) as [[ft0 rest]|] eqn:Epop.
  - destruct (set_pop_Some _ _ _ _ Epop) as [Hel _].
    apply (IH _ _ _ H). clear IH H.
    destruct Hinv as (Hsound & Hroot & Hclosed).
    split; [|split].
    + intros ft. rewrite elem_of_set_add, reach_todo_spec.
      intros [[->|?]|[?|(t & Ht & Hsc & _ & ->)]].
      * apply Hsound. right. apply Hel. by left.
      * apply Hsound. by left.
      * apply Hsound. right. apply Hel. by right.
      * apply elem_of_feed_to_transforms in Ht as [Ht Hsrc].
        apply reach_step; [|done|done]. rewrite Hsrc.
        apply Hsound. right. apply Hel. by left.
    + rewrite elem_of_set_add, reach_todo_spec.
      destruct Hroot as [?|Hr]; [by left; right|].
      apply Hel in Hr as [->|?]; [by left; left | by right; left].
    + intros t Hsrc Ht Hsc.
      destruct (decide (tr_dest t ∈ set_add ft0 reachable)) as [?|Hnew];
        [by left|].
      right. rewrite reach_todo_spec.
      apply elem_of_set_add in Hsrc as [Hsrc|Hsrc].
      * right. exists t. split; [|done].
        by apply elem_of_feed_to_transforms.
      * destruct (Hclosed t Hsrc Ht Hsc) as [Hd|Hd].
        -- exfalso. apply Hnew. apply elem_of_set_add. by right.
        -- apply Hel in Hd as [Hd|Hd]; [|by left].
           exfalso. apply Hnew. apply elem_of_set_add. by left.
  - apply set_pop_None in Epop. subst todo. injection H as <-.
    destruct Hinv as (Hsound & Hroot & Hclosed).
    intros ft. split; [intros; apply Hsound; by left|].
    induction 1 as [|t _ IHr Ht Hsc].
    + destruct Hroot as [?|H0]; [done|]. by apply elem_of_nil in H0.
    + destruct (Hclosed t IHr Ht Hsc) as [?|H0]; [done|].
      by apply elem_of_nil in H0.
Qed.

Lemma reach_inv_init : reach_inv [] [src_feed_type src].
Proof.
  split; [|split].
  - intros ft [H|H]; [by apply elem_of_nil in H|].
    apply list_elem_of_singleton in H as ->. constructor.
  - right. by left.
  - intros t H. by apply elem_of_nil in H.
Qed.

(** What the loop over [reachable] does to one entry of [best_scope]. *)
Lemma raise_scopes_lookup (o : hash_order) (best_scope : gmap string nat)
      (reachable : list string) (ft : string) :
  raise_scopes o src best_scope reachable !! ft =
  if decide (ft ∈ reachable)
  then Some (match best_scope !! ft with
             | None => src_scope src
             | Some scope => Nat.max scope (src_scope src)
             end)
  else best_scope !! ft.
Proof.
  unfold raise_scopes.
  assert (H : forall (l : list string) (bs : gmap string nat),
    fold_left
      (fun best_scope feed_type =>
         match best_scope !! feed_type with
         | None => <[feed_type := src_scope src]> best_scope
         | Some scope =>
             if (scope <? src_scope src)%nat
             then <[feed_type := src_scope src]> best_scope
             else best_scope
         end) l bs !! ft =
    if decide (ft ∈ l)
    then Some (match bs !! ft with
               | None => src_scope src
               | Some scope => Nat.max scope (src_scope src)
               end)
    else bs !! ft).
  { induction l as [|x l IHl]; intros bs; cbn [fold_left].
    - by rewrite decide_False by apply not_elem_of_nil.
    - rewrite IHl. clear IHl.
      set (bs' := match bs !! x with
                  | None => <[x := src_scope src]> bs
                  | Some scope =>
                      if (scope <? src_scope src)%nat
                      then <[x := src_scope src]> bs else bs
                  end).
      assert (Hbs' : bs' !! ft =
                     if decide (x = ft)
                     then Some (match bs !! ft with
                                | None => src_scope src
                                | Some scope => Nat.max scope (src_scope src)
                                end)
                     else bs !! ft).
      { unfold bs'. destruct (decide (x = ft)) as [->|Hne].
        - destruct (bs !! ft) as [sc|] eqn:E.
          + destruct (sc <? src_scope src)%nat eqn:Hlt;
              [apply Nat.ltb_lt in Hlt | apply Nat.ltb_ge in Hlt].
            * rewrite lookup_insert_eq. f_equal. lia.
            * rewrite E. f_equal. lia.
          + by rewrite lookup_insert_eq.
        - destruct (bs !! x) as [sc|]; [destruct (sc <? src_scope src)%nat|];
            by rewrite ?lookup_insert_ne. }
      rewrite Hbs'.
      destruct (decide (x = ft)) as [->|Hne].
      + rewrite (decide_True (P := ft ∈ ft :: l)) by (by left).
        destruct (decide (ft ∈ l)); [|done].
        f_equal. destruct (bs !! ft); lia.
      + destruct (decide (ft ∈ l)) as [Hin|Hnin].
        * by rewrite decide_True by (by right).
        * rewrite decide_False; [done|].
          rewrite elem_of_cons. intros [?|?]; congruence. }
  rewrite H.
  destruct (decide (ft ∈ set_iter (pick_feed o) reachable)) as [Hin|Hnin];
    rewrite elem_of_set_iter in *; [by rewrite decide_True | by rewrite decide_False].
Qed.

End Reach.

(** [best_scope] is the same whatever the order the sets are iterated in. *)
Lemma best_scopes_order (o1 o2 : hash_order) (transforms : list transform)
      (fuel1 fuel2 : nat) (sources : list source) :
  forall bs r1 r2,
    best_scopes o1 transforms fuel1 sources bs = Some r1 ->
    best_scopes o2 transforms fuel2 sources bs = Some r2 ->
    r1 = r2.
Proof.
  induction sources as [|src rest IH]; intros bs r1 r2 H1 H2; simpl in *.
  - congruence.
  - destruct (reach o1 transforms fuel1 src [] [src_feed_type src])
      as [R1|] eqn:E1; [|done].
    destruct (reach o2 transforms fuel2 src [] [src_feed_type src])
      as [R2|] eqn:E2; [|done].
    pose proof (reach_closed transforms src o1 fuel1 _ _ _ E1
                  (reach_inv_init transforms src)) as C1.
    pose proof (reach_closed transforms src o2 fuel2 _ _ _ E2
                  (reach_inv_init transforms src)) as C2.
    assert (Heq : raise_scopes o1 src bs R1 = raise_scopes o2 src bs R2).
    { apply map_eq. intros ft. rewrite !raise_scopes_lookup.
      destruct (decide (ft ∈ R1)) as [Hin|Hnin].
      - rewrite decide_True; [done|]. apply C2. by apply C1.
      - rewrite decide_False; [done|]. intros Hin. apply Hnin, C1. by apply C2. }
    rewrite Heq in H1. by eapply IH.
Qed.


(** ** Costs *)

(** The cost of a pipeline: its source and its transforms. *)
Definition trans_cost (ts : gset transform) : Z :=
  set_fold (fun t acc => (acc + tr_cost t)%Z) 0%Z ts.

Definition pipeline_cost (p : source * gset transform) : Z :=
  (src_cost p.1 + trans_cost p.2)%Z.

Definition plan_cost (l : list (source * gset transform)) : Z :=
  fold_right (fun p acc => (pipeline_cost p + acc)%Z) 0%Z l.

Lemma trans_cost_add (ts : gset transform) (t : transform) :
  t ∉ ts -> trans_cost (ts ∪ {[t]}) = (trans_cost ts + tr_cost t)%Z.
Proof.
  intros Ht. unfold trans_cost.
  rewrite (set_fold_disj_union_strong (=) _ _ ts {[t]}).
  - by rewrite set_fold_singleton.
  - solve_proper.
  - intros. lia.
  - set_solver.
Qed.

(** ** The first search *)

Section Search.

Variable o : hash_order.
Variable transforms : list transform.
Variable sink_types : gset string.

(** One more transform on a pipeline: what the search may add. *)
Inductive grows_by : pipe -> pipe -> Prop :=
| grow_one v s ts c t :
    t ∈ transforms -> (tr_scope t <= src_scope s)%nat ->
    tr_source t ∈ v -> tr_dest t ∉ v ->
    grows_by (v, s, ts, c) (v ∪ {[tr_dest t]}, s, ts ∪ {[t]}, (c + tr_cost t)%Z).

(** The pipeline reaches every feed type some reachable sink wants. *)
Definition covers (p : pipe) : Prop := sink_types ⊆ p.1.1.1.

(** The seed of the search for a source. *)
Definition seed (s : source) : pipe :=
  ({[src_feed_type s]}, s, ∅, src_cost s).

Lemma elem_of_grow (next : pipe) (u : list pipe) (q : pipe) :
  q ∈ grow transforms next u <-> q ∈ u \/ grows_by next q.
Proof.
  destruct next as [[[v s] ts] c]. unfold grow.
  assert (H : forall l u,
    (q ∈ fold_left
       (fun unprocessed t =>
          if (tr_scope t <=? src_scope s)%nat &&
             bool_decide (tr_source t ∈ v) &&
             negb (bool_decide (tr_dest t ∈ v))
          then set_add (v ∪ {[tr_dest t]}, s, ts ∪ {[t]}, (c + tr_cost t)%Z)
                       unprocessed
          else unprocessed) l u) <->
    q ∈ u \/ exists t, t ∈ l /\ (tr_scope t <= src_scope s)%nat /\
                       tr_source t ∈ v /\ (tr_dest t ∉ v) /\
                       q = (v ∪ {[tr_dest t]}, s, ts ∪ {[t]}, (c + tr_cost t)%Z)).
  { induction l as [|t l IH]; intros u'; cbn [fold_left].
    - split; [by left|]. intros [?|(t & Ht & _)]; [done|].
      by apply elem_of_nil in Ht.
    - rewrite IH. clear IH. setoid_rewrite elem_of_cons.
      destruct ((tr_scope t <=? src_scope s)%nat &&
                bool_decide (tr_source t ∈ v) &&
                negb (bool_decide (tr_dest t ∈ v))) eqn:Hc.
      + apply andb_true_iff in Hc as [Hc Hc3].
        apply andb_true_iff in Hc as [Hc1 Hc2].
        apply Nat.leb_le in Hc1. apply bool_decide_eq_true in Hc2.
        apply negb_true_iff, bool_decide_eq_false in Hc3.
        rewrite elem_of_set_add. split.
        * intros [[->|?]|(t' & Ht' & ?)]; [|by left|].
          -- right. exists t. auto.
          -- right. exists t'. auto.
        * intros [?|(t' & [->|Ht'] & ? & ? & ? & ->)];
            [by left; right | by left; left |].
          right. exists t'. auto.
      + split.
        * intros [?|(t' & Ht' & ?)]; [by left|]. right. exists t'. auto.
        * intros [?|(t' & [->|Ht'] & H1 & H2 & H3 & ->)]; [by left| |].
          -- exfalso. apply Nat.leb_le in H1.
             apply (bool_decide_eq_true_2 _) in H2.
             apply (bool_decide_eq_false_2 _) in H3.
             by rewrite H1, H2, H3 in Hc.
          -- right. exists t'. auto. }
  rewrite H. split.
  - intros [?|(t & Ht & ? & ? & ? & ->)]; [by left|]. right. by constructor.
  - intros [?|Hg]; [by left|]. right. inversion Hg; subst. eauto 10.
Qed.

Section Costs.

Hypothesis costs_nonneg : forall t, t ∈ transforms -> (0 <= tr_cost t)%Z.

Lemma grows_by_cost (p q : pipe) : grows_by p q -> (p.2 <= q.2)%Z.
Proof.
  intros H. inversion H as [v s ts c t Ht]; subst. simpl.
  specialize (costs_nonneg t Ht). lia.
Qed.

Lemma grows_cost (p q : pipe) : rtc grows_by p q -> (p.2 <= q.2)%Z.
Proof.
  induction 1 as [|p q r Hpq _ IH]; [done|].
  apply grows_by_cost in Hpq. lia.
Qed.

End Costs.

Lemma grows_by_covers (p q : pipe) : grows_by p q -> covers p -> covers q.
Proof.
  intros H. inversion H; subst. unfold covers. simpl. set_solver.
Qed.

(** The invariant of the loop: every pipe taken from [unprocessed] is
    not cheaper than the best plan so far, or does not reach every
    type and has its successors in [pipes] or [unprocessed]. *)
Definition settled (st : search) : Prop :=
  forall p, p ∈ pipes st ->
    (exists b, best_cost st = Some b /\ (b <= p.2)%Z) \/
    (~ covers p /\
     forall q, grows_by p q -> q ∈ pipes st \/ q ∈ unprocessed st).

(** [pipes_to_run] and [best_cost] go together. *)
Definition coherent (st : search) : Prop :=
  match pipes_to_run st, best_cost st with
  | None, None => True
  | Some [(s, ts)], Some b =>
      exists v, (v, s, ts, b) ∈ pipes st /\ sink_types ⊆ v
  | _, _ => False
  end.

Definition known (st : search) (p : pipe) : Prop :=
  p ∈ pipes st \/ p ∈ unprocessed st.

Lemma search_step_ok (st : search) (next : pipe) (rest : list pipe) :
  (forall y, y ∈ unprocessed st <-> y = next \/ y ∈ rest) ->
  settled st -> coherent st ->
  settled (search_step transforms sink_types next rest st) /\
  coherent (search_step transforms sink_types next rest st) /\
  (forall p, known st p ->
             known (search_step transforms sink_types next rest st) p) /\
  (forall p, known (search_step transforms sink_types next rest st) p ->
             known st p \/ grows_by next p).
Proof.
  intros Hpop Hset Hcoh. unfold search_step.
  case_bool_decide as Hseen.
  { (* [next in pipes]: continue *)
    split; [|split; [|split]].
    - intros p Hp. cbn [pipes best_cost unprocessed] in *.
      destruct (Hset p Hp) as [?|[Hnc Hsucc]]; [by left|]. right.
      split; [done|]. intros q Hq.
      destruct (Hsucc q Hq) as [?|Hu]; [by left|].
      apply Hpop in Hu as [->|?]; [by left|by right].
    - exact Hcoh.
    - intros p [?|Hu]; [by left|].
      apply Hpop in Hu as [->|?]; [by left|by right].
    - intros p [?|Hu]; left; [by left|]. right. apply Hpop. by right. }
  destruct next as [[[v s] ts] c] eqn:Enext. rewrite <- Enext in *.
  assert (Hpipes' : forall p, p ∈ set_add next (pipes st) <->
                              p = next \/ p ∈ pipes st)
    by (intros p; apply elem_of_set_add).
  assert (Hold : forall (st' : search) b,
            pipes st' = set_add next (pipes st) ->
            unprocessed st' = rest \/ unprocessed st' = grow transforms next rest ->
            best_cost st' = Some b ->
            (forall b0, best_cost st = Some b0 -> (b <= b0)%Z) ->
            forall p, p ∈ pipes st ->
              (exists b', best_cost st' = Some b' /\ (b' <= p.2)%Z) \/
              (~ covers p /\
               forall q, grows_by p q -> q ∈ pipes st' \/ q ∈ unprocessed st')).
  { intros st' b Hp' Hu' Hb' Hle p Hp.
    destruct (Hset p Hp) as [(b0 & Hb0 & Hle0)|[Hnc Hsucc]].
    - left. exists b. split; [done|]. specialize (Hle b0 Hb0). lia.
    - right. split; [done|]. intros q Hq. rewrite Hp', Hpipes'.
      destruct (Hsucc q Hq) as [?|Hu]; [by left; right|].
      apply Hpop in Hu as [->|Hu]; [by left; left|]. right.
      destruct Hu' as [->| ->]; [done|]. apply elem_of_grow. by left. }
  assert (Hold' : forall (st' : search),
            pipes st' = set_add next (pipes st) ->
            unprocessed st' = rest \/ unprocessed st' = grow transforms next rest ->
            best_cost st' = best_cost st ->
            forall p, p ∈ pipes st ->
              (exists b', best_cost st' = Some b' /\ (b' <= p.2)%Z) \/
              (~ covers p /\
               forall q, grows_by p q -> q ∈ pipes st' \/ q ∈ unprocessed st')).
  { intros st' Hp' Hu' Hb' p Hp.
    destruct (Hset p Hp) as [(b0 & Hb0 & Hle0)|[Hnc Hsucc]].
    - left. exists b0. split; [congruence|done].
    - right. split; [done|]. intros q Hq. rewrite Hp', Hpipes'.
      destruct (Hsucc q Hq) as [?|Hu]; [by left; right|].
      apply Hpop in Hu as [->|Hu]; [by left; left|]. right.
      destruct Hu' as [->| ->]; [done|]. apply elem_of_grow. by left. }
  assert (Hknown_rest : forall (st' : search),
            pipes st' = set_add next (pipes st) -> unprocessed st' = rest ->
            (forall p, known st p -> known st' p) /\
            (forall p, known st' p -> known st p \/ grows_by next p)).
  { intros st' Hp' Hu'. unfold known. rewrite Hp', Hu'. split.
    - intros p [?|Hu]; [left; apply Hpipes'; by right|].
      apply Hpop in Hu as [->|?]; [left; apply Hpipes'; by left|by right].
    - intros p [Hp|Hu]; left.
      + apply Hpipes' in Hp as [->|?]; [right; apply Hpop; by left|by left].
      + right. apply Hpop. by right. }
  rewrite Enext. cbn [fst snd]. rewrite <- Enext.
  case_bool_decide as Hcov.
  { (* reaches every sink type *)
    destruct (improves (best_cost st) c) eqn:Himp.
    - (* a better plan *)
      split; [|split; [|apply Hknown_rest; done]].
      + intros p Hp. cbn [pipes] in Hp. apply Hpipes' in Hp as [->|Hp].
        * left. exists c. split; [done|]. rewrite Enext. simpl. lia.
        * apply (Hold _ c); try done; [by left|].
          intros b0 Hb0. unfold improves in Himp. rewrite Hb0 in Himp.
          cbn [best_cost]. apply Z.ltb_lt in Himp. lia.
      + unfold coherent. cbn [pipes_to_run best_cost pipes].
        exists v. split; [|done]. apply Hpipes'. left. by rewrite Enext.
    - (* not better *)
      split; [|split; [|apply Hknown_rest; done]].
      + intros p Hp. cbn [pipes] in Hp. apply Hpipes' in Hp as [->|Hp].
        * left. unfold improves in Himp.
          destruct (best_cost st) as [b|] eqn:Eb; [|done].
          exists b. split; [done|]. apply Z.ltb_ge in Himp.
          rewrite Enext. simpl. lia.
        * apply Hold'; try done. by left.
      + unfold coherent in *. cbn [pipes_to_run best_cost pipes].
        destruct (pipes_to_run st) as [[|[s0 ts0] [|? ?]]|];
          destruct (best_cost st) as [b|]; try done.
        destruct Hcoh as (v0 & Hin & Hsub). exists v0. split; [|done].
        apply Hpipes'. by right. }
  destruct (hopeless (best_cost st) c) eqn:Hhop.
  { (* no point in growing this further *)
    split; [|split; [|apply Hknown_rest; done]].
    - intros p Hp. cbn [pipes] in Hp. apply Hpipes' in Hp as [->|Hp].
      + left. unfold hopeless in Hhop.
        destruct (best_cost st) as [b|] eqn:Eb; [|done].
        exists b. split; [done|]. apply Z.leb_le in Hhop.
        rewrite Enext. simpl. lia.
      + apply Hold'; try done. by left.
    - unfold coherent in *. cbn [pipes_to_run best_cost pipes].
      destruct (pipes_to_run st) as [[|[s0 ts0] [|? ?]]|];
        destruct (best_cost st) as [b|]; try done.
      destruct Hcoh as (v0 & Hin & Hsub). exists v0. split; [|done].
      apply Hpipes'. by right. }
  (* grow *)
  split; [|split; [|split]].
  - intros p Hp. cbn [pipes] in Hp. apply Hpipes' in Hp as [->|Hp].
    + right. split.
      * unfold covers. by rewrite Enext.
      * intros q Hq. right. cbn [unprocessed]. apply elem_of_grow. by right.
    + apply Hold'; try done. by right.
  - unfold coherent in *. cbn [pipes_to_run best_cost pipes].
    destruct (pipes_to_run st) as [[|[s0 ts0] [|? ?]]|];
      destruct (best_cost st) as [b|]; try done.
    destruct Hcoh as (v0 & Hin & Hsub). exists v0. split; [|done].
    apply Hpipes'. by right.
  - unfold known. cbn [pipes unprocessed]. intros p [?|Hu].
    + left. apply Hpipes'. by right.
    + apply Hpop in Hu as [->|?]; [left; apply Hpipes'; by left|].
      right. apply elem_of_grow. by left.
  - unfold known. cbn [pipes unprocessed]. intros p [Hp|Hu].
    + left. apply Hpipes' in Hp as [->|?]; [right; apply Hpop; by left|by left].
    + apply elem_of_grow in Hu as [?|?]; [|by right].
      left. right. apply Hpop. by right.
Qed.

End Search.


Section SearchLoop.

Variable o : hash_order.
Variable transforms : list transform.
Variable sink_types : gset string.

Abbreviation grows_by := (grows_by transforms).
Abbreviation settled := (settled transforms sink_types).
Abbreviation coherent := (coherent sink_types).
Abbreviation covers := (covers sink_types).

Lemma search_loop_ok (fuel : nat) :
  forall st st',
    search_loop o transforms fuel sink_types st = Some st' ->
    settled st -> coherent st ->
    settled st' /\ coherent st' /\ unprocessed st' = [] /\
    (forall p, known st p -> p ∈ pipes st') /\
    (forall p, p ∈ pipes st' -> exists p0, known st p0 /\ rtc grows_by p0 p).
Proof.
  induction fuel as [|fuel IH]; intros st st' H Hset Hcoh; [done|].
  cbn [search_loop] in H.
  destruct (set_pop (pick_pipe o fuel) (unprocessed st))
    as [[next rest]|] eqn:Epop.
  - destruct (set_pop_Some _ _ _ _ Epop) as [Hel _].
    destruct (search_step_ok transforms sink_types st next rest Hel Hset Hcoh)
      as (S1 & S2 & S3 & S4).
    destruct (IH _ _ H S1 S2) as (I1 & I2 & I3 & I4 & I5).
    split; [done|]. split; [done|]. split; [done|]. split.
    + intros p Hp. apply I4. by apply S3.
    + intros p Hp. destruct (I5 p Hp) as (p0 & Hk & Hr).
      destruct (S4 p0 Hk) as [?|Hg]; [by exists p0|].
      exists next. split.
      * right. apply Hel. by left.
      * by eapply rtc_l.
  - apply set_pop_None in Epop. injection H as <-.
    split; [done|]. split; [done|]. split; [done|]. split.
    + intros p [?|Hu]; [done|]. rewrite Epop in Hu. by apply elem_of_nil in Hu.
    + intros p Hp. exists p. split; [by left|done].
Qed.

(** When the loop is over, no pipeline that grows out of a pipe of
    [pipes] and reaches every sink type is cheaper than [best_cost]. *)
Lemma settled_minimal (st : search) :
  (forall t, t ∈ transforms -> (0 <= tr_cost t)%Z) ->
  settled st -> unprocessed st = [] ->
  forall p g, p ∈ pipes st -> rtc grows_by p g -> covers g ->
              exists b, best_cost st = Some b /\ (b <= g.2)%Z.
Proof.
  intros Hcost Hset Hempty p g Hp Hrtc Hcov.
  induction Hrtc as [p|p q g Hpq Hqg IH].
  - destruct (Hset p Hp) as [?|[Hnc _]]; done.
  - destruct (Hset p Hp) as [(b & Hb & Hle)|[_ Hsucc]].
    + exists b. split; [done|].
      pose proof (grows_cost transforms Hcost p g (rtc_l _ _ _ _ Hpq Hqg)). lia.
    + apply IH; [|done]. destruct (Hsucc q Hpq) as [?|Hu]; [done|].
      rewrite Hempty in Hu. by apply elem_of_nil in Hu.
Qed.

(** A pipe that grew from a seed has the cost of its source and
    transforms, and has visited the destination of each transform. *)
Definition well_formed (p : pipe) : Prop :=
  p.2 = pipeline_cost (p.1.1.2, p.1.2) /\
  forall t, t ∈ p.1.2 -> tr_dest t ∈ p.1.1.1.

Lemma well_formed_seed (s : source) : well_formed (seed s).
Proof.
  split.
  - unfold seed, pipeline_cost, trans_cost. simpl.
    rewrite set_fold_empty. lia.
  - intros t Ht. set_solver.
Qed.

Lemma well_formed_grows_by (p q : pipe) :
  grows_by p q -> well_formed p -> well_formed q.
Proof.
  intros Hg [Hc Hd]. inversion Hg as [v s ts c t Ht Hsc Hsrc Hdst]; subst.
  simpl in *. split; simpl.
  - unfold pipeline_cost in *. simpl in *.
    rewrite trans_cost_add; [lia|]. intros Hin. by apply Hdst, Hd.
  - intros t' Ht'. apply elem_of_union in Ht' as [Ht'|Ht'].
    + apply elem_of_union. left. by apply Hd.
    + apply elem_of_singleton in Ht' as ->. set_solver.
Qed.

Lemma well_formed_grows (p q : pipe) :
  rtc grows_by p q -> well_formed p -> well_formed q.
Proof.
  induction 1 as [|p q r Hpq _ IH]; [done|].
  intros Hp. apply IH. by eapply well_formed_grows_by.
Qed.

Lemma grows_by_source (p q : pipe) : grows_by p q -> q.1.1.2 = p.1.1.2.
Proof. intros H. by inversion H. Qed.

Lemma grows_source (p q : pipe) : rtc grows_by p q -> q.1.1.2 = p.1.1.2.
Proof.
  induction 1 as [|p q r Hpq _ IH]; [done|].
  rewrite IH. by apply grows_by_source.
Qed.

(** Growing does not look at the source beyond its scope: a pipeline
    of [s] is a pipeline of any source [s0] of the same scope and feed
    type, at the difference of the sources' costs. *)
Lemma grows_other_source (s s0 : source) (g : pipe) :
  src_scope s0 = src_scope s -> src_feed_type s0 = src_feed_type s ->
  rtc grows_by (seed s) g ->
  rtc grows_by (seed s0)
      (g.1.1.1, s0, g.1.2, (g.2 - src_cost s + src_cost s0)%Z).
Proof.
  intros Hsc Hft Hrtc. revert g Hrtc. apply rtc_ind_r.
  - replace (((seed s).1.1.1, s0, (seed s).1.2,
              ((seed s).2 - src_cost s + src_cost s0)%Z)) with (seed s0);
      [done|].
    unfold seed. simpl. rewrite Hft. repeat f_equal. lia.
  - intros y z Hsy Hyz IH.
    pose proof (grows_source _ _ Hsy) as Hsrc.
    inversion Hyz as [v s' ts c t Ht Hsct Hin Hout]; subst. simpl in *.
    subst s'. eapply rtc_r; [exact IH|].
    replace (c + tr_cost t - src_cost s + src_cost s0)%Z
      with ((c - src_cost s + src_cost s0) + tr_cost t)%Z by lia.
    constructor; [done|lia|done|done].
Qed.

End SearchLoop.

(** ** The cheapest source per scope and feed type *)

Lemma dict_get_set {K V} `{EqDecision K} (d : list (K * V)) (k k' : K) (v : V) :
  dict_get (dict_set d k v) k' =
  if decide (k = k') then Some v else dict_get d k'.
Proof.
  induction d as [|[k0 v0] d IH]; simpl.
  - by destruct (decide (k = k')).
  - destruct (decide (k0 = k)) as [->|Hne]; simpl.
    + by destruct (decide (k = k')).
    + rewrite IH. destruct (decide (k0 = k')) as [->|?]; [|done].
      by rewrite decide_False.
Qed.

Lemma dict_get_elem_of {K V} `{EqDecision K} (d : list (K * V)) (k : K) (v : V) :
  dict_get d k = Some v -> (k, v) ∈ d.
Proof.
  induction d as [|[k0 v0] d IH]; simpl; [done|].
  destruct (decide (k0 = k)) as [->|Hne].
  - intros [= ->]. by left.
  - intros H. right. by apply IH.
Qed.

Lemma elem_of_dict_set {K V} `{EqDecision K} (d : list (K * V)) (k : K) (v : V)
      (kv : K * V) :
  kv ∈ dict_set d k v -> kv = (k, v) \/ kv ∈ d.
Proof.
  induction d as [|[k0 v0] d IH]; simpl.
  - intros H. apply list_elem_of_singleton in H. by left.
  - destruct (decide (k0 = k)) as [->|Hne]; rewrite !elem_of_cons.
    + intros [->|?]; [by left|by right; right].
    + intros [->|H]; [by right; left|].
      destruct (IH H); [by left|by right; right].
Qed.

Lemma source_map_spec (sources : list source) :
  (forall s, s ∈ sources ->
     exists s0, dict_get (source_map sources) (src_scope s, src_feed_type s)
                = Some s0 /\ (src_cost s0 <= src_cost s)%Z) /\
  (forall k s0, (k, s0) ∈ source_map sources ->
                s0 ∈ sources /\ k = (src_scope s0, src_feed_type s0)).
Proof.
  unfold source_map.
  induction sources as [|new seen IH] using rev_ind.
  - split; [intros s Hs; by apply elem_of_nil in Hs|].
    intros k s0 H. by apply elem_of_nil in H.
  - rewrite fold_left_app. cbn [fold_left].
    destruct IH as [IH1 IH2].
    set (m := fold_left _ seen []) in *.
    set (key := (src_scope new, src_feed_type new)).
    split.
    + intros s Hs. apply elem_of_app in Hs as [Hs|Hs].
      * destruct (IH1 s Hs) as (s0 & Hget & Hle).
        destruct (dict_get m key) as [cur|] eqn:Ecur.
        -- destruct (src_cost new <? src_cost cur)%Z eqn:Hlt.
           ++ rewrite dict_get_set.
              destruct (decide (key = (src_scope s, src_feed_type s))) as [Hk|Hk].
              ** exists new. split; [done|]. rewrite <- Hk, Ecur in Hget.
                 injection Hget as ->. apply Z.ltb_lt in Hlt. lia.
              ** by exists s0.
           ++ by exists s0.
        -- rewrite dict_get_set.
           destruct (decide (key = (src_scope s, src_feed_type s))) as [Hk|Hk].
           ++ rewrite <- Hk, Ecur in Hget. done.
           ++ by exists s0.
      * apply list_elem_of_singleton in Hs as ->. fold key.
        destruct (dict_get m key) as [cur|] eqn:Ecur.
        -- destruct (src_cost new <? src_cost cur)%Z eqn:Hlt.
           ++ rewrite dict_get_set, decide_True by done. by exists new.
           ++ exists cur. split; [done|]. apply Z.ltb_ge in Hlt. lia.
        -- rewrite dict_get_set, decide_True by done. by exists new.
    + intros k s0 Hin.
      assert (Hcases : (k, s0) = (key, new) \/ (k, s0) ∈ m).
      { destruct (dict_get m key) as [cur|];
          [destruct (src_cost new <? src_cost cur)%Z|];
          [by apply elem_of_dict_set | by right | by apply elem_of_dict_set]. }
      destruct Hcases as [[= -> ->]|Hm].
      * split; [|done]. apply elem_of_app. right. by left.
      * destruct (IH2 k s0 Hm) as [? ?]. split; [|done].
        apply elem_of_app. by left.
Qed.

Lemma elem_of_seeds (sources : list source) (p : pipe) :
  p ∈ seeds sources <->
  exists kv, kv ∈ source_map sources /\ p = seed kv.2.
Proof.
  unfold seeds. generalize (source_map sources). intros m.
  assert (H : forall u,
    (p ∈ fold_left
       (fun u (kv : nat * string * source) =>
          set_add (({[src_feed_type kv.2]} : gset string), kv.2,
                   (∅ : gset transform), src_cost kv.2) u) m u) <->
    p ∈ u \/ exists kv, kv ∈ m /\ p = seed kv.2).
  { induction m as [|kv m IH]; intros u; cbn [fold_left].
    - split; [by left|]. intros [?|(kv & Hkv & _)]; [done|].
      by apply elem_of_nil in Hkv.
    - rewrite IH, elem_of_set_add. setoid_rewrite elem_of_cons. split.
      + intros [[->|?]|(kv' & ? & ?)]; [|by left|].
        * right. exists kv. split; [by left|done].
        * right. exists kv'. split; [by right|done].
      + intros [?|(kv' & [->|?] & ->)]; [by left; right|by left; left|].
        right. by exists kv'. }
  rewrite H. split; [intros [Hn|?]; [by apply elem_of_nil in Hn|done]|by right].
Qed.

Lemma min_scope_le (l : list sink) (k : sink) :
  k ∈ l -> (min_scope l <= sink_scope k)%nat.
Proof.
  unfold min_scope. destruct l as [|s rest]; [by rewrite elem_of_nil|].
  assert (H : forall rest m,
    (fold_left (fun m x => Nat.min m (sink_scope x)) rest m <= m)%nat /\
    forall k, k ∈ rest ->
      (fold_left (fun m x => Nat.min m (sink_scope x)) rest m <= sink_scope k)%nat).
  { clear. induction rest as [|x rest IH]; intros m; simpl.
    - split; [done|]. intros k Hk. by apply elem_of_nil in Hk.
    - destruct (IH (Nat.min m (sink_scope x))) as [H1 H2]. split; [lia|].
      intros k Hk. apply elem_of_cons in Hk as [->|Hk]; [lia|by apply H2]. }
  destruct (H rest (sink_scope s)) as [H1 H2].
  intros Hk. apply elem_of_cons in Hk as [->|Hk]; [done|by apply H2].
Qed.


(** ** [plan_pipes], taken apart *)

(** The sinks [plug] keeps, the sources it keeps for them, and the feed
    types it has to reach. *)
Definition good_of (best_scope : gmap string nat) (sinks : list sink)
  : list sink :=
  List.filter (fun s => negb (is_bad best_scope s)) sinks.

Definition usable_sources (good : list sink) (sources : list source)
  : list source :=
  List.filter (fun s => (min_scope good <=? src_scope s)%nat) sources.

Definition sink_types_of (good : list sink) : gset string :=
  list_to_set (List.map sink_feed_type good).

Definition search_start (good : list sink) (sources : list source)
           (source0 : source) : search :=
  {| pipes := []; unprocessed := seeds (usable_sources good sources);
     pipes_to_run := None; best_cost := None; source_var := source0 |}.

Lemma plan_pipes_plugged (o : hash_order) (transforms : list transform)
      (fuel : nat) (sinks : list sink) (sources : list source) (p : plan) :
  plan_pipes o transforms fuel sinks sources = Returned (Plugged p) ->
  exists best_scope source0 st,
    best_scopes o transforms fuel sources ∅ = Some best_scope /\
    bad_sinks p = List.filter (is_bad best_scope) sinks /\
    good_sinks p = good_of best_scope sinks /\
    good_sinks p <> [] /\
    last sources = Some source0 /\
    usable_sources (good_sinks p) sources <> [] /\
    search_loop o transforms fuel (sink_types_of (good_sinks p))
                (search_start (good_sinks p) sources source0) = Some st /\
    match pipes_to_run st with
    | Some seq => to_run p = Some seq
    | None => exists st2,
        combine_pipes o fuel (sink_types_of (good_sinks p)) st = Some st2 /\
        to_run p = pipes_to_run2 st2
    end.
Proof.
  unfold plan_pipes. destruct sinks as [|s0 sinks'] eqn:Es; [done|].
  cbv match. rewrite <- Es. clear Es.
  destruct (best_scopes o transforms fuel sources ∅) as [best_scope|] eqn:Eb;
    [|done].
  fold (good_of best_scope sinks).
  destruct (good_of best_scope sinks) as [|g good'] eqn:Egood; [done|].
  destruct (last sources) as [source0|] eqn:Elast; [|done].
  fold (usable_sources (g :: good') sources).
  destruct (usable_sources (g :: good') sources) as [|u us] eqn:Eus; [done|].
  fold (sink_types_of (g :: good')).
  destruct (search_loop o transforms fuel (sink_types_of (g :: good')) _)
    as [st|] eqn:Eloop; [|done].
  destruct (pipes_to_run st) as [seq|] eqn:Eseq.
  - intros [= <-]. exists best_scope, source0, st. cbn [bad_sinks good_sinks to_run].
    unfold search_start. rewrite Eus, Eloop, Eseq.
    repeat split; done.
  - destruct (combine_pipes o fuel (sink_types_of (g :: good')) st)
      as [st2|] eqn:Ecomb; [|done].
    intros [= <-]. exists best_scope, source0, st.
    cbn [bad_sinks good_sinks to_run].
    unfold search_start. rewrite Eus, Eloop, Eseq.
    repeat split; try done. by exists st2.
Qed.

Lemma plan_pipes_unplugged (o : hash_order) (transforms : list transform)
      (fuel : nat) (sinks : list sink) (sources : list source)
      (u : list sink) :
  plan_pipes o transforms fuel sinks sources = Returned (Unplugged u) ->
  exists best_scope,
    best_scopes o transforms fuel sources ∅ = Some best_scope /\
    ((good_of best_scope sinks = [] \/ last sources = None) /\
     u = List.filter (is_bad best_scope) sinks \/
     (good_of best_scope sinks <> [] /\ last sources <> None /\
      usable_sources (good_of best_scope sinks) sources = [] /\
      u = List.filter (is_bad best_scope) sinks ++ good_of best_scope sinks)).
Proof.
  unfold plan_pipes. destruct sinks as [|s0 sinks'] eqn:Es; [done|].
  cbv match. rewrite <- Es. clear Es.
  destruct (best_scopes o transforms fuel sources ∅) as [best_scope|] eqn:Eb;
    [|done].
  fold (good_of best_scope sinks).
  destruct (good_of best_scope sinks) as [|g good'] eqn:Egood.
  { intros [= <-]. exists best_scope. split; [done|]. left.
    rewrite Egood. split; [by left|done]. }
  destruct (last sources) as [source0|] eqn:Elast.
  2: { intros [= <-]. exists best_scope. split; [done|]. left.
       split; [by right|done]. }
  fold (usable_sources (g :: good') sources).
  destruct (usable_sources (g :: good') sources) as [|u0 us] eqn:Eus.
  { intros [= <-]. exists best_scope. split; [done|]. right.
    rewrite Egood. repeat split; done. }
  destruct (search_loop _ _ _ _ _) as [st|]; [|done].
  destruct (pipes_to_run st); [done|].
  by destruct (combine_pipes _ _ _ _).
Qed.

(** What the first search leaves, on any input. *)
Lemma first_search (o : hash_order) (transforms : list transform)
      (fuel : nat) (good : list sink) (sources : list source)
      (source0 : source) (st : search) :
  (forall t, t ∈ transforms -> (0 <= tr_cost t)%Z) ->
  search_loop o transforms fuel (sink_types_of good)
              (search_start good sources source0) = Some st ->
  (* the plan found is a pipeline that grew from a seed *)
  match pipes_to_run st with
  | None => best_cost st = None
  | Some seq =>
      exists s ts v b,
        seq = [(s, ts)] /\ best_cost st = Some b /\
        plan_cost seq = b /\ sink_types_of good ⊆ v /\
        exists kv, kv ∈ source_map (usable_sources good sources) /\
                   rtc (grows_by transforms) (seed kv.2) (v, s, ts, b)
  end /\
  (* and no pipeline of a usable source that reaches every type is
     cheaper *)
  forall s g,
    s ∈ usable_sources good sources ->
    rtc (grows_by transforms) (seed s) g ->
    sink_types_of good ⊆ g.1.1.1 ->
    exists b, best_cost st = Some b /\ (b <= g.2)%Z.
Proof.
  intros Hcost Hloop.
  assert (Hset0 : settled transforms (sink_types_of good)
                          (search_start good sources source0)).
  { intros p Hp. by apply elem_of_nil in Hp. }
  assert (Hcoh0 : coherent (sink_types_of good)
                           (search_start good sources source0)) by done.
  destruct (search_loop_ok o transforms (sink_types_of good) fuel _ _
              Hloop Hset0 Hcoh0) as (Hset & Hcoh & Hempty & Hseeds & Horigin).
  split.
  - unfold coherent in Hcoh.
    destruct (pipes_to_run st) as [[|[s ts] [|? ?]]|];
      destruct (best_cost st) as [b|]; try done.
    destruct Hcoh as (v & Hin & Hsub).
    destruct (Horigin _ Hin) as (p0 & [Hp0|Hp0] & Hgrow);
      [by apply elem_of_nil in Hp0|].
    cbn [unprocessed search_start] in Hp0.
    apply elem_of_seeds in Hp0 as (kv & Hkv & ->).
    pose proof (well_formed_grows transforms _ _ Hgrow (well_formed_seed kv.2))
      as [Hwf _].
    exists s, ts, v, b. split; [done|]. split; [done|]. split.
    + simpl in *. lia.
    + split; [done|]. by exists kv.
  - intros s g Hs Hgrow Hcov.
    destruct (source_map_spec (usable_sources good sources)) as [Hmap _].
    destruct (Hmap s Hs) as (s0 & Hget & Hle).
    pose proof (dict_get_elem_of _ _ _ Hget) as Hin.
    destruct (source_map_spec (usable_sources good sources)) as [_ Hkeys].
    destruct (Hkeys _ _ Hin) as [_ [= Hsc Hft]].
    pose proof (grows_other_source transforms s s0 g (eq_sym Hsc) (eq_sym Hft) Hgrow)
      as Hgrow0.
    assert (Hseed : seed s0 ∈ pipes st).
    { apply Hseeds. right. cbn [unprocessed search_start].
      apply elem_of_seeds. by eexists (_, s0). }
    destruct (settled_minimal transforms (sink_types_of good) st Hcost Hset
                Hempty _ _ Hseed Hgrow0) as (b & Hb & Hle'); [done|].
    exists b. split; [done|]. simpl in Hle'. lia.
Qed.

(** ** The second search *)

Lemma dict_append_cons {K V} `{EqDecision K} (k0 : K) (v0 : list V)
      (d : list (K * list V)) (k : K) (x : V) :
  dict_append ((k0, v0) :: d) k x =
  if decide (k0 = k) then (k0, v0 ++ [x]) :: d
  else (k0, v0) :: dict_append d k x.
Proof.
  unfold dict_append. cbn [dict_get].
  destruct (decide (k0 = k)) as [->|Hne].
  - cbn [dict_set]. by rewrite decide_True.
  - destruct (dict_get d k); cbn [dict_set]; by rewrite decide_False.
Qed.

(** [x] is in the list filed under [k]. *)
Definition filed {K V} (d : list (K * list V)) (k : K) (x : V) : Prop :=
  exists l, (k, l) ∈ d /\ x ∈ l.

Lemma filed_dict_append {K V} `{EqDecision K} (d : list (K * list V))
      (k k' : K) (x x' : V) :
  filed (dict_append d k x) k' x' <-> (k' = k /\ x' = x) \/ filed d k' x'.
Proof.
  unfold filed. induction d as [|[k0 v0] d IH].
  - unfold dict_append. simpl. split.
    + intros (l & Hl & Hx). apply list_elem_of_singleton in Hl as [= -> ->].
      apply list_elem_of_singleton in Hx. by left.
    + intros [[-> ->]|(l & Hl & _)]; [|by apply elem_of_nil in Hl].
      exists [x]. split; by apply list_elem_of_singleton.
  - rewrite dict_append_cons. destruct (decide (k0 = k)) as [->|Hne].
    + split.
      * intros (l & Hl & Hx). apply elem_of_cons in Hl as [[= -> ->]|Hl].
        -- apply elem_of_app in Hx as [Hx|Hx].
           ++ right. exists v0. split; [by left|done].
           ++ apply list_elem_of_singleton in Hx. by left.
        -- right. exists l. split; [by right|done].
      * intros [[-> ->]|(l & Hl & Hx)].
        -- exists (v0 ++ [x]). split; [by left|].
           apply elem_of_app. right. by left.
        -- apply elem_of_cons in Hl as [[= -> ->]|Hl].
           ++ exists (v0 ++ [x]). split; [by left|].
              apply elem_of_app. by left.
           ++ exists l. split; [by right|done].
    + split.
      * intros (l & Hl & Hx). apply elem_of_cons in Hl as [[= -> ->]|Hl].
        -- right. exists v0. split; [by left|done].
        -- destruct (proj1 IH) as [?|(l' & Hl' & Hx')]; [by exists l|by left|].
           right. exists l'. split; [by right|done].
      * intros [Heq|(l & Hl & Hx)].
        -- destruct (proj2 IH (or_introl Heq)) as (l' & Hl' & Hx').
           exists l'. split; [by right|done].
        -- apply elem_of_cons in Hl as [[= -> ->]|Hl].
           ++ exists v0. split; [by left|done].
           ++ destruct (proj2 IH) as (l' & Hl' & Hx');
                [right; by exists l|].
              exists l'. split; [by right|done].
Qed.

(** The dict [source_to_pipes] files every pipe under its source. *)
Definition source_to_pipes_of (seen : list pipe)
  : list (source * list (gset string * gset transform * Z)) :=
  fold_left
    (fun d (p : pipe) => dict_append d p.1.1.2 (p.1.1.1, p.1.2, p.2))
    seen [].

Lemma filed_source_to_pipes (seen : list pipe) (s : source)
      (x : gset string * gset transform * Z) :
  filed (source_to_pipes_of seen) s x <-> (x.1.1, s, x.1.2, x.2) ∈ seen.
Proof.
  unfold source_to_pipes_of.
  induction seen as [|p seen IH] using rev_ind.
  - simpl. split.
    + intros (l & Hl & _). by apply elem_of_nil in Hl.
    + intros H. by apply elem_of_nil in H.
  - rewrite fold_left_app. simpl. rewrite filed_dict_append, IH.
    rewrite elem_of_app, list_elem_of_singleton.
    destruct p as [[[v s'] ts] c]. destruct x as [[xv xts] xc]. simpl.
    split.
    + intros [[-> [= -> -> ->]]|?]; [by right|by left].
    + intros [?|[= -> -> -> ->]]; [by right|by left].
Qed.

(** One more pipeline, of a source the combination does not use yet. *)
Inductive joins (avail : pipe -> Prop) : combo -> combo -> Prop :=
| join_one V S seq c v s ts c' :
    avail (v, s, ts, c') -> s ∉ S ->
    joins avail (V, S, seq, c)
          (V ∪ v, S ∪ {[s]}, seq ++ [(s, ts)], (c + c')%Z).

Lemma elem_of_grow_combo
      (d : list (source * list (gset string * gset transform * Z)))
      (next : combo) (u : list combo) (q : combo) :
  q ∈ grow_combo d next u <->
  q ∈ u \/
  exists s x, filed d s x /\ (s ∉ next.1.1.2) /\
              q = (next.1.1.1 ∪ x.1.1, next.1.1.2 ∪ {[s]},
                   next.1.2 ++ [(s, x.1.2)], (next.2 + x.2)%Z).
Proof.
  destruct next as [[[V S] seq] c]. unfold grow_combo. cbn [fst snd].
  assert (Hinner : forall (s : source) l (u : list combo),
    (q ∈ fold_left
       (fun unprocessed (p : gset string * gset transform * Z) =>
          set_add (V ∪ p.1.1, S ∪ {[s]}, seq ++ [(s, p.1.2)], (c + p.2)%Z)
                  unprocessed) l u) <->
    q ∈ u \/ exists x, x ∈ l /\
      q = (V ∪ x.1.1, S ∪ {[s]}, seq ++ [(s, x.1.2)], (c + x.2)%Z)).
  { intros s. induction l as [|x l IH]; intros u'; cbn [fold_left].
    - split; [by left|]. intros [?|(x & Hx & _)]; [done|].
      by apply elem_of_nil in Hx.
    - rewrite IH, elem_of_set_add. setoid_rewrite elem_of_cons. split.
      + intros [[->|?]|(x' & ? & ?)]; [|by left|].
        * right. exists x. auto.
        * right. exists x'. auto.
      + intros [?|(x' & [->|?] & ->)]; [by left; right|by left; left|].
        right. by exists x'. }
  revert u. unfold filed. induction d as [|[s l] d IH]; intros u; cbn [fold_left].
  - split; [by left|]. intros [?|(s & x & (l & Hl & _) & _)]; [done|].
    by apply elem_of_nil in Hl.
  - rewrite IH. clear IH. cbn [fst snd].
    case_bool_decide as Hs.
    + split.
      * intros [?|(s' & x & (l' & Hl' & Hx) & Hns & ->)]; [by left|].
        right. exists s', x. split; [|done]. exists l'. split; [by right|done].
      * intros [?|(s' & x & (l' & Hl' & Hx) & Hns & ->)]; [by left|].
        apply elem_of_cons in Hl' as [[= -> ->]|Hl']; [done|].
        right. exists s', x. split; [|done]. by exists l'.
    + rewrite Hinner. split.
      * intros [[?|(x & Hx & ->)]|(s' & x & (l' & Hl' & Hx) & Hns & ->)].
        -- by left.
        -- right. exists s, x. split; [|done]. exists l. split; [by left|done].
        -- right. exists s', x. split; [|done]. exists l'. split; [by right|done].
      * intros [?|(s' & x & (l' & Hl' & Hx) & Hns & ->)]; [by left; left|].
        apply elem_of_cons in Hl' as [[= -> ->]|Hl'].
        -- left. right. by exists x.
        -- right. exists s', x. split; [|done]. by exists l'.
Qed.

Lemma elem_of_grow_combo_joins (seen : list pipe) (next : combo)
      (u : list combo) (q : combo) :
  q ∈ grow_combo (source_to_pipes_of seen) next u <->
  q ∈ u \/ joins (.∈ seen) next q.
Proof.
  rewrite elem_of_grow_combo. split.
  - intros [?|(s & x & Hf & Hs & ->)]; [by left|]. right.
    apply filed_source_to_pipes in Hf.
    destruct next as [[[V S] seq] c]. by constructor.
  - intros [?|Hj]; [by left|]. right.
    inversion Hj as [V S seq c v s ts c' Hin Hs]; subst.
    exists s, (v, ts, c'). split; [by apply filed_source_to_pipes|done].
Qed.

Section Combine.

Variable o : hash_order.
Variable seen : list pipe.
Variable sink_types : gset string.

Abbreviation source_to_pipes := (source_to_pipes_of seen).

(** The combination reaches every feed type some reachable sink wants. *)
Definition covers2 (p : combo) : Prop := sink_types ⊆ p.1.1.1.

(** The combination of one pipe. *)
Definition single (p : pipe) : combo :=
  (p.1.1.1, {[p.1.1.2]}, [(p.1.1.2, p.1.2)], p.2).

Definition settled2 (st : combine) : Prop :=
  forall p, p ∈ done st ->
    (exists b, best_cost2 st = Some b /\ (b <= p.2)%Z) \/
    (~ covers2 p /\
     forall q, joins (.∈ seen) p q -> q ∈ done st \/ q ∈ unprocessed2 st).

Definition coherent2 (st : combine) : Prop :=
  match pipes_to_run2 st, best_cost2 st with
  | None, None => True
  | Some seq, Some b =>
      exists V S, (V, S, seq, b) ∈ done st /\ sink_types ⊆ V
  | _, _ => False
  end.

Definition known2 (st : combine) (p : combo) : Prop :=
  p ∈ done st \/ p ∈ unprocessed2 st.

Lemma combine_step_ok (st : combine) (next : combo) (rest : list combo) :
  (forall y, y ∈ unprocessed2 st <-> y = next \/ y ∈ rest) ->
  settled2 st -> coherent2 st ->
  settled2 (combine_step source_to_pipes sink_types next rest st) /\
  coherent2 (combine_step source_to_pipes sink_types next rest st) /\
  (forall p, known2 st p ->
             known2 (combine_step source_to_pipes sink_types next rest st) p) /\
  (forall p, known2 (combine_step source_to_pipes sink_types next rest st) p ->
             known2 st p \/ joins (.∈ seen) next p).
Proof.
  intros Hel Hset Hcoh. unfold combine_step.
  case_bool_decide as Hdone.
  { (* [continue] *)
    split; [|split; [|split]].
    - intros p Hp. cbn [done best_cost2 unprocessed2] in *.
      destruct (Hset p Hp) as [?|[Hnc Hsucc]]; [by left|]. right.
      split; [done|]. intros q Hq.
      destruct (Hsucc q Hq) as [?|Hu]; [by left|].
      apply Hel in Hu as [->|?]; [by left|by right].
    - done.
    - intros p [?|Hu]; [by left|].
      apply Hel in Hu as [->|?]; [by left|by right].
    - intros p [?|?]; left; [by left|]. right. apply Hel. by right. }
  destruct next as [[[V S] seq] c]. cbv beta iota zeta.
  set (found := bool_decide (sink_types ⊆ V) && improves (best_cost2 st) c).
  set (best' := if found then Some c else best_cost2 st).
  set (run' := if found then Some seq else pipes_to_run2 st).
  assert (Hbest : forall b, best_cost2 st = Some b ->
                            exists b', best' = Some b' /\ (b' <= b)%Z).
  { intros b Hb. unfold best'. destruct found eqn:Hf.
    - exists c. split; [done|]. unfold found in Hf.
      apply andb_true_iff in Hf as [_ Hi]. rewrite Hb in Hi. simpl in Hi.
      apply Z.ltb_lt in Hi. lia.
    - exists b. split; [done|lia]. }
  assert (Hcoh' :
            match run', best' with
            | None, None => True
            | Some seq', Some b =>
                exists V' S', (V', S', seq', b) ∈ set_add (V, S, seq, c) (done st)
                              /\ sink_types ⊆ V'
            | _, _ => False
            end).
  { unfold run', best'. destruct found eqn:Hf.
    - unfold found in Hf. apply andb_true_iff in Hf as [Hc _].
      apply bool_decide_eq_true in Hc. exists V, S. split; [|done].
      apply elem_of_set_add. by left.
    - unfold coherent2 in Hcoh.
      destruct (pipes_to_run2 st), (best_cost2 st); try done.
      destruct Hcoh as (V' & S' & Hin & Hsub). exists V', S'. split; [|done].
      apply elem_of_set_add. by right. }
  assert (Hold : forall p, p ∈ done st ->
            (exists b, best' = Some b /\ (b <= p.2)%Z) \/
            (~ covers2 p /\
             forall q, joins (.∈ seen) p q ->
               q ∈ set_add (V, S, seq, c) (done st) \/ q ∈ rest)).
  { intros p Hp. destruct (Hset p Hp) as [(b & Hb & Hle)|[Hnc Hsucc]].
    - left. destruct (Hbest b Hb) as (b' & Hb' & Hle'). exists b'.
      split; [done|lia].
    - right. split; [done|]. intros q Hq.
      destruct (Hsucc q Hq) as [?|Hu].
      + left. apply elem_of_set_add. by right.
      + apply Hel in Hu as [->|?]; [|by right].
        left. apply elem_of_set_add. by left. }
  destruct (hopeless best' c) eqn:Hh.
  - (* no successors are added *)
    split; [|split; [|split]].
    + intros p Hp. cbn [done best_cost2 unprocessed2] in *.
      apply elem_of_set_add in Hp as [->|Hp]; [|by apply Hold].
      left. unfold hopeless in Hh. destruct best' as [b|]; [|done].
      exists b. split; [done|]. apply Z.leb_le in Hh. done.
    + done.
    + intros p [Hp|Hu].
      * left. apply elem_of_set_add. by right.
      * apply Hel in Hu as [->|?]; [|by right].
        left. apply elem_of_set_add. by left.
    + intros p [Hp|Hu]; left.
      * cbn [done] in Hp. apply elem_of_set_add in Hp as [->|Hp]; [|by left].
        right. apply Hel. by left.
      * right. apply Hel. by right.
  - assert (Hnf : found = false).
    { destruct found eqn:Hf; [|done]. exfalso. unfold best' in Hh.
      try rewrite Hf in Hh. simpl in Hh. apply Z.leb_gt in Hh. lia. }
    assert (Hb' : best' = best_cost2 st) by (unfold best'; by rewrite Hnf).
    assert (Hnc : ~ sink_types ⊆ V).
    { intros Hc. rewrite Hb' in Hh. unfold found in Hnf.
      rewrite (bool_decide_eq_true_2 _ Hc) in Hnf. simpl in Hnf.
      unfold improves in Hnf. unfold hopeless in Hh.
      destruct (best_cost2 st) as [b|]; [|done].
      apply Z.ltb_ge in Hnf. apply Z.leb_gt in Hh. lia. }
    split; [|split; [|split]].
    + intros p Hp. cbn [done best_cost2 unprocessed2] in *.
      apply elem_of_set_add in Hp as [->|Hp].
      * right. split; [done|]. intros q Hq. right.
        apply elem_of_grow_combo_joins. by right.
      * destruct (Hold p Hp) as [?|[Hncp Hsucc]]; [by left|]. right.
        split; [done|]. intros q Hq.
        destruct (Hsucc q Hq) as [?|?]; [by left|]. right.
        apply elem_of_grow_combo_joins. by left.
    + done.
    + intros p [Hp|Hu].
      * left. apply elem_of_set_add. by right.
      * apply Hel in Hu as [->|?].
        -- left. apply elem_of_set_add. by left.
        -- right. apply elem_of_grow_combo_joins. by left.
    + intros p [Hp|Hu].
      * cbn [done] in Hp. apply elem_of_set_add in Hp as [->|Hp].
        -- left. right. apply Hel. by left.
        -- left. by left.
      * cbn [unprocessed2] in Hu.
        apply elem_of_grow_combo_joins in Hu as [?|?]; [|by right].
        left. right. apply Hel. by right.
Qed.

Lemma combine_loop_ok (fuel : nat) :
  forall st st',
    combine_loop o fuel source_to_pipes sink_types st = Some st' ->
    settled2 st -> coherent2 st ->
    settled2 st' /\ coherent2 st' /\ unprocessed2 st' = [] /\
    (forall p, known2 st p -> p ∈ done st') /\
    (forall p, p ∈ done st' ->
               exists p0, known2 st p0 /\ rtc (joins (.∈ seen)) p0 p).
Proof.
  induction fuel as [|fuel IH]; intros st st' H Hset Hcoh; [done|].
  cbn [combine_loop] in H.
  destruct (set_pop (pick_combo o fuel) (unprocessed2 st))
    as [[next rest]|] eqn:Epop.
  - destruct (set_pop_Some _ _ _ _ Epop) as [Hel _].
    destruct (combine_step_ok st next rest Hel Hset Hcoh)
      as (S1 & S2 & S3 & S4).
    destruct (IH _ _ H S1 S2) as (I1 & I2 & I3 & I4 & I5).
    split; [done|]. split; [done|]. split; [done|]. split.
    + intros p Hp. apply I4. by apply S3.
    + intros p Hp. destruct (I5 p Hp) as (p0 & Hk & Hr).
      destruct (S4 p0 Hk) as [?|Hg]; [by exists p0|].
      exists next. split.
      * right. apply Hel. by left.
      * by eapply rtc_l.
  - apply set_pop_None in Epop. injection H as <-.
    split; [done|]. split; [done|]. split; [done|]. split.
    + intros p [?|Hu]; [done|]. rewrite Epop in Hu. by apply elem_of_nil in Hu.
    + intros p Hp. exists p. split; [by left|done].
Qed.

Lemma joins_cost (p q : combo) :
  (forall x, x ∈ seen -> (0 <= x.2)%Z) ->
  rtc (joins (.∈ seen)) p q -> (p.2 <= q.2)%Z.
Proof.
  intros Hcost. induction 1 as [|p q r Hpq _ IH]; [done|].
  inversion Hpq as [V S seq c v s ts c' Hin Hs]; subst.
  specialize (Hcost _ Hin). simpl in *. lia.
Qed.

(** When the loop is over, no combination that grows out of one in
    [done] and reaches every sink type is cheaper than [best_cost]. *)
Lemma settled2_minimal (st : combine) :
  (forall x, x ∈ seen -> (0 <= x.2)%Z) ->
  settled2 st -> unprocessed2 st = [] ->
  forall p g, p ∈ done st -> rtc (joins (.∈ seen)) p g -> covers2 g ->
              exists b, best_cost2 st = Some b /\ (b <= g.2)%Z.
Proof.
  intros Hcost Hset Hempty p g Hp Hrtc Hcov.
  induction Hrtc as [p|p q g Hpq Hqg IH].
  - destruct (Hset p Hp) as [?|[Hnc _]]; done.
  - destruct (Hset p Hp) as [(b & Hb & Hle)|[_ Hsucc]].
    + exists b. split; [done|].
      pose proof (joins_cost p g Hcost (rtc_l _ _ _ _ Hpq Hqg)). lia.
    + apply IH; [|done]. destruct (Hsucc q Hpq) as [?|Hu]; [done|].
      rewrite Hempty in Hu. by apply elem_of_nil in Hu.
Qed.

(** The cost of a combination is the cost of its pipelines. *)
Lemma joins_plan_cost (p q : combo) :
  (forall x, x ∈ seen -> x.2 = pipeline_cost (x.1.1.2, x.1.2)) ->
  rtc (joins (.∈ seen)) p q -> plan_cost p.1.2 = p.2 -> plan_cost q.1.2 = q.2.
Proof.
  intros Hwf. induction 1 as [|p q r Hpq _ IH]; [done|].
  intros Hp. apply IH.
  inversion Hpq as [V S seq c v s ts c' Hin Hs]; subst.
  specialize (Hwf _ Hin). simpl in *. subst c.
  unfold plan_cost. rewrite fold_right_app. simpl.
  rewrite Hwf. clear. induction seq as [|x seq IH]; simpl; [lia|].
  rewrite IH. lia.
Qed.

End Combine.

(** ** The two searches together *)

(** The pipes the first search can build: what grows from the seed of a
    source of [source_map]. *)
Definition available (transforms : list transform) (good : list sink)
           (sources : list source) (p : pipe) : Prop :=
  exists kv, kv ∈ source_map (usable_sources good sources) /\
             rtc (grows_by transforms) (seed kv.2) p.

Lemma available_source transforms good sources p :
  available transforms good sources p ->
  p.1.1.2 ∈ usable_sources good sources /\
  rtc (grows_by transforms) (seed p.1.1.2) p.
Proof.
  intros ([k s0] & Hkv & Hgrow).
  pose proof (grows_source transforms _ _ Hgrow) as Hs. simpl in Hs.
  rewrite Hs. split; [|done].
  destruct (source_map_spec (usable_sources good sources)) as [_ Hkeys].
  by destruct (Hkeys _ _ Hkv).
Qed.

Lemma elem_of_usable_sources good sources s :
  s ∈ usable_sources good sources ->
  s ∈ sources /\ (min_scope good <= src_scope s)%nat.
Proof.
  unfold usable_sources. intros H.
  apply list_elem_of_In, filter_In in H as [H1 H2].
  split; [by apply list_elem_of_In|by apply Nat.leb_le].
Qed.

Lemma available_well_formed transforms good sources p :
  available transforms good sources p ->
  p.2 = pipeline_cost (p.1.1.2, p.1.2).
Proof.
  intros (kv & _ & Hgrow).
  by destruct (well_formed_grows transforms _ _ Hgrow (well_formed_seed kv.2)).
Qed.

Lemma available_cost transforms good sources p :
  (forall t, t ∈ transforms -> (0 <= tr_cost t)%Z) ->
  (forall s, s ∈ sources -> (0 <= src_cost s)%Z) ->
  available transforms good sources p -> (0 <= p.2)%Z.
Proof.
  intros Hcost Hsrc Hp.
  destruct (available_source _ _ _ _ Hp) as [Hin Hgrow].
  apply elem_of_usable_sources in Hin as [Hin _].
  pose proof (grows_cost transforms Hcost _ _ Hgrow) as Hle.
  specialize (Hsrc _ Hin). simpl in Hle. lia.
Qed.

(** When the first search finds no pipeline, it has seen every pipe
    there is. *)
Lemma first_search_none (o : hash_order) (transforms : list transform)
      (fuel : nat) (good : list sink) (sources : list source)
      (source0 : source) (st : search) :
  search_loop o transforms fuel (sink_types_of good)
              (search_start good sources source0) = Some st ->
  pipes_to_run st = None ->
  best_cost st = None /\
  (forall p, p ∈ pipes st <-> available transforms good sources p) /\
  (forall p, p ∈ pipes st -> ~ sink_types_of good ⊆ p.1.1.1).
Proof.
  intros Hloop Hnone.
  assert (Hset0 : settled transforms (sink_types_of good)
                          (search_start good sources source0)).
  { intros p Hp. by apply elem_of_nil in Hp. }
  assert (Hcoh0 : coherent (sink_types_of good)
                           (search_start good sources source0)) by done.
  destruct (search_loop_ok o transforms (sink_types_of good) fuel _ _
              Hloop Hset0 Hcoh0) as (Hset & Hcoh & Hempty & Hseeds & Horigin).
  assert (Hb : best_cost st = None).
  { unfold coherent in Hcoh. rewrite Hnone in Hcoh.
    by destruct (best_cost st). }
  split; [done|]. split; [intros p; split|].
  - intros Hp. destruct (Horigin p Hp) as (p0 & [Hp0|Hp0] & Hgrow);
      [by apply elem_of_nil in Hp0|].
    cbn [unprocessed search_start] in Hp0.
    apply elem_of_seeds in Hp0 as (kv & Hkv & ->). by exists kv.
  - intros (kv & Hkv & Hgrow).
    assert (Hseed : seed kv.2 ∈ pipes st).
    { apply Hseeds. right. cbn [unprocessed search_start].
      apply elem_of_seeds. by exists kv. }
    induction Hgrow as [a|a b c Hab _ IH]; [done|].
    apply IH. destruct (Hset a Hseed) as [(b0 & Hb' & _)|[_ Hsucc]];
      [congruence|].
    destruct (Hsucc b Hab) as [?|Hu]; [done|].
    rewrite Hempty in Hu. by apply elem_of_nil in Hu.
  - intros p Hp. destruct (Hset p Hp) as [(b & Hb' & _)|[Hnc _]];
      [congruence|done].
Qed.

Lemma elem_of_singles (seen : list pipe) (q : combo) :
  q ∈ fold_left
        (fun u (p : pipe) =>
           set_add (p.1.1.1, ({[p.1.1.2]} : gset source),
                    [(p.1.1.2, p.1.2)], p.2) u) seen [] <->
  exists p, p ∈ seen /\ q = single p.
Proof.
  assert (H : forall u,
    (q ∈ fold_left
       (fun u (p : pipe) =>
          set_add (p.1.1.1, ({[p.1.1.2]} : gset source),
                   [(p.1.1.2, p.1.2)], p.2) u) seen u) <->
    q ∈ u \/ exists p, p ∈ seen /\ q = single p).
  { induction seen as [|p seen IH]; intros u; cbn [fold_left].
    - split; [by left|]. intros [?|(p & Hp & _)]; [done|].
      by apply elem_of_nil in Hp.
    - rewrite IH, elem_of_set_add. setoid_rewrite elem_of_cons. split.
      + intros [[->|?]|(p' & ? & ?)]; [|by left|].
        * right. exists p. split; [by left|done].
        * right. exists p'. split; [by right|done].
      + intros [?|(p' & [->|?] & ->)]; [by left; right|by left; left|].
        right. by exists p'. }
  rewrite H. split; [intros [Hn|?]; [by apply elem_of_nil in Hn|done]|by right].
Qed.

Lemma joins_subrel (P Q : pipe -> Prop) (p q : combo) :
  (forall x, P x -> Q x) -> rtc (joins P) p q -> rtc (joins Q) p q.
Proof.
  intros HPQ. apply rtc_subrel. intros x y Hxy.
  inversion Hxy; subst. constructor; auto.
Qed.

Lemma joins_length (P : pipe -> Prop) (p q : combo) :
  rtc (joins P) p q -> p = q \/ (length p.1.2 < length q.1.2)%nat.
Proof.
  induction 1 as [|p q r Hpq _ IH]; [by left|]. right.
  inversion Hpq; subst. simpl in *.
  destruct IH as [<-|IH]; simpl in *; rewrite ?length_app in *; simpl in *; lia.
Qed.

(** What the second search leaves. *)
Lemma second_search (o : hash_order) (transforms : list transform)
      (fuel : nat) (good : list sink) (sources : list source)
      (source0 : source) (st : search) (st2 : combine) :
  search_loop o transforms fuel (sink_types_of good)
              (search_start good sources source0) = Some st ->
  pipes_to_run st = None ->
  combine_pipes o fuel (sink_types_of good) st = Some st2 ->
  (* the plan found is a combination of pipes of the first search *)
  match pipes_to_run2 st2 with
  | None => best_cost2 st2 = None
  | Some seq =>
      exists V S b p,
        best_cost2 st2 = Some b /\ plan_cost seq = b /\
        sink_types_of good ⊆ V /\
        available transforms good sources p /\
        rtc (joins (available transforms good sources)) (single p)
            (V, S, seq, b) /\
        (1 < length seq)%nat
  end /\
  (* and no combination that reaches every type is cheaper *)
  ((forall t, t ∈ transforms -> (0 <= tr_cost t)%Z) ->
   (forall s, s ∈ sources -> (0 <= src_cost s)%Z) ->
   forall p q,
     available transforms good sources p ->
     rtc (joins (available transforms good sources)) (single p) q ->
     sink_types_of good ⊆ q.1.1.1 ->
     exists b, best_cost2 st2 = Some b /\ (b <= q.2)%Z).
Proof.
  intros Hloop Hnone Hcomb.
  destruct (first_search_none _ _ _ _ _ _ _ Hloop Hnone)
    as (Hb & Hpipes & Hnocover).
  unfold combine_pipes in Hcomb. rewrite Hnone, Hb in Hcomb.
  set (seen := set_iter (pick_pipe o) (pipes st)) in *.
  fold (source_to_pipes_of seen) in Hcomb.
  assert (Hseen : forall x, x ∈ seen <-> available transforms good sources x).
  { intros x. unfold seen. by rewrite elem_of_set_iter, Hpipes. }
  match type of Hcomb with
  | combine_loop _ _ _ _ ?s = _ => set (start := s) in *
  end.
  assert (Hset0 : settled2 seen (sink_types_of good) start).
  { intros p Hp. by apply elem_of_nil in Hp. }
  assert (Hcoh0 : coherent2 (sink_types_of good) start) by done.
  destruct (combine_loop_ok o seen (sink_types_of good) fuel _ _
              Hcomb Hset0 Hcoh0) as (Hset & Hcoh & Hempty & Hstart & Horigin).
  assert (Hwf : forall x, x ∈ seen -> x.2 = pipeline_cost (x.1.1.2, x.1.2)).
  { intros x Hx. apply Hseen in Hx. by eapply available_well_formed. }
  split.
  - unfold coherent2 in Hcoh.
    destruct (pipes_to_run2 st2) as [seq|]; destruct (best_cost2 st2) as [b|];
      try done.
    destruct Hcoh as (V & S & Hin & Hsub).
    destruct (Horigin _ Hin) as (q0 & [Hq0|Hq0] & Hj);
      [by apply elem_of_nil in Hq0|].
    cbn [unprocessed2 start] in Hq0.
    apply elem_of_singles in Hq0 as (p & Hp & ->).
    exists V, S, b, p. split; [done|]. split.
    + apply (joins_plan_cost seen _ _ Hwf Hj). simpl.
      rewrite (Hwf p Hp). unfold plan_cost. simpl. lia.
    + split; [done|]. split; [by apply Hseen|]. split.
      * eapply joins_subrel; [|exact Hj]. intros x. apply Hseen.
      * destruct (joins_length _ _ _ Hj) as [Heq|Hlt]; [|done].
        exfalso. injection Heq as <- _ _ _.
        apply (Hnocover p); [|done]. apply Hpipes. by apply Hseen.
  - intros Hcost Hsrc p q Hp Hj Hcov.
    assert (Hpos : forall x, x ∈ seen -> (0 <= x.2)%Z).
    { intros x Hx. apply Hseen in Hx. by eapply available_cost. }
    assert (Hd : single p ∈ done st2).
    { apply Hstart. right. cbn [unprocessed2 start].
      apply elem_of_singles. exists p. split; [by apply Hseen|done]. }
    eapply (settled2_minimal seen (sink_types_of good) st2 Hpos Hset Hempty);
      [exact Hd| |exact Hcov].
    eapply joins_subrel; [|exact Hj]. intros x. apply Hseen.
Qed.

(** ** Alternative plans *)

(** The feed types a pipeline reaches. *)
Definition visits (alt : source * gset transform) : gset string :=
  {[src_feed_type alt.1]} ∪ set_map tr_dest alt.2.

Lemma grows_visits transforms (s : source) (p : pipe) :
  rtc (grows_by transforms) (seed s) p -> p.1.1.1 = visits (s, p.1.2).
Proof.
  revert p. apply rtc_ind_r.
  - unfold visits, seed. simpl. set_solver.
  - intros y z _ Hyz IH. inversion Hyz; subst. unfold visits in *.
    simpl in *. rewrite IH, set_map_union_L, set_map_singleton_L. set_solver.
Qed.

Lemma grows_visited_mono transforms (p q : pipe) :
  rtc (grows_by transforms) p q -> p.1.1.1 ⊆ q.1.1.1.
Proof.
  induction 1 as [|p q r Hpq _ IH]; [done|].
  inversion Hpq; subst. simpl in *. set_solver.
Qed.

(** A pipeline of the plan [alts] can feed the sink [k]. *)
Definition drives (alt : source * gset transform) (k : sink) : Prop :=
  (sink_scope k <= src_scope alt.1)%nat /\ sink_feed_type k ∈ visits alt.

(** An alternative plan: pipelines of sources of the input, each grown
    by transforms of the input, such that every reachable sink can be
    fed by one of them. *)
Definition alternative_plan (transforms : list transform)
           (sources : list source) (good : list sink)
           (alts : list (source * gset transform)) : Prop :=
  (forall alt, alt ∈ alts ->
     alt.1 ∈ sources /\
     exists v c, rtc (grows_by transforms) (seed alt.1) (v, alt.1, alt.2, c)) /\
  forall k, k ∈ good -> exists alt, alt ∈ alts /\ drives alt k.

(** Two pipelines of one source make one that reaches what either
    reaches, and costs no more than both. *)
Lemma merge_pipes transforms (s : source) (p1 p2 : pipe) :
  (forall t, t ∈ transforms -> (0 <= tr_cost t)%Z) ->
  rtc (grows_by transforms) (seed s) p1 ->
  rtc (grows_by transforms) (seed s) p2 ->
  exists p, rtc (grows_by transforms) (seed s) p /\
            p.1.1.1 = p1.1.1.1 ∪ p2.1.1.1 /\
            (p.2 + src_cost s <= p1.2 + p2.2)%Z.
Proof.
  intros Hcost H1. revert p2. apply rtc_ind_r.
  - exists p1. split; [done|]. split; [|simpl; lia].
    pose proof (grows_visited_mono _ _ _ H1) as Hm. simpl in *. set_solver.
  - intros y z Hsy Hyz (p & Hp & Hv & Hc).
    pose proof (grows_source _ _ _ Hsy) as Hys.
    pose proof (grows_source _ _ _ Hp) as Hps.
    inversion Hyz as [v s' ts c t Ht Hsc Hin Hout]; subst.
    destruct p as [[[pv ps] pts] pc]. simpl in *. subst s' ps.
    specialize (Hcost t Ht).
    destruct (decide (tr_dest t ∈ pv)) as [Hd|Hd].
    + exists (pv, s, pts, pc). split; [done|]. simpl. split; [|lia].
      set_solver.
    + exists (pv ∪ {[tr_dest t]}, s, pts ∪ {[t]}, (pc + tr_cost t)%Z).
      split; [|simpl; split; [set_solver|lia]].
      eapply rtc_r; [exact Hp|]. constructor; [done|done| |done].
      set_solver.
Qed.

Definition srcs (L : list pipe) : list source := List.map (fun p => p.1.1.2) L.

Definition visited_all (L : list pipe) : gset string :=
  fold_right (fun (p : pipe) acc => p.1.1.1 ∪ acc) ∅ L.

Definition cost_sum (L : list pipe) : Z :=
  fold_right (fun (p : pipe) acc => (p.2 + acc)%Z) 0%Z L.

Section Normal.

Variable transforms : list transform.
Variable good : list sink.
Variable sources : list source.

Hypothesis costs_nonneg : forall t, t ∈ transforms -> (0 <= tr_cost t)%Z.
Hypothesis sources_nonneg : forall s, s ∈ sources -> (0 <= src_cost s)%Z.

Abbreviation available := (available transforms good sources).

(** One more pipeline for a plan of pipelines of different sources. *)
Lemma add_pipe (p0 : pipe) (L : list pipe) :
  available p0 -> Forall available L -> NoDup (srcs L) ->
  exists L', Forall available L' /\ NoDup (srcs L') /\
             (forall s, s ∈ srcs L' -> s ∈ srcs L \/ s = p0.1.1.2) /\
             visited_all L ∪ p0.1.1.1 ⊆ visited_all L' /\
             (cost_sum L' <= cost_sum L + p0.2)%Z.
Proof.
  intros Hp0. induction L as [|p L IH]; intros HL Hnd.
  - exists [p0]. split; [by constructor|]. split.
    + simpl. apply NoDup_singleton.
    + split; [|split; [simpl; set_solver|simpl; lia]].
      intros s Hs. simpl in Hs. apply list_elem_of_singleton in Hs. by right.
  - apply Forall_cons in HL as [Hp HL]. simpl in Hnd.
    apply NoDup_cons in Hnd as [Hnin Hnd].
    destruct (decide (p.1.1.2 = p0.1.1.2)) as [Heq|Hne].
    + destruct (available_source _ _ _ _ Hp) as [Hin Hg].
      destruct (available_source _ _ _ _ Hp0) as [_ Hg0].
      rewrite <- Heq in Hg0.
      destruct (merge_pipes _ _ _ _ costs_nonneg Hg Hg0) as (q & Hq & Hv & Hc).
      pose proof (grows_source _ _ _ Hq) as Hqs. simpl in Hqs.
      destruct Hp as (kv & Hkv & Hgk).
      pose proof (grows_source _ _ _ Hgk) as Hks. simpl in Hks.
      exists (q :: L). split.
      * constructor; [|done]. exists kv. split; [done|]. by rewrite <- Hks.
      * split; [simpl; rewrite Hqs; by constructor|].
        split; [|split].
        -- intros s Hs. left. simpl in *. by rewrite Hqs in Hs.
        -- simpl. rewrite Hv. set_solver.
        -- simpl. apply elem_of_usable_sources in Hin as [Hin _].
           specialize (sources_nonneg _ Hin). lia.
    + destruct (IH HL Hnd) as (L' & HL' & Hnd' & Hs' & Hv' & Hc').
      exists (p :: L'). split; [by constructor|]. split.
      * simpl. constructor; [|done]. intros Hin.
        destruct (Hs' _ Hin) as [?|?]; done.
      * split; [|split].
        -- intros s Hs. simpl in Hs. apply elem_of_cons in Hs as [->|Hs].
           ++ left. by left.
           ++ destruct (Hs' _ Hs) as [?|?]; [left; by right|by right].
        -- simpl. set_solver.
        -- simpl. lia.
Qed.

(** A pipeline of a usable source is no cheaper than the pipe the
    search has for the same feed types. *)
Lemma to_available (s : source) (g : pipe) :
  s ∈ usable_sources good sources ->
  rtc (grows_by transforms) (seed s) g ->
  exists p, available p /\ p.1.1.1 = g.1.1.1 /\ (p.2 <= g.2)%Z.
Proof.
  intros Hs Hgrow.
  destruct (source_map_spec (usable_sources good sources)) as [Hmap Hkeys].
  destruct (Hmap s Hs) as (s0 & Hget & Hle).
  pose proof (dict_get_elem_of _ _ _ Hget) as Hin.
  destruct (Hkeys _ _ Hin) as [_ [= Hsc Hft]].
  pose proof (grows_other_source transforms s s0 g (eq_sym Hsc) (eq_sym Hft) Hgrow)
    as Hgrow0.
  eexists. split; [by eexists (_, s0)|]. simpl. split; [done|lia].
Qed.

Lemma pipeline_cost_nonneg (alt : source * gset transform) v c :
  alt.1 ∈ sources ->
  rtc (grows_by transforms) (seed alt.1) (v, alt.1, alt.2, c) ->
  c = pipeline_cost alt /\ (0 <= c)%Z.
Proof.
  intros Hin Hgrow.
  pose proof (well_formed_grows transforms _ _ Hgrow (well_formed_seed alt.1))
    as [Hwf _].
  pose proof (grows_cost transforms costs_nonneg _ _ Hgrow) as Hle.
  specialize (sources_nonneg _ Hin). simpl in *. destruct alt. simpl in *.
  split; [done|lia].
Qed.

(** The pipelines of a plan that have a usable source, as pipes of the
    first search, one per source. *)
Lemma normal_plan (alts : list (source * gset transform)) :
  (forall alt, alt ∈ alts ->
     alt.1 ∈ sources /\
     exists v c, rtc (grows_by transforms) (seed alt.1) (v, alt.1, alt.2, c)) ->
  exists L, Forall available L /\ NoDup (srcs L) /\
            (cost_sum L <= plan_cost alts)%Z /\
            forall alt, alt ∈ alts -> alt.1 ∈ usable_sources good sources ->
                        visits alt ⊆ visited_all L.
Proof.
  induction alts as [|alt alts IH]; intros Hall.
  - exists []. split; [done|]. split; [constructor|]. split; [done|].
    intros alt H. by apply elem_of_nil in H.
  - destruct IH as (L & HL & Hnd & Hc & Hv).
    { intros a Ha. apply Hall. by right. }
    destruct (Hall alt) as (Hin & v & c & Hgrow); [by left|].
    destruct (pipeline_cost_nonneg _ _ _ Hin Hgrow) as [Hpc Hpos].
    destruct (decide (alt.1 ∈ usable_sources good sources)) as [Hus|Hus].
    + destruct (to_available _ _ Hus Hgrow) as (p0 & Hp0 & Hv0 & Hc0).
      destruct (add_pipe p0 L Hp0 HL Hnd) as (L' & HL' & Hnd' & _ & Hv' & Hc').
      exists L'. split; [done|]. split; [done|]. split.
      * unfold plan_cost in *. simpl in *. lia.
      * intros a Ha Hau. apply elem_of_cons in Ha as [->|Ha].
        -- pose proof (grows_visits _ _ _ Hgrow) as Hvis. simpl in *.
           destruct alt. simpl in *. rewrite <- Hvis. set_solver.
        -- specialize (Hv a Ha Hau). set_solver.
    + exists L. split; [done|]. split; [done|]. split.
      * unfold plan_cost in *. simpl in *. lia.
      * intros a Ha Hau. apply elem_of_cons in Ha as [->|Ha]; [done|].
        by apply Hv.
Qed.

(** Pipes of different sources join into a combination. *)
Lemma joins_all (L : list pipe) :
  forall q, Forall available L -> NoDup (srcs L) ->
            (forall s, s ∈ srcs L -> s ∉ q.1.1.2) ->
  exists q', rtc (joins available) q q' /\
             q'.1.1.1 = q.1.1.1 ∪ visited_all L /\
             q'.2 = (q.2 + cost_sum L)%Z.
Proof.
  induction L as [|p L IH]; intros q HL Hnd Hfresh.
  - exists q. split; [done|]. simpl. split; [set_solver|lia].
  - apply Forall_cons in HL as [Hp HL]. simpl in Hnd.
    apply NoDup_cons in Hnd as [Hnin Hnd].
    destruct q as [[[V S] seq] c]. destruct p as [[[v s] ts] c'].
    simpl in *.
    destruct (IH (V ∪ v, S ∪ {[s]}, seq ++ [(s, ts)], (c + c')%Z) HL Hnd)
      as (q' & Hj & Hv & Hc).
    { intros s' Hs'. simpl. intros Hin. apply elem_of_union in Hin as [Hin|Hin].
      - eapply Hfresh; [|exact Hin]. by right.
      - apply elem_of_singleton in Hin as ->. done. }
    exists q'. split.
    + eapply rtc_l; [|exact Hj]. constructor; [done|].
      apply Hfresh. by left.
    + simpl in *. split; [rewrite Hv; set_solver|lia].
Qed.

(** Every alternative plan costs at least as much as some combination
    the second search goes through. *)
Lemma alternative_combo (alts : list (source * gset transform)) :
  good <> [] ->
  alternative_plan transforms sources good alts ->
  exists p q, available p /\ rtc (joins available) (single p) q /\
              sink_types_of good ⊆ q.1.1.1 /\ (q.2 <= plan_cost alts)%Z.
Proof.
  intros Hne [Hall Hdrive].
  destruct (normal_plan alts Hall) as (L & HL & Hnd & Hc & Hv).
  assert (Hcov : sink_types_of good ⊆ visited_all L).
  { intros ft Hft. unfold sink_types_of in Hft.
    apply elem_of_list_to_set, list_elem_of_fmap in Hft as (k & -> & Hk).
    destruct (Hdrive k Hk) as (alt & Halt & Hsc & Hft).
    apply (Hv alt Halt); [|done].
    destruct (Hall alt Halt) as [Hin _].
    unfold usable_sources. apply list_elem_of_In, filter_In.
    split; [by apply list_elem_of_In|]. apply Nat.leb_le.
    pose proof (min_scope_le good k Hk). lia. }
  destruct L as [|p L].
  { destruct good as [|k good']; [done|]. exfalso.
    assert (sink_feed_type k ∈ sink_types_of (k :: good')) as Hk.
    { unfold sink_types_of. simpl. set_solver. }
    apply Hcov in Hk. simpl in Hk. set_solver. }
  apply Forall_cons in HL as [Hp HL]. simpl in Hnd.
  apply NoDup_cons in Hnd as [Hnin Hnd].
  destruct (joins_all L (single p) HL Hnd) as (q & Hj & Hqv & Hqc).
  { intros s Hs. simpl. intros Hin. apply elem_of_singleton in Hin as ->. done. }
  exists p, q. split; [done|]. split; [done|]. simpl in *. split.
  - by rewrite Hqv.
  - lia.
Qed.

End Normal.

(** A plan of one pipeline is a pipeline of a usable source that
    reaches every wanted feed type. *)
Lemma single_alternative transforms sources good alt :
  good <> [] -> alternative_plan transforms sources good [alt] ->
  alt.1 ∈ usable_sources good sources /\
  exists v, rtc (grows_by transforms) (seed alt.1)
                (v, alt.1, alt.2, plan_cost [alt]) /\
            sink_types_of good ⊆ v.
Proof.
  intros Hne [Hall Hdrive].
  destruct (Hall alt) as (Hin & v & c & Hgrow); [by left|].
  pose proof (grows_visits _ _ _ Hgrow) as Hv. simpl in Hv.
  assert (Hk : forall k, k ∈ good ->
            (sink_scope k <= src_scope alt.1)%nat /\ sink_feed_type k ∈ v).
  { intros k Hk. destruct (Hdrive k Hk) as (a & Ha & Hsc & Hft).
    apply list_elem_of_singleton in Ha as ->. rewrite Hv.
    by destruct alt. }
  split.
  - unfold usable_sources. apply list_elem_of_In, filter_In.
    split; [by apply list_elem_of_In|]. apply Nat.leb_le.
    destruct good as [|k good']; [done|].
    destruct (Hk k) as [Hsc _]; [by left|].
    pose proof (min_scope_le (k :: good') k). etrans; [|exact Hsc].
    apply H. by left.
  - exists v. split.
    + pose proof (well_formed_grows transforms _ _ Hgrow (well_formed_seed alt.1))
        as [Hwf _]. simpl in Hwf.
      replace (plan_cost [alt]) with c; [done|].
      unfold plan_cost. simpl. destruct alt. simpl in *. lia.
    + intros ft Hft. unfold sink_types_of in Hft.
      apply elem_of_list_to_set, list_elem_of_fmap in Hft as (k & -> & Hk').
      by apply Hk.
Qed.

(** C2, as the code has it.  [plug] settles for one pipeline when one
    reaches every wanted feed type.  The plan it chooses costs no more
    than any alternative plan that is one pipeline; and when the plan
    chosen is not one pipeline, it costs no more than any alternative
    plan at all.  No transform has a negative cost, and for the second
    part no source has. *)
Theorem plan_cheapest
        (o : hash_order) (transforms : list transform) (fuel : nat)
        (sinks : list sink) (sources : list source) (p : plan)
        (chosen : list (source * gset transform)) :
  (forall t, t ∈ transforms -> (0 <= tr_cost t)%Z) ->
  plan_pipes o transforms fuel sinks sources = Returned (Plugged p) ->
  to_run p = Some chosen ->
  (forall alt,
     alternative_plan transforms sources (good_sinks p) [alt] ->
     (plan_cost chosen <= plan_cost [alt])%Z) /\
  ((forall s, s ∈ sources -> (0 <= src_cost s)%Z) ->
   length chosen <> 1%nat ->
   forall alts,
     alternative_plan transforms sources (good_sinks p) alts ->
     (plan_cost chosen <= plan_cost alts)%Z).
Proof.
  intros Hcost Hplan Hrun.
  destruct (plan_pipes_plugged _ _ _ _ _ _ Hplan)
    as (best_scope & source0 & st & _ & _ & _ & Hne & _ & _ & Hloop & Hseq).
  destruct (first_search _ _ _ _ _ _ _ Hcost Hloop) as [Hfound Hmin].
  split.
  - intros alt Halt.
    destruct (single_alternative _ _ _ _ Hne Halt) as (Hus & v & Hgrow & Hcov).
    destruct (Hmin _ _ Hus Hgrow Hcov) as (b & Hb & Hle). cbn [snd] in Hle.
    destruct (pipes_to_run st) as [seq|].
    + destruct Hfound as (s & ts & v0 & b0 & -> & Hb0 & Hc & _).
      rewrite Hrun in Hseq. injection Hseq as ->. rewrite Hc.
      assert (b = b0) by congruence. lia.
    + congruence.
  - intros Hsrc Hlen alts Halts.
    destruct (pipes_to_run st) as [seq|] eqn:Enone.
    { destruct Hfound as (s & ts & v0 & b0 & -> & _).
      rewrite Hrun in Hseq. by injection Hseq as ->. }
    destruct Hseq as (st2 & Hcomb & Hrun2). rewrite Hrun in Hrun2.
    destruct (second_search _ _ _ _ _ _ _ _ Hloop Enone Hcomb)
      as [Hfound2 Hmin2].
    rewrite <- Hrun2 in Hfound2.
    destruct Hfound2 as (V & S & b & p0 & Hb & Hc & _).
    destruct (alternative_combo transforms (good_sinks p) sources Hcost Hsrc
                alts Hne Halts) as (p1 & q & Hp1 & Hj & Hcov & Hle).
    destruct (Hmin2 Hcost Hsrc p1 q Hp1 Hj Hcov) as (b' & Hb' & Hle').
    assert (b' = b) by congruence. lia.
Qed.

(** C3, as the code has it.  Two runs of [plug] on the same input, with
    the hash sets iterated in any two orders: if both return, they
    return the same unreachable sinks; they find the same reachable
    sinks; and the plans chosen have the same cost, when one of them is
    a single pipeline or no source has a negative cost.  Which plan of
    that cost is chosen is up to the order of the sets. *)
Theorem plug_up_to_hash_order
        (o1 o2 : hash_order) (transforms : list transform)
        (fuel1 fuel2 : nat) (sinks : list sink) (sources : list source) :
  (forall u1 u2 result1 result2,
     plug o1 transforms fuel1 sinks sources = Returned (u1, result1) ->
     plug o2 transforms fuel2 sinks sources = Returned (u2, result2) ->
     u1 = u2) /\
  (forall p1 p2 chosen1 chosen2,
     (forall t, t ∈ transforms -> (0 <= tr_cost t)%Z) ->
     plan_pipes o1 transforms fuel1 sinks sources = Returned (Plugged p1) ->
     plan_pipes o2 transforms fuel2 sinks sources = Returned (Plugged p2) ->
     to_run p1 = Some chosen1 -> to_run p2 = Some chosen2 ->
     good_sinks p1 = good_sinks p2 /\
     (length chosen1 = 1%nat \/
      (forall s, s ∈ sources -> (0 <= src_cost s)%Z) ->
      plan_cost chosen1 = plan_cost chosen2)).
Proof.
  assert (Hbad : forall r1 r2,
            plan_pipes o1 transforms fuel1 sinks sources = Returned r1 ->
            plan_pipes o2 transforms fuel2 sinks sources = Returned r2 ->
            match r1, r2 with
            | Unplugged u1, Unplugged u2 => u1 = u2
            | Plugged p1, Plugged p2 =>
                bad_sinks p1 = bad_sinks p2 /\ good_sinks p1 = good_sinks p2
            | _, _ => False
            end).
  { intros [u1|p1] [u2|p2] H1 H2.
    - apply plan_pipes_unplugged in H1 as (bs1 & Hb1 & H1).
      apply plan_pipes_unplugged in H2 as (bs2 & Hb2 & H2).
      pose proof (best_scopes_order _ _ _ _ _ _ _ _ _ Hb1 Hb2) as <-.
      destruct H1 as [[Hc1 ->]|(Hg1 & Hl1 & Hu1 & ->)];
        destruct H2 as [[Hc2 ->]|(Hg2 & Hl2 & Hu2 & ->)]; try done.
      + destruct Hc1; done.
      + destruct Hc2; done.
    - apply plan_pipes_unplugged in H1 as (bs1 & Hb1 & H1).
      apply plan_pipes_plugged in H2
        as (bs2 & s0 & st & Hb2 & _ & Hg2 & Hne & Hl2 & Hu2 & _).
      pose proof (best_scopes_order _ _ _ _ _ _ _ _ _ Hb1 Hb2) as <-.
      rewrite Hg2 in *.
      destruct H1 as [[[Hc1|Hc1] _]|(_ & _ & Hu1 & _)]; congruence.
    - apply plan_pipes_unplugged in H2 as (bs2 & Hb2 & H2).
      apply plan_pipes_plugged in H1
        as (bs1 & s0 & st & Hb1 & _ & Hg1 & Hne & Hl1 & Hu1 & _).
      pose proof (best_scopes_order _ _ _ _ _ _ _ _ _ Hb1 Hb2) as <-.
      rewrite Hg1 in *.
      destruct H2 as [[[Hc2|Hc2] _]|(_ & _ & Hu2 & _)]; congruence.
    - apply plan_pipes_plugged in H1 as (bs1 & ? & ? & Hb1 & -> & -> & _).
      apply plan_pipes_plugged in H2 as (bs2 & ? & ? & Hb2 & -> & -> & _).
      by pose proof (best_scopes_order _ _ _ _ _ _ _ _ _ Hb1 Hb2) as <-. }
  split.
  - intros u1 u2 result1 result2 H1 H2. unfold plug in H1, H2.
    destruct (plan_pipes o1 transforms fuel1 sinks sources) as [r1| |] eqn:E1;
      try discriminate.
    destruct (plan_pipes o2 transforms fuel2 sinks sources) as [r2| |] eqn:E2;
      try discriminate.
    specialize (Hbad r1 r2 eq_refl eq_refl).
    destruct r1 as [v1|p1], r2 as [v2|p2]; try done.
    + congruence.
    + destruct Hbad as [Hb _].
      destruct (to_run p1) as [[|? ?]|]; try discriminate.
      destruct (build_all o1 _ _ _ _) as [[? [|? ?]]|]; try discriminate.
      destruct (to_run p2) as [[|? ?]|]; try discriminate.
      destruct (build_all o2 _ _ _ _) as [[? [|? ?]]|]; try discriminate.
      congruence.
  - intros p1 p2 chosen1 chosen2 Hcost H1 H2 Hrun1 Hrun2.
    destruct (Hbad _ _ H1 H2) as [_ Hgood]. split; [done|].
    intros Hcase.
    destruct (plan_pipes_plugged _ _ _ _ _ _ H1)
      as (bs1 & s1 & st1 & _ & _ & _ & Hne & _ & _ & Hloop1 & Hseq1).
    destruct (plan_pipes_plugged _ _ _ _ _ _ H2)
      as (bs2 & s2 & st2 & _ & _ & _ & _ & _ & _ & Hloop2 & Hseq2).
    rewrite <- Hgood in *.
    destruct (first_search _ _ _ _ _ _ _ Hcost Hloop1) as [Hfound1 Hmin1].
    destruct (first_search _ _ _ _ _ _ _ Hcost Hloop2) as [Hfound2 Hmin2].
    destruct (source_map_spec (usable_sources (good_sinks p1) sources))
      as [_ Hkeys].
    destruct (pipes_to_run st1) as [seq1|] eqn:E1;
      destruct (pipes_to_run st2) as [seq2|] eqn:E2.
    + (* both runs find one pipeline *)
      destruct Hfound1
        as (sa & tsa & va & ba & -> & Hba & Hca & Hcova & kva & Hkva & Hga).
      destruct Hfound2
        as (sb & tsb & vb & bb & -> & Hbb & Hcb & Hcovb & kvb & Hkvb & Hgb).
      rewrite Hrun1 in Hseq1. rewrite Hrun2 in Hseq2.
      injection Hseq1 as ->. injection Hseq2 as ->.
      destruct kva as [ka s0a], kvb as [kb s0b].
      destruct (Hkeys _ _ Hkva) as [Hina _].
      destruct (Hkeys _ _ Hkvb) as [Hinb _].
      destruct (Hmin2 _ _ Hina Hga Hcova) as (b2' & Hb2' & Hle2).
      destruct (Hmin1 _ _ Hinb Hgb Hcovb) as (b1' & Hb1' & Hle1).
      simpl in Hle1, Hle2. rewrite Hca, Hcb.
      assert (b1' = ba) by congruence. assert (b2' = bb) by congruence. lia.
    + (* one pipeline reaches every type: the other run finds one too *)
      exfalso.
      destruct Hfound1
        as (sa & tsa & va & ba & -> & Hba & Hca & Hcova & kva & Hkva & Hga).
      destruct kva as [ka s0a]. destruct (Hkeys _ _ Hkva) as [Hina _].
      destruct (Hmin2 _ _ Hina Hga Hcova) as (b2' & Hb2' & _). congruence.
    + exfalso.
      destruct Hfound2
        as (sb & tsb & vb & bb & -> & Hbb & Hcb & Hcovb & kvb & Hkvb & Hgb).
      destruct kvb as [kb s0b]. destruct (Hkeys _ _ Hkvb) as [Hinb _].
      destruct (Hmin1 _ _ Hinb Hgb Hcovb) as (b1' & Hb1' & _). congruence.
    + (* both runs combine pipelines *)
      destruct Hseq1 as (c1 & Hcomb1 & Hr1). rewrite Hrun1 in Hr1.
      destruct Hseq2 as (c2 & Hcomb2 & Hr2). rewrite Hrun2 in Hr2.
      destruct (second_search _ _ _ _ _ _ _ _ Hloop1 E1 Hcomb1)
        as [Hf1 Hm1].
      destruct (second_search _ _ _ _ _ _ _ _ Hloop2 E2 Hcomb2)
        as [Hf2 Hm2].
      rewrite <- Hr1 in Hf1. rewrite <- Hr2 in Hf2.
      destruct Hf1 as (V1 & S1 & b1 & q1 & Hb1 & Hc1 & Hcov1 & Hq1 & Hj1 & Hl1).
      destruct Hf2 as (V2 & S2 & b2 & q2 & Hb2 & Hc2 & Hcov2 & Hq2 & Hj2 & Hl2).
      destruct Hcase as [Hone|Hsrc]; [lia|].
      destruct (Hm2 Hcost Hsrc _ _ Hq1 Hj1 Hcov1) as (b2' & Hb2' & Hle2).
      destruct (Hm1 Hcost Hsrc _ _ Hq2 Hj2 Hcov2) as (b1' & Hb1' & Hle1).
      simpl in Hle1, Hle2.
      assert (b1' = b1) by congruence. assert (b2' = b2) by congruence. lia.
Qed.



(** ** Concrete planners *)

(** Three checks on one feed type, listed in ascending priority. *)
Definition versions : source := Source "versions" "cat/pkg-ver" 0 1.
Definition early : sink := Check "early" "cat/pkg-ver" 0 0.
Definition early2 : sink := Check "early2" "cat/pkg-ver" 0 0.
Definition late : sink := Check "late" "cat/pkg-ver" 0 1.

(** C1 fails on the code: the one pipeline planned for [early], [early2]
    (both of priority 0) and [late] (priority 1) feeds [late] first and
    [early] last, whatever way the sets are iterated here. *)
Theorem plug_feeds_priorities_backwards :
  plug first_order [] 5 [early; early2; late] [versions] =
    Returned ([], [(versions,
                    CheckRunner [Plain late; Plain early2; Plain early])]) /\
  plug last_order [] 5 [early; early2; late] [versions] =
    Returned ([], [(versions,
                    CheckRunner [Plain late; Plain early2; Plain early])]) /\
  feed_order (CheckRunner [Plain late; Plain early2; Plain early]) =
    [late; early2; early].
Proof. repeat split; vm_compute; reflexivity. Qed.

(** Scenario Planner-single of the spec, with a dearer second transform. *)
Definition S_ver : source := Source "S_ver" "cat/pkg-ver" 0 5.
Definition S_pkg : source := Source "S_pkg" "cat/pkg" 1 3.
Definition T : transform := TransformClass "T" "cat/pkg-ver" "cat/pkg" 0 1.
Definition T' : transform := TransformClass "T2" "cat/pkg-ver" "cat/pkg" 0 4.
Definition A : sink := Check "A" "cat/pkg-ver" 0 0.
Definition B : sink := Check "B" "cat/pkg" 0 0.

Lemma plug_partitions_sinks_witness :
  [] ++ assigned
          [(S_ver, CheckRunner [Wrapped T (CheckRunner [Plain B]); Plain A])]
  ≡ₚ [A; B].
Proof.
  apply (plug_partitions_sinks first_order [T] 10 [A; B] [S_ver; S_pkg] []
           [(S_ver, CheckRunner [Wrapped T (CheckRunner [Plain B]); Plain A])]).
  vm_compute. reflexivity.
Defined.

(** Two sources that can feed both checks on their own, and a dear
    transform between their feed types. *)
Definition SX : source := Source "SX" "X" 0 1.
Definition SY : source := Source "SY" "Y" 0 1.
Definition TXY : transform := TransformClass "TXY" "X" "Y" 0 10.
Definition KX : sink := Check "KX" "X" 0 0.
Definition KY : sink := Check "KY" "Y" 0 0.

(** C2 as stated fails: the plan chosen is the one pipeline from [SX]
    through [TXY], of cost 11, while the two pipelines [SX] and [SY]
    are an alternative plan that takes the same two checks for a cost
    of 2. *)
Lemma plug_prefers_one_dear_pipeline :
  plug first_order [TXY] 10 [KX; KY] [SX; SY] =
    Returned ([], [(SX, CheckRunner [Wrapped TXY (CheckRunner [Plain KY]);
                                     Plain KX])]) /\
  plan_cost [(SX, {[TXY]})] = 11%Z /\
  alternative_plan [TXY] [SX; SY] [KX; KY] [(SX, ∅); (SY, ∅)] /\
  build_all first_order 10 0 [(SX, ∅); (SY, ∅)] [KX; KY] =
    Some ([(SX, CheckRunner [Plain KX]); (SY, CheckRunner [Plain KY])], []) /\
  plan_cost [(SX, ∅); (SY, ∅)] = 2%Z /\
  ~ (plan_cost [(SX, {[TXY]})] <= plan_cost [(SX, ∅); (SY, ∅)])%Z.
Proof.
  split; [vm_compute; reflexivity|]. split; [vm_compute; reflexivity|].
  split.
  { split.
    - intros alt Halt. rewrite !elem_of_cons in Halt.
      rewrite elem_of_nil in Halt. destruct Halt as [->|[->|[]]].
      + split; [by left|]. exists {["X"]}, 1%Z. apply rtc_refl.
      + split; [right; by left|]. exists {["Y"]}, 1%Z. apply rtc_refl.
    - intros k Hk. rewrite !elem_of_cons in Hk. rewrite elem_of_nil in Hk.
      destruct Hk as [->|[->|[]]].
      + exists (SX, ∅). split; [by left|]. split; [simpl; lia|].
        apply elem_of_union. left. by apply elem_of_singleton.
      + exists (SY, ∅). split; [right; by left|]. split; [simpl; lia|].
        apply elem_of_union. left. by apply elem_of_singleton. }
  split; [vm_compute; reflexivity|]. split; [vm_compute; reflexivity|].
  vm_compute. intros H. by apply H.
Qed.

Lemma plan_cheapest_witness :
  (plan_cost [(SX, ∅); (SY, ∅)] <= plan_cost [(SY, ∅); (SX, ∅)])%Z.
Proof.
  refine (proj2 (plan_cheapest first_order [] 10 [KX; KY] [SX; SY]
                   {| bad_sinks := []; good_sinks := [KX; KY];
                      to_run := Some [(SX, ∅); (SY, ∅)];
                      final_source := SY |}
                   [(SX, ∅); (SY, ∅)] _ _ _) _ _ [(SY, ∅); (SX, ∅)] _).
  - intros t Ht. by apply elem_of_nil in Ht.
  - reflexivity.
  - reflexivity.
  - intros s Hs. rewrite !elem_of_cons in Hs. rewrite elem_of_nil in Hs.
    destruct Hs as [->|[->|[]]]; simpl; lia.
  - simpl. lia.
  - split.
    + intros alt Halt. rewrite !elem_of_cons in Halt.
      rewrite elem_of_nil in Halt. destruct Halt as [->|[->|[]]].
      * split; [right; by left|].
        exists {["Y"]}, 1%Z. apply rtc_refl.
      * split; [by left|].
        exists {["X"]}, 1%Z. apply rtc_refl.
    + intros k Hk. cbn [good_sinks] in Hk. rewrite !elem_of_cons in Hk.
      rewrite elem_of_nil in Hk. destruct Hk as [->|[->|[]]].
      * exists (SX, ∅). split; [right; by left|]. split; [simpl; lia|].
        apply elem_of_union. left. by apply elem_of_singleton.
      * exists (SY, ∅). split; [by left|]. split; [simpl; lia|].
        apply elem_of_union. left. by apply elem_of_singleton.
Defined.

(** Two sources of the same feed type and cost, of different scopes. *)
Definition S1 : source := Source "S1" "X" 0 1.
Definition S2 : source := Source "S2" "X" 1 1.

(** C3 as stated fails: with the same sinks, transforms and sources,
    the plan is rooted at [S1] when the first element of a set is popped
    first, and at [S2] when the last one is. *)
Lemma plug_depends_on_hash_order :
  plug first_order [] 5 [KX] [S1; S2] =
    Returned ([], [(S1, CheckRunner [Plain KX])]) /\
  plug last_order [] 5 [KX] [S1; S2] =
    Returned ([], [(S2, CheckRunner [Plain KX])]) /\
  plug first_order [] 5 [KX] [S1; S2] <> plug last_order [] 5 [KX] [S1; S2].
Proof. repeat split; vm_compute; try reflexivity. discriminate. Qed.

Lemma plug_up_to_hash_order_witness :
  plan_cost [(S1, ∅)] = plan_cost [(S2, ∅)].
Proof.
  destruct (plug_up_to_hash_order first_order last_order [] 5 5 [KX] [S1; S2])
    as [_ Hcost].
  apply (Hcost
           {| bad_sinks := []; good_sinks := [KX];
              to_run := Some [(S1, ∅)]; final_source := S2 |}
           {| bad_sinks := []; good_sinks := [KX];
              to_run := Some [(S2, ∅)]; final_source := S1 |}
           [(S1, ∅)] [(S2, ∅)]).
  - intros t Ht. by apply elem_of_nil in Ht.
  - vm_compute. reflexivity.
  - vm_compute. reflexivity.
  - reflexivity.
  - reflexivity.
  - by left.
Defined.

End PlugFacts.

(* ===================================================================== *)
(** * [RedundantVersionReport.feed] on any package set                    *)
(* ===================================================================== *)

Module CleanupFeedFacts.
Import Cleanup.
Local Open Scope list_scope.

(** [curr_set] of the loop body for [p]: the keywords that do not start
    with [-]. *)
Definition keys (p : pkg) : gset string :=
  list_to_set (List.filter (fun x => negb (startswith "-" x)) (keywords p)).

(** What goes on the stack for [p]: its keys, and [~k] for every stable
    key [k]. *)
Definition expanded (p : pkg) : gset string :=
  keys p ∪
  set_map (String.append "~") (filter (fun x => startswith "~" x = false) (keys p)).

(** The loop looks at [p]: it is not live and has a key. *)
Definition eligible (p : pkg) : bool :=
  negb (live p) && bool_decide (keys p ≠ ∅).

(** [q] overshadows [p]: same slot, and every key of [p] is a key of
    [q] or the unstable form of one. *)
Definition shadows (p q : pkg) : bool :=
  eligible q && String.eqb (slot q) (slot p) &&
  bool_decide (keys p ∖ expanded q = ∅).

(** [bad] after the packages [l], when [before] were seen already. *)
Fixpoint bad_from (before l : list pkg) : list (pkg * list pkg) :=
  match l with
  | [] => []
  | p :: rest =>
      (if eligible p
       then match List.filter (shadows p) before with
            | [] => []
            | m => [(p, m)]
            end
       else []) ++ bad_from (before ++ [p]) rest
  end.

Definition stack_of (l : list pkg) : list (pkg * gset string) :=
  List.map (fun q => (q, expanded q)) (List.filter eligible l).

Lemma matches_stack_of (p : pkg) (before : list pkg) :
  List.map fst
    (List.filter
       (fun vk : pkg * gset string =>
          String.eqb (slot vk.1) (slot p) &&
          bool_decide (keys p ∖ vk.2 = ∅))
       (stack_of before)) =
  List.filter (shadows p) before.
Proof.
  unfold stack_of. induction before as [|q before IH]; [done|].
  cbn [List.filter]. unfold shadows at 1.
  destruct (eligible q) eqn:Hq; cbn [andb List.map List.filter fst snd].
  - destruct (String.eqb (slot q) (slot p) &&
              bool_decide (keys p ∖ expanded q = ∅)); cbn [List.map fst].
    + by rewrite IH.
    + exact IH.
  - exact IH.
Qed.

Lemma visit_pkg_spec (before : list pkg) (b : list (pkg * list pkg)) (p : pkg) :
  visit_pkg {| stack := stack_of before; bad := b |} p =
  {| stack := stack_of (before ++ [p]);
     bad := b ++ bad_from before [p] |}.
Proof.
  unfold visit_pkg, stack_of. rewrite List.filter_app.
  cbn [List.filter bad_from]. fold (keys p).
  destruct (eligible p) eqn:He; unfold eligible in He.
  - apply andb_true_iff in He as [Hl Hk].
    apply negb_true_iff in Hl. apply bool_decide_eq_true in Hk.
    rewrite Hl, decide_False by done. cbn [stack bad].
    rewrite List.map_app. cbn [List.map]. fold (expanded p).
    fold (stack_of before). rewrite matches_stack_of, app_nil_r.
    destruct (List.filter (shadows p) before); [by rewrite app_nil_r|done].
  - rewrite !app_nil_r. destruct (live p); [done|].
    cbn [negb andb] in He. apply bool_decide_eq_false in He.
    rewrite decide_True; [done|].
    destruct (decide (keys p = ∅)); [done|]. by exfalso; apply He.
Qed.

Lemma fold_visit_pkg (l before : list pkg) (b : list (pkg * list pkg)) :
  fold_left visit_pkg l {| stack := stack_of before; bad := b |} =
  {| stack := stack_of (before ++ l); bad := b ++ bad_from before l |}.
Proof.
  revert before b. induction l as [|p l IH]; intros before b.
  - cbn [fold_left bad_from]. by rewrite !app_nil_r.
  - cbn [fold_left]. rewrite visit_pkg_spec, IH.
    rewrite <- !app_assoc. cbn [bad_from app]. by rewrite app_nil_r.
Qed.

(** The early return for one package changes nothing: the loop reports
    nothing for it anyway. *)
Lemma feed_bad_from (pkgset : list pkg) :
  feed pkgset =
  List.map (fun pm => RedundantVersion_init pm.1 pm.2)
           (rev (bad_from [] (rev pkgset))).
Proof.
  unfold feed. destruct (length pkgset =? 1)%nat eqn:Hlen.
  - apply Nat.eqb_eq in Hlen. destruct pkgset as [|p [|? ?]]; try done.
    cbn [rev app bad_from List.filter]. by destruct (eligible p).
  - change {| stack := []; bad := [] |}
      with {| stack := stack_of []; bad := [] |}.
    by rewrite fold_visit_pkg.
Qed.

Lemma elem_of_rev {A} (x : A) (l : list A) : x ∈ rev l <-> x ∈ l.
Proof. rewrite !list_elem_of_In. symmetry. apply in_rev. Qed.

Lemma sublist_rev {A} (l k : list A) :
  l `sublist_of` k -> rev l `sublist_of` rev k.
Proof.
  induction 1 as [|x l k _ IH|x l k _ IH]; cbn [rev]; [done| |].
  - by apply sublist_app.
  - by apply sublist_inserts_r.
Qed.

Lemma elem_of_bad_from (before l : list pkg) (p : pkg) (m : list pkg) :
  (p, m) ∈ bad_from before l <->
  exists l1 l2, l = l1 ++ p :: l2 /\ eligible p = true /\
                m = List.filter (shadows p) (before ++ l1) /\ m <> [].
Proof.
  revert before. induction l as [|x l IH]; intros before.
  - cbn [bad_from]. rewrite elem_of_nil. split; [done|].
    intros (l1 & l2 & H & _). by destruct l1.
  - cbn [bad_from]. rewrite elem_of_app, IH. split.
    + intros [Hx|(l1 & l2 & -> & He & -> & Hm)].
      * destruct (eligible x) eqn:Hex; [|by apply elem_of_nil in Hx].
        destruct (List.filter (shadows x) before) as [|q qs] eqn:Hf;
          [by apply elem_of_nil in Hx|].
        apply list_elem_of_singleton in Hx as [= -> ->].
        exists [], l. rewrite app_nil_r. by rewrite Hf.
      * exists (x :: l1), l2. rewrite <- app_assoc in *. done.
    + intros ([|y l1] & l2 & Heq & He & -> & Hm).
      * injection Heq as -> ->. left. rewrite He. rewrite app_nil_r in *.
        destruct (List.filter (shadows p) before); [done|]. by left.
      * injection Heq as -> ->. right. exists l1, l2.
        rewrite <- app_assoc. done.
Qed.

(** Every report is about a package that is not live and has a keyword
    that is not negated; it lists, newest first, the later packages of
    the set that overshadow it, and there is at least one. *)
Theorem redundant_version_sound (pkgset : list pkg) (r : RedundantVersion) :
  r ∈ feed pkgset ->
  exists l1 p l2,
    pkgset = l1 ++ p :: l2 /\ live p = false /\ keys p <> ∅ /\
    r = RedundantVersion_init p (List.filter (shadows p) (rev l2)) /\
    exists q, q ∈ l2 /\ shadows p q = true.
Proof.
  rewrite feed_bad_from. intros Hr.
  apply list_elem_of_fmap in Hr as ([p m] & -> & Hin).
  rewrite elem_of_rev in Hin.
  apply elem_of_bad_from in Hin as (l1 & l2 & Hrev & He & -> & Hm).
  cbn [app] in *. exists (rev l2), p, (rev l1).
  assert (Hset : pkgset = rev l2 ++ p :: rev l1).
  { rewrite <- (rev_involutive pkgset), Hrev, rev_app_distr. cbn [rev].
    by rewrite <- app_assoc. }
  unfold eligible in He. apply andb_true_iff in He as [Hl Hk].
  apply negb_true_iff in Hl. apply bool_decide_eq_true in Hk.
  split; [done|]. split; [done|]. split; [done|].
  rewrite rev_involutive. split; [done|].
  destruct (List.filter (shadows p) l1) as [|q qs] eqn:Hf; [done|].
  exists q. assert (Hq : q ∈ List.filter (shadows p) l1) by (rewrite Hf; by left).
  apply list_elem_of_In, filter_In in Hq as [Hq1 Hq2].
  split; [|done]. rewrite elem_of_rev. by apply list_elem_of_In.
Qed.

(** A package that is not live, has a keyword that is not negated, and
    is overshadowed by a later package of the set is reported. *)
Theorem redundant_version_complete (l1 l2 : list pkg) (p q : pkg) :
  live p = false -> keys p <> ∅ -> q ∈ l2 -> shadows p q = true ->
  RedundantVersion_init p (List.filter (shadows p) (rev l2))
    ∈ feed (l1 ++ p :: l2).
Proof.
  intros Hl Hk Hq Hs. rewrite feed_bad_from.
  apply list_elem_of_fmap.
  exists (p, List.filter (shadows p) (rev l2)). split; [done|].
  rewrite elem_of_rev. apply elem_of_bad_from.
  exists (rev l2), (rev l1). split.
  - rewrite rev_app_distr. cbn [rev]. by rewrite <- app_assoc.
  - split.
    + unfold eligible. rewrite Hl. cbn [negb andb].
      by apply bool_decide_eq_true_2.
    + split; [done|]. intros Hnil.
      assert (Hin : q ∈ List.filter (shadows p) (rev l2)).
      { apply list_elem_of_In, filter_In. split; [|done].
        apply list_elem_of_In. by rewrite elem_of_rev. }
      rewrite Hnil in Hin. by apply elem_of_nil in Hin.
Qed.

Definition a_1 : pkg := Pkg "a" "b" "1" "0" false ["~amd64"].
Definition a_2 : pkg := Pkg "a" "b" "2" "0" false ["amd64"; "-x86"].
Definition a_3 : pkg := Pkg "a" "b" "3" "1" false ["amd64"].

Lemma redundant_version_complete_witness :
  RedundantVersion_init a_1 [a_2] ∈ feed ([] ++ a_1 :: [a_2; a_3]).
Proof.
  apply (redundant_version_complete [] [a_2; a_3] a_1 a_2).
  - reflexivity.
  - vm_compute. discriminate.
  - by left.
  - vm_compute. reflexivity.
Defined.

Lemma redundant_version_sound_witness :
  exists l1 p l2,
    [a_1; a_2; a_3] = l1 ++ p :: l2 /\ live p = false /\ keys p <> ∅ /\
    RedundantVersion_init a_1 [a_2] =
      RedundantVersion_init p (List.filter (shadows p) (rev l2)) /\
    exists q, q ∈ l2 /\ shadows p q = true.
Proof.
  apply (redundant_version_sound [a_1; a_2; a_3]
           (RedundantVersion_init a_1 [a_2])).
  vm_compute. by left.
Defined.

(** The projection of a report and of a package on what names it. *)
Definition report_cpv (r : RedundantVersion) : string * string * string * string :=
  (rv_category r, rv_package r, rv_version r, rv_slot r).

Definition pkg_cpv (p : pkg) : string * string * string * string :=
  (category p, package p, fullver p, slot p).

Lemma bad_from_sublist (before l : list pkg) :
  List.map fst (bad_from before l) `sublist_of` l.
Proof.
  revert before. induction l as [|p l IH]; intros before; [done|].
  cbn [bad_from]. rewrite List.map_app.
  destruct (eligible p); [destruct (List.filter (shadows p) before)|];
    cbn [List.map app fst].
  - apply sublist_cons, IH.
  - apply sublist_skip, IH.
  - apply sublist_cons, IH.
Qed.

(** The reports follow the order of the package set, with at most one
    report per package, and none for the last package of the set. *)
Theorem redundant_version_order (pkgset : list pkg) :
  List.map report_cpv (feed pkgset)
    `sublist_of` List.map pkg_cpv (removelast pkgset).
Proof.
  rewrite feed_bad_from.
  assert (Hmap : List.map report_cpv
                   (List.map (fun pm => RedundantVersion_init pm.1 pm.2)
                             (rev (bad_from [] (rev pkgset)))) =
                 List.map pkg_cpv
                   (rev (List.map fst (bad_from [] (rev pkgset))))).
  { rewrite List.map_map, <- List.map_rev, List.map_map. done. }
  rewrite Hmap. clear Hmap. apply fmap_sublist.
  destruct pkgset as [|plast ps _] using rev_ind; [done|].
  rewrite removelast_last, rev_app_distr. cbn [rev app bad_from List.filter].
  assert (Hnil : (if eligible plast then [] else [])
                 = ([] : list (pkg * list pkg)))
    by (by destruct (eligible plast)).
  rewrite Hnil. cbn [app].
  rewrite <- (rev_involutive ps) at 2.
  apply sublist_rev, bad_from_sublist.
Qed.

End CleanupFeedFacts.

(* ===================================================================== *)
(** * Check-name filters, for any token                                   *)
(* ===================================================================== *)

Module CheckFilterTokenFacts.
Import CheckFilter.
Local Open Scope list_scope.

Lemma split_not_nil (sep : ascii) (s : string) : split sep s <> [].
Proof.
  destruct s as [|c s]; simpl; [done|].
  destruct (Ascii.eqb c sep); [done|]. by destruct (split sep s).
Qed.

(** A token without [+] and [*] answers [True] or [False], and [True]
    exactly when its components are consecutive components of the name,
    both lower-cased by [str.lower]; the [re] module has no part in
    it. *)
Theorem plain_token_matches (lower : string -> string)
        {pattern match_object : Type}
        (re_compile : string -> option pattern)
        (pattern_match : pattern -> string -> option match_object)
        (tok name : string) :
  contains "+" (lower tok) || contains "*" (lower tok) = false ->
  exists b, matches lower re_compile pattern_match tok name
              = Some (PyBool b) /\
            (b = true <->
             exists before after,
               split "." (lower name) =
               before ++ split "." (lower tok) ++ after).
Proof.
  intros Hplain. unfold matches, convert_check_filter. rewrite Hplain.
  cbn [option_map]. eexists. split; [done|]. unfold func.
  set (chunks := split "." (lower name)).
  set (toklist := split "." (lower tok)).
  assert (Hne : toklist <> []) by apply split_not_nil.
  clearbody chunks toklist. split.
  - destruct (length chunks <? length toklist)%nat; [done|].
    intros H. apply existsb_exists in H as (i & _ & Hi).
    apply bool_decide_eq_true in Hi.
    exists (firstn i chunks), (skipn (length toklist) (skipn i chunks)).
    rewrite <- Hi at 1. by rewrite !firstn_skipn.
  - intros (before & after & Heq).
    assert (Hlen : (length chunks = length before + (length toklist + length after))%nat)
      by (rewrite Heq, !length_app; lia).
    destruct (length chunks <? length toklist)%nat eqn:Hlt;
      [apply Nat.ltb_lt in Hlt; lia|].
    apply existsb_exists. exists (length before). split.
    + apply in_seq. destruct toklist; [done|]. simpl in Hlen. lia.
    + apply bool_decide_eq_true. rewrite Heq.
      rewrite skipn_app, skipn_all, Nat.sub_diag.
      change (skipn 0 (toklist ++ after)) with (toklist ++ after).
      rewrite app_nil_l, firstn_app, firstn_all, Nat.sub_diag.
      change (firstn 0 after) with (@nil string). by rewrite app_nil_r.
Qed.

Lemma plain_token_matches_witness :
  exists b,
    matches Reference.lower_str Reference.fragment_compile
            Reference.fragment_match
            "checks.Cleanup" "pkgcheck.checks.cleanup.RedundantVersionReport"
      = Some (PyBool b) /\
    (b = true <->
     exists before after,
       split "." (Reference.lower_str
                    "pkgcheck.checks.cleanup.RedundantVersionReport") =
       before ++ split "." (Reference.lower_str "checks.Cleanup") ++ after).
Proof.
  apply (plain_token_matches Reference.lower_str Reference.fragment_compile
           Reference.fragment_match "checks.Cleanup"
           "pkgcheck.checks.cleanup.RedundantVersionReport").
  reflexivity.
Defined.

End CheckFilterTokenFacts.

(* ===================================================================== *)
(** * Check sets                                                          *)
(* ===================================================================== *)

Module CheckSetsFacts.
Import CheckFilter CheckSets.
Local Open Scope list_scope.

Lemma filter_sublist {A} (f : A -> bool) (l : list A) :
  List.filter f l `sublist_of` l.
Proof.
  induction l as [|x l IH]; [done|]. simpl.
  destruct (f x); [by apply sublist_skip|by apply sublist_cons].
Qed.

Lemma elem_of_List_filter {A} (f : A -> bool) (l : list A) (x : A) :
  x ∈ List.filter f l <-> x ∈ l /\ f x = true.
Proof. by rewrite list_elem_of_In, filter_In, <- list_elem_of_In. Qed.

Lemma filter_filter_same {A} (f : A -> bool) (l : list A) :
  List.filter f (List.filter f l) = List.filter f l.
Proof.
  induction l as [|x l IH]; [done|]. simpl.
  destruct (f x) eqn:Hx; [|done]. simpl. by rewrite Hx, IH.
Qed.

Lemma filter_filter_comm {A} (f g : A -> bool) (l : list A) :
  List.filter f (List.filter g l) = List.filter g (List.filter f l).
Proof.
  induction l as [|x l IH]; [done|]. simpl.
  destruct (f x) eqn:Hf, (g x) eqn:Hg; simpl; rewrite ?Hf, ?Hg, ?IH; done.
Qed.

Section Sets.

Variable lower : string -> string.
Variables pattern match_object : Type.
Variable re_compile : string -> option pattern.
Variable pattern_match : pattern -> string -> option match_object.

(** Some pattern of [patterns] answers something true for the qualified
    name of [c]. *)
Definition listed (patterns : list string) (c : pyclass) : Prop :=
  exists tok, tok ∈ patterns /\
              option_map truth
                (matches lower re_compile pattern_match tok (qualname c))
              = Some true.

Lemma any_pattern_listed (patterns : list string) ps (c : pyclass) :
  CheckSet_init lower re_compile pattern_match patterns = Some ps ->
  any_pattern ps c = true <-> listed patterns c.
Proof.
  unfold CheckSet_init, any_pattern, listed, matches. intros Hps.
  apply mapM_Some in Hps. induction Hps as [|tok p toks ps Hp _ IH].
  - simpl. split; [done|]. intros (tok & H & _). by apply elem_of_nil in H.
  - cbn [existsb]. rewrite orb_true_iff, IH. split.
    + intros [H|(tok' & Hin & Hm)].
      * exists tok. split; [by left|]. by rewrite Hp; simpl; rewrite H.
      * exists tok'. split; [by right|done].
    + intros (tok' & Hin & Hm). apply elem_of_cons in Hin as [->|Hin].
      * left. rewrite Hp in Hm. simpl in Hm. by injection Hm.
      * right. by exists tok'.
Qed.

(** What [filter_update] keeps, whenever every pattern compiles: the
    objects, in their order, that match an enabled pattern (when there
    is one) and no disabled pattern. *)
Theorem filter_update_keeps (objs : list pyclass) (enabled disabled : list string)
        (kept : list pyclass) :
  filter_update lower re_compile pattern_match objs enabled disabled
    = Some kept ->
  kept `sublist_of` objs /\
  forall c, c ∈ kept <->
            c ∈ objs /\ (enabled = [] \/ listed enabled c) /\
            ~ listed disabled c.
Proof.
  unfold filter_update.
  assert (Hen : forall mid,
    match enabled with
    | [] => Some objs
    | _ => option_map (fun ps => Whitelist_filter ps objs)
                      (CheckSet_init lower re_compile pattern_match enabled)
    end = Some mid ->
    mid `sublist_of` objs /\
    forall c, c ∈ mid <-> c ∈ objs /\ (enabled = [] \/ listed enabled c)).
  { intros mid. destruct enabled as [|e en] eqn:Een.
    - intros [= <-]. split; [done|]. intros c. split; [by auto|by intros []].
    - assert (Hne : e :: en <> []) by done.
      rewrite <- Een in *. clear Een.
      destruct (CheckSet_init lower re_compile pattern_match enabled)
        as [ps|] eqn:Eps; [|done].
      intros [= <-]. split; [apply filter_sublist|].
      intros c. unfold Whitelist_filter.
      rewrite elem_of_List_filter, (any_pattern_listed _ _ _ Eps).
      split; [intros []; by auto|]. by intros [? [?|?]]. }
  destruct (match enabled with [] => _ | _ => _ end) as [mid|]; [|done].
  destruct (Hen mid eq_refl) as [Hsub Hmid]. clear Hen.
  destruct disabled as [|d dis] eqn:Edis.
  - intros [= <-]. split; [done|]. intros c. rewrite Hmid. split.
    + intros [? ?]. split; [done|]. split; [done|].
      intros (tok & Htok & _). by apply elem_of_nil in Htok.
    + by intros (? & ? & _).
  - rewrite <- Edis in *. clear Edis.
    destruct (CheckSet_init lower re_compile pattern_match disabled)
      as [ps|] eqn:Eps; [|done].
    intros [= <-]. split.
    + etrans; [apply filter_sublist|done].
    + intros c. unfold Blacklist_filter.
      rewrite elem_of_List_filter, Hmid, negb_true_iff.
      rewrite <- (any_pattern_listed _ _ _ Eps).
      destruct (any_pattern ps c); split; try done.
      * by intros [_ ?].
      * by intros (_ & _ & H).
      * by intros [[? ?] _].
      * by intros (? & ? & _).
Qed.

(** Filtering what [filter_update] kept, with the same patterns, keeps
    all of it. *)
Theorem filter_update_idempotent (objs : list pyclass)
        (enabled disabled : list string) (kept : list pyclass) :
  filter_update lower re_compile pattern_match objs enabled disabled
    = Some kept ->
  filter_update lower re_compile pattern_match kept enabled disabled
    = Some kept.
Proof.
  unfold filter_update.
  destruct enabled as [|e en] eqn:Een; destruct disabled as [|d dis] eqn:Edis.
  - done.
  - rewrite <- Edis. clear Edis.
    destruct (CheckSet_init _ _ _ disabled) as [ps|]; [|done]. simpl.
    intros [= <-]. unfold Blacklist_filter. by rewrite filter_filter_same.
  - rewrite <- Een. clear Een.
    destruct (CheckSet_init _ _ _ enabled) as [ps|]; [|done]. simpl.
    intros [= <-]. unfold Whitelist_filter. by rewrite filter_filter_same.
  - rewrite <- Een, <- Edis. clear Een Edis.
    destruct (CheckSet_init _ _ _ enabled) as [ps|]; [|done]. simpl.
    destruct (CheckSet_init _ _ _ disabled) as [qs|]; [|done]. simpl.
    intros [= <-]. unfold Whitelist_filter, Blacklist_filter. f_equal.
    rewrite (filter_filter_comm (any_pattern ps)), filter_filter_same.
    by rewrite filter_filter_same.
Qed.

(** With the same patterns, [Whitelist] and [Blacklist] split the checks:
    each check is kept by exactly one of them, as often as it is listed. *)
Theorem whitelist_blacklist_split
        (patterns : list (string -> answer match_object))
        (checks : list pyclass) :
  Whitelist_filter patterns checks ++ Blacklist_filter patterns checks
    ≡ₚ checks /\
  forall c, ~ (c ∈ Whitelist_filter patterns checks /\
               c ∈ Blacklist_filter patterns checks).
Proof.
  unfold Whitelist_filter, Blacklist_filter. split.
  - apply PlugFacts.filter_split_perm.
  - intros c [H1 H2]. apply elem_of_List_filter in H1 as [_ H1].
    apply elem_of_List_filter in H2 as [_ H2]. by rewrite H1 in H2.
Qed.

End Sets.

Arguments listed lower {pattern match_object} re_compile pattern_match
  patterns c.

Definition UnstableOnlyReport : pyclass :=
  PyClass "pkgcheck.checks.unstable_only" "UnstableOnlyReport".
Definition RedundantVersionReport : pyclass :=
  PyClass "pkgcheck.checks.cleanup" "RedundantVersionReport".

Lemma filter_update_keeps_witness :
  [RedundantVersionReport] `sublist_of`
    [UnstableOnlyReport; RedundantVersionReport] /\
  forall c, c ∈ [RedundantVersionReport] <->
            c ∈ [UnstableOnlyReport; RedundantVersionReport] /\
            (["checks"] = [] \/
             listed Reference.lower_str Reference.fragment_compile
                    Reference.fragment_match ["checks"] c) /\
            ~ listed Reference.lower_str Reference.fragment_compile
                     Reference.fragment_match
                     ["Unstable.*"; "unstable_only"] c.
Proof.
  apply (filter_update_keeps Reference.lower_str _ _
           Reference.fragment_compile Reference.fragment_match
           [UnstableOnlyReport; RedundantVersionReport]
           ["checks"] ["Unstable.*"; "unstable_only"]).
  vm_compute. reflexivity.
Defined.

Lemma filter_update_idempotent_witness :
  filter_update Reference.lower_str Reference.fragment_compile
                Reference.fragment_match
                [RedundantVersionReport] ["checks"]
                ["Unstable.*"; "unstable_only"]
  = Some [RedundantVersionReport].
Proof.
  apply (filter_update_idempotent Reference.lower_str _ _
           Reference.fragment_compile Reference.fragment_match
           [UnstableOnlyReport; RedundantVersionReport]).
  vm_compute. reflexivity.
Defined.

End CheckSetsFacts.

(* ===================================================================== *)
(** * Result state, beyond the round trip                                 *)
(* ===================================================================== *)

Module ResultPickleFacts.
Import ResultState ResultStateFacts Results.

Section Instances.

Variable value : Type.
Variable object_getstate : gmap string value -> pyobj value.

Lemma getattrs_None (self : gmap string value) (attrs : list string) :
  getattrs self attrs = None <-> exists a, a ∈ attrs /\ self !! a = None.
Proof.
  induction attrs as [|k rest IH]; simpl.
  - split; [done|]. intros (a & Ha & _). by apply elem_of_nil in Ha.
  - destruct (self !! k) as [v|] eqn:Ek.
    + destruct (getattrs self rest) as [kvs|].
      * split; [done|]. intros (a & Ha & Hn).
        apply elem_of_cons in Ha as [->|Ha]; [congruence|].
        assert (Hex : exists a, a ∈ rest /\ self !! a = None) by eauto.
        by apply IH in Hex.
      * split; [|done]. intros _. destruct (proj1 IH eq_refl) as (a & Ha & Hn).
        exists a. split; [by right|done].
    + split; [|done]. intros _. exists k. split; [by left|done].
Qed.

(** [__getstate__] raises exactly when a declared attribute is not set,
    and then it raises [AttributeError]. *)
Theorem getstate_raises (k : kind) (self : gmap string value) (e : exn) :
  getstate object_getstate k self = inl e <->
  e = AttributeError /\ exists a, a ∈ declared k /\ self !! a = None.
Proof.
  unfold getstate. destruct (declared k) as [|a0 l] eqn:E.
  - split; [done|]. intros (_ & a & Ha & _). by apply elem_of_nil in Ha.
  - rewrite <- getattrs_None.
    destruct (getattrs self (a0 :: l)) as [kvs|]; split; try done.
    + by intros [_ ?].
    + by intros [= <-].
    + by intros [-> _].
Qed.

Lemma getattrs_insert_ne (self : gmap string value) (attrs : list string)
      (a : string) (v : value) :
  a ∉ attrs -> getattrs (<[a := v]> self) attrs = getattrs self attrs.
Proof.
  induction attrs as [|k rest IH]; intros Ha; simpl; [done|].
  apply not_elem_of_cons in Ha as [Hne Ha].
  rewrite lookup_insert_ne by done. by rewrite IH.
Qed.

(** An attribute the class does not declare is not part of the pickled
    state: setting one, as [Reporter.add_report] does with [_verbosity],
    leaves [__getstate__] as it was. *)
Theorem getstate_undeclared (k : kind) (self : gmap string value)
        (a : string) (v : value) :
  declared k <> [] -> a ∉ declared k ->
  getstate object_getstate k (<[a := v]> self) =
  getstate object_getstate k self.
Proof.
  intros Hne Ha. unfold getstate.
  destruct (declared k) as [|a0 l] eqn:E; [done|].
  by rewrite getattrs_insert_ne.
Qed.

(** An instance with every declared attribute set pickles to a dict
    with exactly the declared names, which [__setstate__] accepts. *)
Lemma pickles (k : kind) (self : gmap string value) :
  declared k <> [] ->
  (forall a, a ∈ declared k -> is_Some (self !! a)) ->
  exists d,
    getstate object_getstate k self = inr (PyDict d) /\
    dom d = list_to_set (declared k) /\
    (forall a, a ∈ declared k -> d !! a = self !! a) /\
    forall fresh, setstate k fresh (PyDict d) = (d ∪ fresh, None).
Proof.
  intros Hne Hset.
  destruct (getattrs_total _ self (declared k) Hset) as [kvs Hk].
  destruct (dict_of_getattrs _ self _ _ Hk) as [Hdom Hlk].
  exists (dict_of_pairs kvs). split; [|split; [done|split; [done|]]].
  - unfold getstate. destruct (declared k) as [|a0 l] eqn:E; [done|].
    by rewrite Hk.
  - intros fresh. unfold setstate. rewrite decide_False.
    + by rewrite setattrs_union.
    + rewrite setstate_guard. intros Hbad. by apply Hbad.
  Unshelve. exact object_getstate.
Qed.

End Instances.

Lemma getstate_raises_witness :
  AttributeError = AttributeError /\
  exists a, a ∈ declared MetadataError_class /\
            (<["category" := PyStr "dev-lang"]> ∅ : gmap string pyval) !! a = None.
Proof.
  apply (getstate_raises pyval (fun _ => PyNone) MetadataError_class
           (<["category" := PyStr "dev-lang"]> ∅) AttributeError).
  reflexivity.
Defined.

Lemma getstate_undeclared_witness :
  getstate (fun _ => PyNone) MetadataError_class
    (<["_verbosity" := PyStr "1"]>
       (MetadataError_new (Pkg "dev-lang" "python" "3.7" "0" false [])
                          "depend" "bad atom")) =
  getstate (fun _ => PyNone) MetadataError_class
    (MetadataError_new (Pkg "dev-lang" "python" "3.7" "0" false [])
                       "depend" "bad atom").
Proof.
  apply (getstate_undeclared pyval (fun _ => PyNone) MetadataError_class).
  - discriminate.
  - unfold MetadataError_class, declared. simpl.
    rewrite !not_elem_of_cons. repeat split; try discriminate.
    apply not_elem_of_nil.
Defined.

(** [self !! a] for an instance given by its assignments. *)
Ltac lookup_slot :=
  unfold MetadataError_new, RedundantVersion_new, store_cpv, store_cp;
  repeat (rewrite lookup_insert_ne by discriminate);
  rewrite lookup_insert_eq.

Ltac all_set :=
  let a := fresh "a" in
  let Ha := fresh "Ha" in
  intros a Ha; unfold declared in Ha; simpl in Ha;
  rewrite !elem_of_cons in Ha; rewrite elem_of_nil in Ha;
  repeat (destruct Ha as [->|Ha]); [..|done];
  lookup_slot; by eexists.

Ltac declares := unfold declared; simpl; by repeat constructor.

(** Every result the runner and the two checks construct has all the
    slots of its class set: it pickles to a dict with exactly those
    names, holding what the constructor stored, and [__setstate__]
    accepts that dict on any instance of the class. *)
Theorem constructed_results_pickle
        (object_getstate : gmap string pyval -> pyobj pyval)
        (p : pkg) (attr msg : string) (higher_pkgs : list pkg)
        (arches : list string) :
  (exists d,
     getstate object_getstate MetadataError_class
              (MetadataError_new p attr msg) = inr (PyDict d) /\
     dom d = list_to_set (declared MetadataError_class) /\
     d !! "version" = Some (PyStr (fullver p)) /\
     d !! "msg" = Some (PyStr msg) /\
     forall fresh,
       setstate MetadataError_class fresh (PyDict d) = (d ∪ fresh, None)) /\
  (exists d,
     getstate object_getstate RedundantVersion_class
              (RedundantVersion_new p higher_pkgs) = inr (PyDict d) /\
     dom d = list_to_set (declared RedundantVersion_class) /\
     d !! "version" =
       Some (PyStr (Cleanup.rv_version
                      (Cleanup.RedundantVersion_init p higher_pkgs))) /\
     d !! "later_versions" =
       Some (PyTuple (Cleanup.rv_later_versions
                        (Cleanup.RedundantVersion_init p higher_pkgs))) /\
     forall fresh,
       setstate RedundantVersion_class fresh (PyDict d) = (d ∪ fresh, None)) /\
  (forall r,
     UnstableOnly.UnstableOnly_init (p :: higher_pkgs) arches = Some r ->
     exists self d,
       UnstableOnly_new (p :: higher_pkgs) arches = Some self /\
       getstate object_getstate UnstableOnly_class self = inr (PyDict d) /\
       dom d = list_to_set (declared UnstableOnly_class) /\
       d !! "versions" = Some (PyTuple (UnstableOnly.uo_versions r)) /\
       d !! "arches" = Some (PyList (UnstableOnly.uo_arches r)) /\
       forall fresh,
         setstate UnstableOnly_class fresh (PyDict d) = (d ∪ fresh, None)).
Proof.
  split; [|split].
  - destruct (pickles pyval object_getstate MetadataError_class
                (MetadataError_new p attr msg))
      as (d & Hg & Hdom & Hlk & Hset); [done|all_set|].
    exists d. split; [done|]. split; [done|].
    rewrite (Hlk "version"), (Hlk "msg") by declares.
    split; [by lookup_slot|]. split; [by lookup_slot|done].
  - destruct (pickles pyval object_getstate RedundantVersion_class
                (RedundantVersion_new p higher_pkgs))
      as (d & Hg & Hdom & Hlk & Hset); [done|all_set|].
    exists d. split; [done|]. split; [done|].
    rewrite (Hlk "version"), (Hlk "later_versions") by declares.
    split; [by lookup_slot|]. split; [by lookup_slot|done].
  - intros r [= <-]. cbn [UnstableOnly.uo_versions UnstableOnly.uo_arches].
    eexists.
    destruct (pickles pyval object_getstate UnstableOnly_class
                (<["versions" := PyTuple (List.map fullver (p :: higher_pkgs))]>
                   (<["arches" := PyList arches]> (store_cp ∅ p))))
      as (d & Hg & Hdom & Hlk & Hset); [done|all_set|].
    exists d. split; [done|]. split; [done|]. split; [done|].
    rewrite (Hlk "versions"), (Hlk "arches") by declares.
    split; [by lookup_slot|]. split; [by lookup_slot|done].
Qed.

End ResultPickleFacts.

(* ===================================================================== *)
(** * The runner: messages and [finish]                                   *)
(* ===================================================================== *)

Module RunnerMoreFacts.
Import CheckFilter Runner RunnerFinish RunnerFacts.
Local Open Scope list_scope.

(** ** [error_str] is one line *)

Lemma contains_append (c : ascii) (s t : string) :
  contains c (s ++ t)%string = contains c s || contains c t.
Proof.
  induction s as [|x s IH]; simpl; [done|]. rewrite IH. by rewrite orb_assoc.
Qed.

Lemma split_cons (sep : ascii) (s : string) :
  exists h t, split sep s = h :: t.
Proof.
  destruct s as [|c s]; simpl; [by eexists _, _|].
  destruct (Ascii.eqb c sep); [by eexists _, _|].
  destruct (split sep s); by eexists _, _.
Qed.

Lemma split_chunks (sep : ascii) (s : string) :
  Forall (fun chunk => contains sep chunk = false) (split sep s).
Proof.
  induction s as [|c s IH]; simpl; [by repeat constructor|].
  destruct (Ascii.eqb c sep) eqn:Hc; [by constructor|].
  destruct (split sep s) as [|h t].
  { constructor; [|done]. simpl. by rewrite Hc. }
  apply Forall_cons in IH as [Hh Ht]. constructor; [|done].
  simpl. by rewrite Hc, Hh.
Qed.

Lemma split_without (sep : ascii) (s : string) :
  contains sep s = false -> split sep s = [s].
Proof.
  induction s as [|c s IH]; simpl; [done|].
  intros H. apply orb_false_iff in H as [Hc Hs]. rewrite Hc, (IH Hs). done.
Qed.

Lemma contains_concat (c : ascii) (sep : string) (l : list string) :
  contains c sep = false ->
  Forall (fun chunk => contains c chunk = false) l ->
  contains c (String.concat sep l) = false.
Proof.
  intros Hsep. induction 1 as [|x l Hx Hl IH]; [done|].
  cbn [String.concat]. destruct l as [|y l]; [done|].
  rewrite !contains_append, Hx, Hsep, IH. done.
Qed.

(** The message of the [MetadataError] a runner reports is one line; an
    error that is one line already is reported as it is. *)
Theorem error_str_one_line {pkgid error : Type} (str : error -> string)
        (e : MetadataException pkgid error) :
  contains newline (MetadataError_args str e).2 = false /\
  (contains newline (str (e_error e)) = false ->
   (MetadataError_args str e).2 = str (e_error e)).
Proof.
  unfold MetadataError_args. cbn [snd]. split.
  - apply contains_concat; [done|apply split_chunks].
  - intros H. by rewrite (split_without _ _ H).
Qed.

(** ** [finish] has no [except] clause *)

Section Finish.

Context {item result pkgid error : Type}.
Context `{EqDecision pkgid, EqDecision error}.

Variable s_finish :
  template item result pkgid error -> behaviour result pkgid error.

Abbreviation step :=
  (fun (acc : world result pkgid error *
              option (MetadataException pkgid error)) c =>
     match acc.2 with
     | None => finish_check s_finish c acc.1
     | Some e => acc
     end).

Lemma finish_runner_eq (self : nat)
      (checks : list (check item result pkgid error))
      (w : world result pkgid error) :
  finish_runner s_finish (CheckRunner self checks) w =
  fold_left step checks (w, None).
Proof. reflexivity. Qed.

Lemma finish_stuck (checks : list (check item result pkgid error))
      (w : world result pkgid error) (e : MetadataException pkgid error) :
  fold_left step checks (w, Some e) = (w, Some e).
Proof. induction checks as [|c checks IH]; [done|]. exact IH. Qed.

(** Only reports of checks were added. *)
Definition only_reports (w w' : world result pkgid error) : Prop :=
  (forall r, metadata_errors w' r = metadata_errors w r) /\
  exists rs, log w' = log w ++ List.map AddReport rs.

Lemma only_reports_refl w : only_reports w w.
Proof. split; [done|]. exists []. by rewrite app_nil_r. Qed.

Lemma only_reports_trans w1 w2 w3 :
  only_reports w1 w2 -> only_reports w2 w3 -> only_reports w1 w3.
Proof.
  intros [H1 (r1 & L1)] [H2 (r2 & L2)]. split.
  - intros r. by rewrite H2, H1.
  - exists (r1 ++ r2). by rewrite L2, L1, List.map_app, app_assoc.
Qed.

Lemma finish_only_reports (c : check item result pkgid error) :
  forall w, only_reports w (finish_check s_finish c w).1.
Proof.
  apply (check_tree_ind
           (fun c => forall w, only_reports w (finish_check s_finish c w).1)
           (fun r => forall w, only_reports w (finish_runner s_finish r w).1)).
  - intros s w. simpl. split; [done|]. by eexists.
  - intros cv r IH w. exact (IH w).
  - intros self cs Hcs w. rewrite finish_runner_eq.
    assert (Hgen : forall w0 o,
              only_reports w w0 ->
              only_reports w (fold_left step cs (w0, o)).1).
    { induction Hcs as [|c0 cs0 Hc0 _ IH]; intros w0 o Hw0; [exact Hw0|].
      cbn [fold_left]. destruct o as [e|]; cbn [snd fst].
      - by apply IH.
      - destruct (finish_check s_finish c0 w0) as [w1 o1] eqn:E1.
        apply IH. eapply only_reports_trans; [exact Hw0|].
        specialize (Hc0 w0). by rewrite E1 in Hc0. }
    apply Hgen, only_reports_refl.
Qed.

(** [CheckRunner.finish] neither records nor reports a metadata error:
    it adds reports of its checks only.  When a child raises, that is
    how [finish] ends, and no child after it is finished. *)
Theorem finish_not_guarded (self : nat)
        (checks more : list (check item result pkgid error))
        (w : world result pkgid error) :
  only_reports w (finish_runner s_finish (CheckRunner self checks) w).1 /\
  ((finish_runner s_finish (CheckRunner self checks) w).2 <> None ->
   finish_runner s_finish (CheckRunner self (checks ++ more)) w =
   finish_runner s_finish (CheckRunner self checks) w).
Proof.
  split.
  - apply (finish_only_reports (Transform (fun i => [i]) (CheckRunner self checks))).
  - rewrite !finish_runner_eq, fold_left_app.
    destruct (fold_left step checks (w, None)) as [w1 [e|]].
    + intros _. apply finish_stuck.
    + intros Hn. cbn [snd] in Hn. congruence.
Qed.

End Finish.

End RunnerMoreFacts.

(* ===================================================================== *)
(** * The planner: what it returns                                        *)
(* ===================================================================== *)

Module PlanFacts.
Import Plug PlugFacts.
Local Open Scope list_scope.

(** ** Which sinks are unreachable *)

(** Some source reaches the feed type of [s] through transforms of its
    scope, and has the scope [s] asks for. *)
Definition reachable_sink (transforms : list transform) (sources : list source)
           (s : sink) : Prop :=
  exists src, src ∈ sources /\
              reachable_from transforms src (sink_feed_type s) /\
              (sink_scope s <= src_scope src)%nat.

Lemma best_scopes_spec (o : hash_order) (transforms : list transform)
      (fuel : nat) (sources : list source) :
  forall bs r,
    best_scopes o transforms fuel sources bs = Some r ->
    forall ft n,
      (exists m, r !! ft = Some m /\ (n <= m)%nat) <->
      (exists m, bs !! ft = Some m /\ (n <= m)%nat) \/
      exists src, src ∈ sources /\ reachable_from transforms src ft /\
                  (n <= src_scope src)%nat.
Proof.
  induction sources as [|src rest IH]; intros bs r H ft n; simpl in H.
  - injection H as <-. split; [by left|].
    intros [?|(src & Hin & _)]; [done|]. by apply elem_of_nil in Hin.
  - destruct (reach o transforms fuel src [] [src_feed_type src])
      as [R|] eqn:ER; [|done].
    pose proof (reach_closed transforms src o fuel _ _ _ ER
                  (reach_inv_init transforms src)) as HR.
    rewrite (IH _ _ H ft n). rewrite raise_scopes_lookup.
    setoid_rewrite elem_of_cons. split.
    + intros [(m & Hm & Hle)|(s & Hs & Hreach & Hle)].
      * destruct (decide (ft ∈ R)) as [Hin|Hnin]; [|left; by exists m].
        injection Hm as <-. destruct (bs !! ft) as [sc|] eqn:Ebs.
        -- destruct (decide (n <= sc)%nat); [left; by exists sc|].
           right. exists src. split; [by left|]. split; [by apply HR|lia].
        -- right. exists src. split; [by left|]. split; [by apply HR|lia].
      * right. exists s. split; [by right|done].
    + intros [(m & Hm & Hle)|(s & [->|Hs] & Hreach & Hle)].
      * left. destruct (decide (ft ∈ R)); [|by exists m].
        rewrite Hm. eexists. split; [done|]. lia.
      * left. rewrite decide_True by (by apply HR).
        eexists. split; [done|]. destruct (bs !! ft); lia.
      * right. by exists s.
Qed.

Lemma is_bad_spec (o : hash_order) (transforms : list transform)
      (fuel : nat) (sources : list source) (bs : gmap string nat) (s : sink) :
  best_scopes o transforms fuel sources ∅ = Some bs ->
  is_bad bs s = false <-> reachable_sink transforms sources s.
Proof.
  intros H. unfold reachable_sink.
  pose proof (best_scopes_spec o transforms fuel sources _ _ H
                (sink_feed_type s) (sink_scope s)) as Hspec.
  unfold is_bad. destruct (bs !! sink_feed_type s) as [m|].
  - rewrite Nat.ltb_ge. split.
    + intros Hle. destruct (proj1 Hspec) as [(m' & Hm' & _)|?]; [by exists m| |done].
      by rewrite lookup_empty in Hm'.
    + intros Hr. destruct (proj2 Hspec (or_intror Hr)) as (m' & [= <-] & Hle).
      done.
  - split; [done|]. intros Hr.
    by destruct (proj2 Hspec (or_intror Hr)) as (m' & ? & _).
Qed.

Lemma min_scope_elem (l : list sink) :
  l <> [] -> exists k, k ∈ l /\ sink_scope k = min_scope l.
Proof.
  destruct l as [|s rest]; [done|]. intros _. unfold min_scope.
  assert (H : forall rest m,
    fold_left (fun m x => Nat.min m (sink_scope x)) rest m = m \/
    exists k, k ∈ rest /\
      sink_scope k = fold_left (fun m x => Nat.min m (sink_scope x)) rest m).
  { clear. induction rest as [|x rest IH]; intros m; simpl; [by left|].
    destruct (IH (Nat.min m (sink_scope x))) as [Heq|(k & Hk & Heq)].
    - rewrite Heq. destruct (Nat.min_spec m (sink_scope x)) as [[_ ->]|[_ ->]].
      + by left.
      + right. exists x. split; [by left|done].
    - right. exists k. split; [by right|done]. }
  destruct (H rest (sink_scope s)) as [->|(k & Hk & <-)].
  - exists s. split; [by left|done].
  - exists k. split; [by right|done].
Qed.

(** The branch "no usable sources" of [plug] is dead: a reachable sink
    comes with a source of its scope. *)
Lemma usable_sources_nonempty (o : hash_order) (transforms : list transform)
      (fuel : nat) (sinks : list sink) (sources : list source)
      (bs : gmap string nat) :
  best_scopes o transforms fuel sources ∅ = Some bs ->
  good_of bs sinks <> [] ->
  usable_sources (good_of bs sinks) sources <> [].
Proof.
  intros Hbs Hne.
  destruct (min_scope_elem _ Hne) as (k & Hk & Hmin).
  unfold good_of in Hk at 1.
  apply list_elem_of_In, filter_In in Hk as [_ Hk].
  apply negb_true_iff in Hk.
  apply (is_bad_spec o transforms fuel sources bs k Hbs) in Hk
    as (src & Hsrc & _ & Hle).
  intros Hnil.
  assert (Hin : src ∈ usable_sources (good_of bs sinks) sources).
  { unfold usable_sources. apply list_elem_of_In, filter_In.
    split; [by apply list_elem_of_In|]. apply Nat.leb_le. lia. }
  rewrite Hnil in Hin. by apply elem_of_nil in Hin.
Qed.

Lemma filter_all {A} (f : A -> bool) (l : list A) :
  List.filter (fun x => negb (f x)) l = [] -> List.filter f l = l.
Proof.
  induction l as [|x l IH]; [done|]. simpl.
  destruct (f x); simpl; [|done]. intros H. by rewrite IH.
Qed.

Lemma filter_none {A} (f : A -> bool) (l : list A) :
  List.filter f l = l -> List.filter (fun x => negb (f x)) l = [].
Proof.
  induction l as [|x l IH]; [done|]. simpl.
  destruct (f x) eqn:Hx; simpl.
  - intros [= H]. by apply IH.
  - intros H. exfalso.
    assert (Hin : x ∈ List.filter f l) by (rewrite H; by left).
    apply list_elem_of_In, filter_In in Hin as [_ Hin]. congruence.
Qed.

Lemma good_of_empty (sinks : list sink) : good_of ∅ sinks = [].
Proof.
  unfold good_of. induction sinks as [|s sinks IH]; [done|]. simpl.
  unfold is_bad at 1. by rewrite lookup_empty.
Qed.

Lemma build_all_length (o : hash_order) (fuel source_scope : nat) :
  forall chosen pool result pool',
    build_all o fuel source_scope chosen pool = Some (result, pool') ->
    List.map fst result = List.map fst chosen.
Proof.
  induction chosen as [|[src trans] rest IH]; intros pool result pool' H.
  - simpl in H. by injection H as <- <-.
  - cbn [build_all] in H.
    destruct (build_transform o fuel source_scope (src_scope src)
                              (src_feed_type src) trans pool)
      as [[r p1]|]; [|done].
    destruct (build_all o fuel source_scope rest p1) as [[res p2]|] eqn:E2;
      [|done].
    injection H as <- <-. simpl. f_equal. by eapply IH.
Qed.

(** What [plug] returns as unreachable: the sinks, in their order, that
    no source reaches within its scope.  It returns no pipeline exactly
    when that is every sink. *)
Theorem plug_unreachable (o : hash_order) (transforms : list transform)
        (fuel : nat) (sinks : list sink) (sources : list source)
        (unreachable : list sink) (result : list (source * runner)) :
  plug o transforms fuel sinks sources = Returned (unreachable, result) ->
  unreachable `sublist_of` sinks /\
  (forall s, s ∈ unreachable <->
             s ∈ sinks /\ ~ reachable_sink transforms sources s) /\
  (result = [] <-> unreachable = sinks).
Proof.
  intros H.
  assert (Hchar : forall bs,
            best_scopes o transforms fuel sources ∅ = Some bs ->
            List.filter (is_bad bs) sinks `sublist_of` sinks /\
            forall s, s ∈ List.filter (is_bad bs) sinks <->
                      s ∈ sinks /\ ~ reachable_sink transforms sources s).
  { intros bs Hbs. split; [apply CheckSetsFacts.filter_sublist|].
    intros s. rewrite CheckSetsFacts.elem_of_List_filter.
    rewrite <- (is_bad_spec o transforms fuel sources bs s Hbs).
    destruct (is_bad bs s); split; intros [? ?]; done. }
  unfold plug in H.
  destruct (plan_pipes o transforms fuel sinks sources) as [[u|p]| |] eqn:E;
    try discriminate.
  - injection H as <- <-.
    apply plan_pipes_unplugged in E as (bs & Hbs & Hcase).
    destruct (Hchar bs Hbs) as [Hsub Hel].
    assert (Hgood : good_of bs sinks = []).
    { destruct Hcase as [[[Hg|Hl] _]|(Hg & _ & Hu & _)]; [done| |].
      - apply last_None in Hl. subst sources. simpl in Hbs.
        injection Hbs as <-. apply good_of_empty.
      - exfalso. by eapply usable_sources_nonempty. }
    assert (Hu : u = List.filter (is_bad bs) sinks).
    { destruct Hcase as [[_ ->]|(Hg & _)]; done. }
    rewrite Hu. split; [done|]. split; [done|]. split; [|done].
    intros _. by apply filter_all.
  - destruct (to_run p) as [[|p0 seq]|] eqn:Erun; try discriminate.
    destruct (build_all o fuel (src_scope (final_source p)) (p0 :: seq)
                        (sort_by_priority (good_sinks p)))
      as [[res [|x left]]|] eqn:Eb; try discriminate.
    injection H as <- <-.
    apply plan_pipes_plugged in E
      as (bs & s0 & st & Hbs & Hbad & Hgood & Hne & _).
    destruct (Hchar bs Hbs) as [Hsub Hel]. rewrite Hbad.
    split; [done|]. split; [done|]. split.
    + intros ->. apply build_all_length in Eb. done.
    + intros Hall. exfalso. apply Hne. rewrite Hgood. unfold good_of.
      by apply filter_none.
Qed.


(** ** The pipelines are well formed *)

(** The tree [r] can be fed items of [feed_type] by a source of [scope]:
    every transform is one of [allowed], starts at the feed type of its
    runner, asks for no more than [scope] and wraps a runner for its
    destination type; every check sits in a runner of its feed type. *)
Fixpoint well_fed (allowed : list transform) (scope : nat)
         (feed_type : string) (r : runner) : bool :=
  match r with
  | CheckRunner children =>
      forallb (child_well_fed allowed scope feed_type) children
  end
with child_well_fed (allowed : list transform) (scope : nat)
                    (feed_type : string) (c : child) : bool :=
  match c with
  | Wrapped t r =>
      bool_decide (t ∈ allowed) && bool_decide (tr_source t = feed_type) &&
      (tr_scope t <=? scope)%nat && well_fed allowed scope (tr_dest t) r
  | Plain k => bool_decide (sink_feed_type k = feed_type)
  end.

Lemma build_transform_well_fed (o : hash_order) (allowed : list transform)
      (fuel : nat) :
  forall source_scope scope feed_type trans pool r pool',
    (forall t, t ∈ trans -> t ∈ allowed) ->
    build_transform o fuel source_scope scope feed_type trans pool
      = Some (r, pool') ->
    well_fed allowed scope feed_type r = true.
Proof.
  induction fuel as [|fuel IH]; intros source_scope scope feed_type trans pool
    r pool' Hallowed H; [done|].
  cbn [build_transform] in H.
  set (step := fun (acc : option (list child * list sink)) t =>
         match acc with
         | None => None
         | Some (children, good_sinks) =>
             if bool_decide (tr_source t = feed_type) &&
                (tr_scope t <=? scope)%nat
             then
               match build_transform o fuel source_scope scope
                                     (tr_dest t) trans good_sinks with
               | None => None
               | Some (r, good_sinks) =>
                   Some (children ++ [Wrapped t r], good_sinks)
               end
             else acc
         end) in H.
  assert (Hfold : forall ts children pool0 children' pool1,
            (forall t, t ∈ ts -> t ∈ trans) ->
            forallb (child_well_fed allowed scope feed_type) children = true ->
            fold_left step ts (Some (children, pool0)) = Some (children', pool1) ->
            forallb (child_well_fed allowed scope feed_type) children' = true).
  { induction ts as [|t ts IHts]; intros children pool0 children' pool1 Hts Hc Hf.
    - simpl in Hf. by injection Hf as <- <-.
    - cbn [fold_left] in Hf. unfold step at 2 in Hf.
      assert (Hts' : forall t', t' ∈ ts -> t' ∈ trans)
        by (intros t' Ht'; apply Hts; by right).
      destruct (bool_decide (tr_source t = feed_type) &&
                (tr_scope t <=? scope)%nat) eqn:Hcond.
      + destruct (build_transform o fuel source_scope scope (tr_dest t)
                                  trans pool0) as [[r0 p0]|] eqn:E.
        * apply (IHts _ _ _ _ Hts') in Hf; [done|].
          rewrite forallb_app, Hc. cbn [forallb child_well_fed andb].
          rewrite (IH _ _ _ _ _ _ _ Hallowed E), !andb_true_r.
          rewrite bool_decide_eq_true_2 by (apply Hallowed, Hts; by left).
          done.
        * rewrite fold_left_None in Hf; [done|]. done.
      + by apply (IHts _ _ _ _ Hts') in Hf. }
  destruct (fold_left step (set_iter (pick_trans o) (elements trans))
                      (Some ([], pool))) as [[children pool1]|] eqn:E; [|done].
  injection H as <- <-. cbn [well_fed]. rewrite forallb_app.
  apply andb_true_iff. split.
  - eapply (Hfold _ [] pool); [|done|exact E].
    intros t Ht. by apply elem_of_set_iter, elem_of_elements in Ht.
  - rewrite take_sinks_spec. cbn [fst]. apply forallb_forall.
    intros c Hc. apply in_map_iff in Hc as (k & <- & Hk).
    apply in_rev, filter_In in Hk as [_ Hk]. unfold wanted in Hk.
    apply andb_true_iff in Hk as [Hk _]. exact Hk.
Qed.

Lemma build_all_well_fed (o : hash_order) (allowed : list transform)
      (fuel source_scope : nat) :
  forall chosen pool result pool',
    (forall s ts t, (s, ts) ∈ chosen -> t ∈ ts -> t ∈ allowed) ->
    build_all o fuel source_scope chosen pool = Some (result, pool') ->
    forall s r, (s, r) ∈ result ->
                well_fed allowed (src_scope s) (src_feed_type s) r = true.
Proof.
  induction chosen as [|[src trans] rest IH]; intros pool result pool' Hall H.
  - simpl in H. injection H as <- <-. intros s r Hin.
    by apply elem_of_nil in Hin.
  - cbn [build_all] in H.
    destruct (build_transform o fuel source_scope (src_scope src)
                              (src_feed_type src) trans pool)
      as [[r0 p1]|] eqn:E1; [|done].
    destruct (build_all o fuel source_scope rest p1) as [[res p2]|] eqn:E2;
      [|done].
    injection H as <- <-. intros s r Hin.
    apply elem_of_cons in Hin as [[= -> ->]|Hin].
    + eapply build_transform_well_fed; [|exact E1].
      intros t Ht. eapply Hall; [by left|done].
    + eapply IH; [|exact E2|exact Hin].
      intros s' ts t Hs' Ht. eapply Hall; [by right|done].
Qed.

(** ** The sources of the pipelines *)

Lemma grows_transforms (transforms : list transform) (s : source) (p : pipe) :
  rtc (grows_by transforms) (seed s) p ->
  forall t, t ∈ p.1.2 -> t ∈ transforms.
Proof.
  revert p.
  apply (rtc_ind_r (fun p : pipe => forall t, t ∈ p.1.2 -> t ∈ transforms)).
  - intros t Ht. simpl in Ht. set_solver.
  - intros y z _ Hyz IH t Ht. inversion Hyz; subst. simpl in *.
    apply elem_of_union in Ht as [Ht|Ht]; [by apply IH|].
    by apply elem_of_singleton in Ht as ->.
Qed.

Lemma dict_set_keys {K V} `{EqDecision K} (d : list (K * V)) (k : K) (v : V) :
  NoDup d.*1 -> NoDup (dict_set d k v).*1 /\
                forall k', k' ∈ (dict_set d k v).*1 -> k' = k \/ k' ∈ d.*1.
Proof.
  induction d as [|[k0 v0] d IH]; simpl; intros Hnd.
  - split; [apply NoDup_singleton|]. intros k' Hk'.
    apply list_elem_of_singleton in Hk'. by left.
  - apply NoDup_cons in Hnd as [Hnin Hnd].
    destruct (decide (k0 = k)) as [->|Hne]; simpl.
    + split; [by apply NoDup_cons|]. intros k' Hk'. by right.
    + destruct (IH Hnd) as [IH1 IH2]. split.
      * apply NoDup_cons. split; [|done]. intros Hin.
        destruct (IH2 _ Hin) as [?|?]; done.
      * intros k' Hk'. apply elem_of_cons in Hk' as [->|Hk'].
        -- right. by left.
        -- destruct (IH2 _ Hk') as [?|?]; [by left|right; by right].
Qed.

Lemma source_map_keys (sources : list source) : NoDup (source_map sources).*1.
Proof.
  unfold source_map.
  induction sources as [|new seen IH] using rev_ind; [constructor|].
  rewrite fold_left_app. cbn [fold_left].
  set (m := fold_left _ seen []) in *.
  destruct (dict_get m _) as [cur|];
    [destruct (src_cost new <? src_cost cur)%Z|]; try done;
    by apply dict_set_keys.
Qed.

Lemma dict_get_NoDup {K V} `{EqDecision K} (d : list (K * V)) (k : K) (v : V) :
  NoDup d.*1 -> (k, v) ∈ d -> dict_get d k = Some v.
Proof.
  induction d as [|[k0 v0] d IH]; simpl; intros Hnd Hin.
  - by apply elem_of_nil in Hin.
  - apply NoDup_cons in Hnd as [Hnin Hnd].
    apply elem_of_cons in Hin as [[= <- <-]|Hin].
    + by rewrite decide_True.
    + rewrite decide_False; [by apply IH|]. intros ->. apply Hnin.
      apply list_elem_of_fmap. by exists (k, v).
Qed.

(** A pipe of the search is rooted at a cheapest source of its scope
    and feed type. *)
Lemma available_cheapest transforms good sources (p : pipe) (s' : source) :
  available transforms good sources p ->
  s' ∈ sources -> src_scope s' = src_scope p.1.1.2 ->
  src_feed_type s' = src_feed_type p.1.1.2 ->
  (src_cost p.1.1.2 <= src_cost s')%Z.
Proof.
  intros ([k s] & Hkv & Hgrow) Hin Hsc Hft.
  pose proof (grows_source transforms _ _ Hgrow) as Hs. simpl in Hs.
  rewrite Hs in *. clear Hs.
  destruct (source_map_spec (usable_sources good sources)) as [Hmap Hkeys].
  destruct (Hkeys _ _ Hkv) as [Hus ->].
  apply elem_of_usable_sources in Hus as [_ Hmin].
  assert (Hus' : s' ∈ usable_sources good sources).
  { unfold usable_sources. apply list_elem_of_In, filter_In.
    split; [by apply list_elem_of_In|]. apply Nat.leb_le. lia. }
  destruct (Hmap s' Hus') as (s0 & Hget & Hle).
  rewrite Hsc, Hft in Hget.
  rewrite (dict_get_NoDup _ _ _ (source_map_keys _) Hkv) in Hget.
  injection Hget as <-. done.
Qed.

Lemma joins_seq (P : pipe -> Prop) (p : pipe) (q : combo) :
  P p -> rtc (joins P) (single p) q ->
  NoDup (List.map fst q.1.2) /\
  (forall s, s ∈ List.map fst q.1.2 <-> s ∈ q.1.1.2) /\
  forall s ts, (s, ts) ∈ q.1.2 -> exists v c, P (v, s, ts, c).
Proof.
  intros Hp. revert q. apply rtc_ind_r.
  - destruct p as [[[v s] ts] c]. simpl. split; [apply NoDup_singleton|].
    split.
    + intros s'. rewrite list_elem_of_singleton, elem_of_singleton. done.
    + intros s' ts' Hin. apply list_elem_of_singleton in Hin as [= -> ->].
      by exists v, c.
  - intros y z _ Hyz (Hnd & Hsrc & Hav).
    inversion Hyz as [V S seq c v s ts c' Hin Hs]; subst. simpl in *.
    rewrite List.map_app. simpl. split; [|split].
    + apply NoDup_app. split; [done|]. split; [|apply NoDup_singleton].
      intros s' Hs' Hs1. apply list_elem_of_singleton in Hs1 as ->.
      by apply Hs, Hsrc.
    + intros s'. rewrite elem_of_app, list_elem_of_singleton, elem_of_union,
        elem_of_singleton, Hsrc. done.
    + intros s' ts' Hin'. apply elem_of_app in Hin' as [Hin'|Hin'].
      * by apply Hav.
      * apply list_elem_of_singleton in Hin' as [= -> ->]. by exists v, c'.
Qed.

(** The plan chosen is made of pipes of the search, of different
    sources. *)
Lemma chosen_pipes (o : hash_order) (transforms : list transform)
      (fuel : nat) (sinks : list sink) (sources : list source) (p : plan)
      (chosen : list (source * gset transform)) :
  plan_pipes o transforms fuel sinks sources = Returned (Plugged p) ->
  to_run p = Some chosen ->
  NoDup (List.map fst chosen) /\
  forall s ts, (s, ts) ∈ chosen ->
    exists v c, available transforms (good_sinks p) sources (v, s, ts, c).
Proof.
  intros Hplan Hrun.
  destruct (plan_pipes_plugged _ _ _ _ _ _ Hplan)
    as (best_scope & source0 & st & _ & _ & _ & Hne & _ & _ & Hloop & Hseq).
  destruct (pipes_to_run st) as [seq|] eqn:Eseq.
  - rewrite Hrun in Hseq. injection Hseq as ->.
    assert (Hset0 : settled transforms (sink_types_of (good_sinks p))
                            (search_start (good_sinks p) sources source0)).
    { intros x Hx. by apply elem_of_nil in Hx. }
    assert (Hcoh0 : coherent (sink_types_of (good_sinks p))
                             (search_start (good_sinks p) sources source0))
      by done.
    destruct (search_loop_ok o transforms _ fuel _ _ Hloop Hset0 Hcoh0)
      as (_ & Hcoh & _ & _ & Horigin).
    unfold coherent in Hcoh. rewrite Eseq in Hcoh.
    destruct seq as [|[s ts] [|? ?]]; destruct (best_cost st) as [b|];
      try done.
    destruct Hcoh as (v & Hin & _).
    destruct (Horigin _ Hin) as (p0 & [Hp0|Hp0] & Hgrow);
      [by apply elem_of_nil in Hp0|].
    cbn [unprocessed search_start] in Hp0.
    apply elem_of_seeds in Hp0 as (kv & Hkv & ->).
    split; [apply NoDup_singleton|].
    intros s' ts' Hin'. apply list_elem_of_singleton in Hin' as [= -> ->].
    exists v, b. by exists kv.
  - destruct Hseq as (st2 & Hcomb & Hrun2). rewrite Hrun in Hrun2.
    destruct (second_search _ _ _ _ _ _ _ _ Hloop Eseq Hcomb) as [Hfound _].
    rewrite <- Hrun2 in Hfound.
    destruct Hfound as (V & S & b & p0 & _ & _ & _ & Hp0 & Hj & _).
    destruct (joins_seq _ _ _ Hp0 Hj) as (Hnd & _ & Hav). done.
Qed.

(** Every pipeline [plug] returns is rooted at a source of the input,
    a different one per pipeline, that is a cheapest source of its scope
    and feed type and has at least the scope of some check in the plan;
    and its tree is well fed with transforms of the input. *)
Theorem plug_pipelines (o : hash_order) (transforms : list transform)
        (fuel : nat) (sinks : list sink) (sources : list source)
        (unreachable : list sink) (result : list (source * runner)) :
  plug o transforms fuel sinks sources = Returned (unreachable, result) ->
  NoDup (List.map fst result) /\
  forall s r, (s, r) ∈ result ->
    s ∈ sources /\
    (forall s', s' ∈ sources -> src_scope s' = src_scope s ->
                src_feed_type s' = src_feed_type s ->
                (src_cost s <= src_cost s')%Z) /\
    (exists k, k ∈ assigned result /\ (sink_scope k <= src_scope s)%nat) /\
    well_fed transforms (src_scope s) (src_feed_type s) r = true.
Proof.
  intros H. unfold plug in H.
  destruct (plan_pipes o transforms fuel sinks sources) as [[u|p]| |] eqn:E;
    try discriminate.
  { injection H as <- <-. split; [constructor|].
    intros s r Hin. by apply elem_of_nil in Hin. }
  destruct (to_run p) as [[|p0 seq]|] eqn:Erun; try discriminate.
  destruct (build_all o fuel (src_scope (final_source p)) (p0 :: seq)
                      (sort_by_priority (good_sinks p)))
    as [[res [|x left]]|] eqn:Eb; try discriminate.
  injection H as <- <-.
  destruct (chosen_pipes _ _ _ _ _ _ _ E Erun) as [Hnd Hav].
  pose proof (build_all_length _ _ _ _ _ _ _ Eb) as Hfst.
  destruct (plan_pipes_plugged _ _ _ _ _ _ E)
    as (_ & _ & _ & _ & _ & _ & Hne & _).
  split; [by rewrite Hfst|].
  intros s r Hin.
  assert (Hs : s ∈ List.map fst (p0 :: seq)).
  { rewrite <- Hfst. apply list_elem_of_fmap. by exists (s, r). }
  apply list_elem_of_fmap in Hs as ([s' ts] & -> & Hch). cbn [fst] in *.
  destruct (Hav _ _ Hch) as (v & c & Hp).
  destruct (available_source _ _ _ _ Hp) as [Hus Hgrow]. cbn [fst snd] in *.
  apply elem_of_usable_sources in Hus as [Hsrc Hmin].
  split; [done|]. split; [|split].
  - intros s0 Hs0 Hsc Hft.
    by apply (available_cheapest _ _ _ _ s0 Hp).
  - destruct (min_scope_elem _ Hne) as (k & Hk & Hkmin).
    exists k. split; [|lia].
    pose proof (build_all_perm _ _ _ _ _ _ _ Eb) as Hperm.
    rewrite app_nil_r in Hperm. unfold assigned.
    rewrite Hperm, sort_by_priority_perm. done.
  - eapply build_all_well_fed; [|exact Eb|exact Hin].
    intros s0 ts0 t Hin0 Ht.
    destruct (Hav _ _ Hin0) as (v0 & c0 & Hp0).
    destruct (available_source _ _ _ _ Hp0) as [_ Hgrow0].
    by apply (grows_transforms _ _ _ Hgrow0).
Qed.

(** ** The order of the children of a runner *)

Definition priority_le (a b : sink) : Prop :=
  (sink_priority a <= sink_priority b)%Z.

Definition is_plain (c : child) : bool :=
  match c with
  | Plain _ => true
  | Wrapped _ _ => false
  end.

Fixpoint plain_checks (cs : list child) : list sink :=
  match cs with
  | [] => []
  | Plain k :: rest => k :: plain_checks rest
  | Wrapped _ _ :: rest => plain_checks rest
  end.

(** No transform comes after a check. *)
Fixpoint wrapped_first (cs : list child) : bool :=
  match cs with
  | [] => true
  | Wrapped _ _ :: rest => wrapped_first rest
  | Plain _ :: rest => forallb is_plain rest
  end.

(** No check comes before one of a higher priority. *)
Fixpoint descending (l : list sink) : bool :=
  match l with
  | [] => true
  | a :: rest =>
      forallb (fun b => (sink_priority b <=? sink_priority a)%Z) rest &&
      descending rest
  end.

Fixpoint ordered (r : runner) : bool :=
  match r with
  | CheckRunner children =>
      wrapped_first children && descending (plain_checks children) &&
      forallb child_ordered children
  end
with child_ordered (c : child) : bool :=
  match c with
  | Wrapped _ r => ordered r
  | Plain _ => true
  end.

Lemma insert_sorted_sorted (s : sink) (l : list sink) :
  StronglySorted priority_le l -> StronglySorted priority_le (insert_sorted s l).
Proof.
  induction 1 as [|x l Hl IH Hx]; simpl; [by repeat constructor|].
  destruct (sink_priority x <=? sink_priority s)%Z eqn:Hle.
  - apply Z.leb_le in Hle. constructor; [done|].
    rewrite (insert_sorted_perm s l). by constructor.
  - apply Z.leb_gt in Hle. constructor; [by constructor|].
    constructor; [unfold priority_le; lia|].
    eapply Forall_impl; [exact Hx|]. unfold priority_le. intros; simpl in *. lia.
Qed.

Lemma sort_by_priority_sorted (l : list sink) :
  StronglySorted priority_le (sort_by_priority l).
Proof.
  unfold sort_by_priority.
  assert (H : forall acc, StronglySorted priority_le acc ->
            StronglySorted priority_le
              (fold_left (fun acc s => insert_sorted s acc) l acc)).
  { induction l as [|x l IH]; intros acc Hacc; [done|]. simpl.
    by apply IH, insert_sorted_sorted. }
  apply H. constructor.
Qed.

Lemma filter_sorted (f : sink -> bool) (l : list sink) :
  StronglySorted priority_le l -> StronglySorted priority_le (List.filter f l).
Proof.
  induction 1 as [|x l Hl IH Hx]; simpl; [constructor|].
  destruct (f x); [|done]. constructor; [done|].
  apply Forall_forall. intros y Hy.
  apply list_elem_of_In, filter_In in Hy as [Hy _].
  rewrite Forall_forall in Hx. by apply Hx, list_elem_of_In.
Qed.

Lemma descending_snoc (l : list sink) (a : sink) :
  descending (l ++ [a]) =
  descending l && forallb (fun x => (sink_priority a <=? sink_priority x)%Z) l.
Proof.
  induction l as [|x l IH]; [done|]. cbn [app descending forallb].
  rewrite forallb_app, IH. cbn [forallb].
  destruct (sink_priority a <=? sink_priority x)%Z;
    destruct (forallb _ l); destruct (descending l);
    destruct (forallb _ l); done.
Qed.

Lemma descending_rev (l : list sink) :
  StronglySorted priority_le l -> descending (rev l) = true.
Proof.
  induction 1 as [|x l Hl IH Hx]; [done|]. cbn [rev].
  rewrite descending_snoc, IH. cbn [andb]. apply forallb_forall.
  intros y Hy. apply in_rev, list_elem_of_In in Hy.
  rewrite Forall_forall in Hx. apply Z.leb_le. by apply Hx.
Qed.

Lemma plain_checks_app (cs ds : list child) :
  plain_checks (cs ++ ds) = plain_checks cs ++ plain_checks ds.
Proof.
  induction cs as [|[t r|k] cs IH]; [done|exact IH|]. simpl. by rewrite IH.
Qed.

Lemma plain_checks_plain (l : list sink) : plain_checks (List.map Plain l) = l.
Proof. induction l as [|x l IH]; [done|]. simpl. by rewrite IH. Qed.

(** The children built from transforms: all wrapped, each in order. *)
Definition wrappers (cs : list child) : bool :=
  forallb (fun c => negb (is_plain c) && child_ordered c) cs.

Lemma wrappers_then_plain (cs : list child) (l : list sink) :
  wrappers cs = true ->
  wrapped_first (cs ++ List.map Plain l) = true /\
  plain_checks (cs ++ List.map Plain l) = l /\
  forallb child_ordered (cs ++ List.map Plain l) = true.
Proof.
  unfold wrappers. induction cs as [|[t r|k] cs IH]; simpl.
  - intros _. rewrite plain_checks_plain. split; [|split; [done|]].
    + destruct l as [|x l]; [done|]. simpl.
      induction l as [|y l IHl]; [done|]. exact IHl.
    + induction l as [|y l IHl]; [done|]. exact IHl.
  - intros H. apply andb_true_iff in H as [Hr H].
    destruct (IH H) as (I1 & I2 & I3). rewrite Hr. done.
  - done.
Qed.

Lemma build_transform_ordered (o : hash_order) (fuel : nat) :
  forall source_scope scope feed_type trans pool r pool',
    StronglySorted priority_le pool ->
    build_transform o fuel source_scope scope feed_type trans pool
      = Some (r, pool') ->
    ordered r = true /\ StronglySorted priority_le pool'.
Proof.
  induction fuel as [|fuel IH]; intros source_scope scope feed_type trans pool
    r pool' Hsorted H; [done|].
  cbn [build_transform] in H.
  set (step := fun (acc : option (list child * list sink)) t =>
         match acc with
         | None => None
         | Some (children, good_sinks) =>
             if bool_decide (tr_source t = feed_type) &&
                (tr_scope t <=? scope)%nat
             then
               match build_transform o fuel source_scope scope
                                     (tr_dest t) trans good_sinks with
               | None => None
               | Some (r, good_sinks) =>
                   Some (children ++ [Wrapped t r], good_sinks)
               end
             else acc
         end) in H.
  assert (Hfold : forall ts children pool0 children' pool1,
            wrappers children = true -> StronglySorted priority_le pool0 ->
            fold_left step ts (Some (children, pool0)) = Some (children', pool1) ->
            wrappers children' = true /\ StronglySorted priority_le pool1).
  { induction ts as [|t ts IHts]; intros children pool0 children' pool1 Hc Hp Hf.
    - simpl in Hf. by injection Hf as <- <-.
    - cbn [fold_left] in Hf. unfold step at 2 in Hf.
      destruct (bool_decide (tr_source t = feed_type) &&
                (tr_scope t <=? scope)%nat).
      + destruct (build_transform o fuel source_scope scope (tr_dest t)
                                  trans pool0) as [[r0 p0]|] eqn:E.
        * destruct (IH _ _ _ _ _ _ _ Hp E) as [Hr0 Hp0].
          apply (IHts _ _ _ _) in Hf; [done| |done].
          unfold wrappers. rewrite forallb_app. fold (wrappers children).
          rewrite Hc. simpl. by rewrite Hr0.
        * rewrite fold_left_None in Hf; [done|]. done.
      + by apply (IHts _ _ _ _ Hc Hp) in Hf. }
  destruct (fold_left step (set_iter (pick_trans o) (elements trans))
                      (Some ([], pool))) as [[children pool1]|] eqn:E; [|done].
  injection H as <- <-.
  destruct (Hfold _ [] pool _ _ eq_refl Hsorted E) as [Hw Hp1].
  rewrite take_sinks_spec. cbn [fst snd]. split; [|by apply filter_sorted].
  cbn [ordered].
  destruct (wrappers_then_plain children
              (rev (List.filter (wanted source_scope feed_type) pool1)) Hw)
    as (W1 & W2 & W3).
  rewrite W1, W2, W3, descending_rev; [done|]. by apply filter_sorted.
Qed.

Lemma build_all_ordered (o : hash_order) (fuel source_scope : nat) :
  forall chosen pool result pool',
    StronglySorted priority_le pool ->
    build_all o fuel source_scope chosen pool = Some (result, pool') ->
    forall s r, (s, r) ∈ result -> ordered r = true.
Proof.
  induction chosen as [|[src trans] rest IH]; intros pool result pool' Hp H.
  - simpl in H. injection H as <- <-. intros s r Hin.
    by apply elem_of_nil in Hin.
  - cbn [build_all] in H.
    destruct (build_transform o fuel source_scope (src_scope src)
                              (src_feed_type src) trans pool)
      as [[r0 p1]|] eqn:E1; [|done].
    destruct (build_all o fuel source_scope rest p1) as [[res p2]|] eqn:E2;
      [|done].
    destruct (build_transform_ordered _ _ _ _ _ _ _ _ _ Hp E1) as [Hr0 Hp1].
    injection H as <- <-. intros s r Hin.
    apply elem_of_cons in Hin as [[= -> ->]|Hin]; [done|].
    by eapply IH.
Qed.

(** In every runner of every pipeline [plug] returns, the transforms
    come before the checks, and no check comes before one of a higher
    priority: the checks of a runner are fed from the highest priority
    down. *)
Theorem plug_children_order (o : hash_order) (transforms : list transform)
        (fuel : nat) (sinks : list sink) (sources : list source)
        (unreachable : list sink) (result : list (source * runner)) :
  plug o transforms fuel sinks sources = Returned (unreachable, result) ->
  forall s r, (s, r) ∈ result -> ordered r = true.
Proof.
  intros H. unfold plug in H.
  destruct (plan_pipes o transforms fuel sinks sources) as [[u|p]| |] eqn:E;
    try discriminate.
  { injection H as <- <-. intros s r Hin. by apply elem_of_nil in Hin. }
  destruct (to_run p) as [[|p0 seq]|] eqn:Erun; try discriminate.
  destruct (build_all o fuel (src_scope (final_source p)) (p0 :: seq)
                      (sort_by_priority (good_sinks p)))
    as [[res [|x left]]|] eqn:Eb; try discriminate.
  injection H as <- <-.
  eapply build_all_ordered; [|exact Eb]. apply sort_by_priority_sorted.
Qed.

(** ** Concrete plans *)

Lemma plug_unreachable_witness :
  [] `sublist_of` [A; B] /\
  (forall s, s ∈ [] <-> s ∈ [A; B] /\ ~ reachable_sink [T] [S_ver; S_pkg] s) /\
  ([(S_ver, CheckRunner [Wrapped T (CheckRunner [Plain B]); Plain A])] = []
   <-> [] = [A; B]).
Proof.
  apply (plug_unreachable first_order [T] 10 [A; B] [S_ver; S_pkg]).
  vm_compute. reflexivity.
Defined.

Lemma plug_pipelines_witness :
  well_fed [T] (src_scope S_ver) (src_feed_type S_ver)
           (CheckRunner [Wrapped T (CheckRunner [Plain B]); Plain A]) = true.
Proof.
  refine (proj2 (proj2 (proj2
    (proj2 (plug_pipelines first_order [T] 10 [A; B] [S_ver; S_pkg] []
              [(S_ver, CheckRunner [Wrapped T (CheckRunner [Plain B]); Plain A])]
              _) S_ver _ _)))).
  - vm_compute. reflexivity.
  - by left.
Defined.

Lemma plug_children_order_witness :
  ordered (CheckRunner [Plain late; Plain early2; Plain early]) = true.
Proof.
  apply (plug_children_order first_order [] 5 [early; early2; late] [versions]
           [] [(versions, CheckRunner [Plain late; Plain early2; Plain early])]
           eq_refl versions).
  by left.
Defined.

(** ** The variable [source] that [build_transform] reads *)

Section LastSource.

Variable o : hash_order.
Variable transforms : list transform.
Variable sink_types : gset string.
Variable P : source -> Prop.

(** [source], and the source of every pipeline the search holds. *)
Definition sources_in (st : search) : Prop :=
  P (source_var st) /\
  (forall p, p ∈ unprocessed st -> P p.1.1.2) /\
  (forall p, p ∈ pipes st -> P p.1.1.2).

Lemma search_step_sources (st : search) (next : pipe) (rest : list pipe) :
  (forall y, y ∈ unprocessed st <-> y = next \/ y ∈ rest) ->
  sources_in st ->
  sources_in (search_step transforms sink_types next rest st).
Proof.
  intros Hel (Hv & Hu & Hp).
  assert (Hnext : P next.1.1.2) by (apply Hu, Hel; by left).
  assert (Hrest : forall p, p ∈ rest -> P p.1.1.2).
  { intros p Hin. apply Hu, Hel. by right. }
  assert (Hpipes : forall p, p ∈ set_add next (pipes st) -> P p.1.1.2).
  { intros p Hin. apply elem_of_set_add in Hin as [->|Hin]; [done|by apply Hp]. }
  assert (Hgrow : forall p, p ∈ grow transforms next rest -> P p.1.1.2).
  { intros p Hin. apply elem_of_grow in Hin as [Hin|Hg]; [by apply Hrest|].
    by rewrite (grows_by_source transforms _ _ Hg). }
  unfold search_step. case_bool_decide; [done|].
  destruct next as [[[v s] ts] c]. cbv zeta.
  destruct (bool_decide (sink_types ⊆ v));
    [destruct (improves (best_cost st) c)
    |destruct (hopeless (best_cost st) c)]; done.
Qed.

Lemma search_loop_sources (fuel : nat) :
  forall st st',
    search_loop o transforms fuel sink_types st = Some st' ->
    sources_in st -> sources_in st'.
Proof.
  induction fuel as [|fuel IH]; intros st st' H Hin; [done|].
  cbn [search_loop] in H.
  destruct (set_pop (pick_pipe o fuel) (unprocessed st)) as [[next rest]|] eqn:E.
  - apply (IH _ _ H). apply search_step_sources; [|done].
    apply (set_pop_Some _ _ _ _ E).
  - by injection H as <-.
Qed.

Lemma last_key_in {K V} (d : list (K * V)) (dflt : K) (Q : K -> Prop) :
  Q dflt -> (forall kv, kv ∈ d -> Q kv.1) -> Q (last_key d dflt).
Proof.
  intros Hd Hall. unfold last_key. destruct (last d) as [kv|] eqn:E; [|done].
  apply Hall. apply last_Some in E as [l' ->].
  apply elem_of_app. right. by left.
Qed.

Lemma combine_loop_source (fuel : nat)
      (d : list (source * list (gset string * gset transform * Z))) :
  (forall kv, kv ∈ d -> P kv.1) ->
  forall st st',
    combine_loop o fuel d sink_types st = Some st' ->
    P (source_var2 st) -> P (source_var2 st').
Proof.
  intros Hd. induction fuel as [|fuel IH]; intros st st' H Hv; [done|].
  cbn [combine_loop] in H.
  destruct (set_pop (pick_combo o fuel) (unprocessed2 st))
    as [[next rest]|] eqn:E.
  - apply (IH _ _ H). unfold combine_step. case_bool_decide; [done|].
    destruct next as [[[V S] seq] c]. cbv zeta.
    destruct (hopeless _ c); [done|].
    cbn [source_var2]. by apply last_key_in.
  - by injection H as <-.
Qed.

Lemma dict_append_keys {K V} `{EqDecision K} (d : list (K * list V))
      (k : K) (x : V) (kv : K * list V) :
  kv ∈ dict_append d k x -> kv.1 = k \/ exists l, (kv.1, l) ∈ d.
Proof.
  unfold dict_append. intros H.
  assert (Hc : exists l, kv = (k, l) \/ kv ∈ d).
  { destruct (dict_get d k) as [l|]; eexists; by apply elem_of_dict_set in H. }
  destruct Hc as (l & [->|Hin]); [by left|].
  right. exists kv.2. by destruct kv.
Qed.

Lemma source_to_pipes_keys (seen : list pipe)
      (kv : source * list (gset string * gset transform * Z)) :
  kv ∈ source_to_pipes_of seen -> exists p, p ∈ seen /\ p.1.1.2 = kv.1.
Proof.
  unfold source_to_pipes_of. revert kv.
  induction seen as [|p seen IH] using rev_ind; intros kv H.
  - by apply elem_of_nil in H.
  - rewrite fold_left_app in H. cbn [fold_left] in H.
    apply dict_append_keys in H as [Hk|(l & Hl)].
    + exists p. split; [|done]. apply elem_of_app. right. by left.
    + destruct (IH _ Hl) as (q & Hq & Hs). exists q. split; [|done].
      apply elem_of_app. by left.
Qed.

Lemma combine_pipes_source (fuel : nat) (st : search) (st2 : combine) :
  combine_pipes o fuel sink_types st = Some st2 ->
  P (source_var st) -> (forall p, p ∈ pipes st -> P p.1.1.2) ->
  P (source_var2 st2).
Proof.
  unfold combine_pipes. intros H Hv Hp.
  assert (Hseen : forall p, p ∈ set_iter (pick_pipe o) (pipes st) -> P p.1.1.2).
  { intros p Hin. apply elem_of_set_iter in Hin. by apply Hp. }
  apply (combine_loop_source _ _) in H; [done| |].
  - intros kv Hkv. apply source_to_pipes_keys in Hkv as (p & Hin & <-).
    by apply Hseen.
  - cbn [source_var2].
    destruct (last (set_iter (pick_pipe o) (pipes st))) as [p|] eqn:E; [|done].
    apply Hseen. apply last_Some in E as [l' ->].
    apply elem_of_app. right. by left.
Qed.

End LastSource.

(** Where [plug]'s variable [source] comes from. *)
Lemma plan_pipes_source (o : hash_order) (transforms : list transform)
      (fuel : nat) (sinks : list sink) (sources : list source) (p : plan) :
  plan_pipes o transforms fuel sinks sources = Returned (Plugged p) ->
  exists source0 st,
    last sources = Some source0 /\
    search_loop o transforms fuel (sink_types_of (good_sinks p))
                (search_start (good_sinks p) sources source0) = Some st /\
    match pipes_to_run st with
    | Some seq => final_source p = source_var st
    | None => exists st2,
        combine_pipes o fuel (sink_types_of (good_sinks p)) st = Some st2 /\
        final_source p = source_var2 st2
    end.
Proof.
  unfold plan_pipes. destruct sinks as [|s0 sinks'] eqn:Es; [done|].
  cbv match. rewrite <- Es. clear Es.
  destruct (best_scopes o transforms fuel sources ∅) as [best_scope|] eqn:Eb;
    [|done].
  fold (good_of best_scope sinks).
  destruct (good_of best_scope sinks) as [|g good'] eqn:Egood; [done|].
  destruct (last sources) as [source0|] eqn:Elast; [|done].
  fold (usable_sources (g :: good') sources).
  destruct (usable_sources (g :: good') sources) as [|u us] eqn:Eus; [done|].
  fold (sink_types_of (g :: good')).
  destruct (search_loop o transforms fuel (sink_types_of (g :: good')) _)
    as [st|] eqn:Eloop; [|done].
  destruct (pipes_to_run st) as [seq|] eqn:Eseq.
  - intros [= <-]. exists source0, st. cbn [good_sinks final_source].
    unfold search_start. rewrite Eus, Eloop, Eseq. done.
  - destruct (combine_pipes o fuel (sink_types_of (g :: good')) st)
      as [st2|] eqn:Ecomb; [|done].
    intros [= <-]. exists source0, st. cbn [good_sinks final_source].
    unfold search_start. rewrite Eus, Eloop, Eseq.
    repeat split; try done. by exists st2.
Qed.

(** Every check [build_transform] puts in a tree passed the test
    [sink.scope <= source.scope]. *)
Lemma build_transform_scope (o : hash_order) (fuel : nat) :
  forall source_scope scope feed_type trans pool r pool',
    build_transform o fuel source_scope scope feed_type trans pool
      = Some (r, pool') ->
    Forall (fun k => (sink_scope k <= source_scope)%nat) (feed_order r).
Proof.
  induction fuel as [|fuel IH]; intros source_scope scope feed_type trans pool
    r pool' H; [done|].
  cbn [build_transform] in H.
  set (step := fun (acc : option (list child * list sink)) t =>
         match acc with
         | None => None
         | Some (children, good_sinks) =>
             if bool_decide (tr_source t = feed_type) &&
                (tr_scope t <=? scope)%nat
             then
               match build_transform o fuel source_scope scope
                                     (tr_dest t) trans good_sinks with
               | None => None
               | Some (r, good_sinks) =>
                   Some (children ++ [Wrapped t r], good_sinks)
               end
             else acc
         end) in H.
  assert (Hfold : forall ts children pool0 children' pool1,
            fold_left step ts (Some (children, pool0)) = Some (children', pool1) ->
            Forall (fun k => (sink_scope k <= source_scope)%nat)
                   (flat_map child_feed_order children) ->
            Forall (fun k => (sink_scope k <= source_scope)%nat)
                   (flat_map child_feed_order children')).
  { induction ts as [|t ts IHts]; intros children pool0 children' pool1 Hf Hc.
    - simpl in Hf. by injection Hf as <- <-.
    - cbn [fold_left] in Hf. unfold step at 2 in Hf.
      destruct (bool_decide (tr_source t = feed_type) &&
                (tr_scope t <=? scope)%nat).
      + destruct (build_transform o fuel source_scope scope (tr_dest t)
                                  trans pool0) as [[r0 p0]|] eqn:E.
        * apply (IHts _ _ _ _ Hf). rewrite flat_map_app. simpl.
          rewrite app_nil_r. apply Forall_app. split; [done|]. by eapply IH.
        * rewrite fold_left_None in Hf; [done|]. done.
      + by apply (IHts _ _ _ _ Hf). }
  destruct (fold_left step (set_iter (pick_trans o) (elements trans))
                      (Some ([], pool))) as [[children pool1]|] eqn:E; [|done].
  injection H as <- <-.
  change (feed_order (CheckRunner ?c)) with (flat_map child_feed_order c).
  rewrite flat_map_app, feed_order_plain. apply Forall_app. split.
  - apply (Hfold _ _ _ _ _ E). constructor.
  - rewrite take_sinks_spec. cbn [fst]. apply Forall_forall. intros k Hk.
    apply list_elem_of_In, in_rev, filter_In in Hk as [_ Hk].
    unfold wanted in Hk. apply andb_true_iff in Hk as [_ Hk].
    by apply Nat.leb_le in Hk.
Qed.

Lemma build_all_scope (o : hash_order) (fuel source_scope : nat) :
  forall chosen pool result pool',
    build_all o fuel source_scope chosen pool = Some (result, pool') ->
    forall s r k, (s, r) ∈ result -> k ∈ feed_order r ->
                  (sink_scope k <= source_scope)%nat.
Proof.
  induction chosen as [|[src trans] rest IH]; intros pool result pool' H s r k.
  - simpl in H. injection H as <- <-. intros Hin. by apply elem_of_nil in Hin.
  - cbn [build_all] in H.
    destruct (build_transform o fuel source_scope (src_scope src)
                              (src_feed_type src) trans pool)
      as [[r1 p1]|] eqn:E1; [|done].
    destruct (build_all o fuel source_scope rest p1) as [[res p2]|] eqn:E2;
      [|done].
    injection H as <- <-. intros Hin Hk.
    apply elem_of_cons in Hin as [[= -> ->]|Hin].
    + apply build_transform_scope in E1.
      by apply (proj1 (Forall_forall _ _) E1).
    + by apply (IH _ _ _ E2 s r k).
Qed.

(** [build_transform] tests the scope of a check against the variable
    [source] of [plug], not against the source of the pipeline it
    builds.  That variable holds a source of the input, the one the
    searches unpacked last; when [plug] returns, the checks of the
    pipelines are the reachable sinks, and each of them, in whichever
    pipeline it is, has at most the scope of that one source. *)
Theorem plug_scope_of_last_source (o : hash_order)
        (transforms : list transform) (fuel : nat) (sinks : list sink)
        (sources : list source) (p : plan)
        (unreachable : list sink) (result : list (source * runner)) :
  plan_pipes o transforms fuel sinks sources = Returned (Plugged p) ->
  plug o transforms fuel sinks sources = Returned (unreachable, result) ->
  final_source p ∈ sources /\
  assigned result ≡ₚ good_sinks p /\
  forall s r k, (s, r) ∈ result -> k ∈ feed_order r ->
                (sink_scope k <= src_scope (final_source p))%nat.
Proof.
  intros Hplan H. split.
  - destruct (plan_pipes_source _ _ _ _ _ _ Hplan)
      as (source0 & st & Hlast & Hloop & Hfin).
    assert (Hin : sources_in (fun s => s ∈ sources) st).
    { apply (search_loop_sources _ _ _ _ _ _ _ Hloop).
      split; [|split].
      - cbn [source_var search_start]. apply last_Some in Hlast as [l' ->].
        apply elem_of_app. right. by left.
      - intros q Hq. cbn [unprocessed search_start] in Hq.
        apply elem_of_seeds in Hq as (kv & Hkv & ->). cbn [seed fst snd].
        destruct (source_map_spec (usable_sources (good_sinks p) sources))
          as [_ Hkeys].
        destruct kv as [key s0]. destruct (Hkeys _ _ Hkv) as [Hs0 _].
        by apply elem_of_usable_sources in Hs0 as [? _].
      - intros q Hq. by apply elem_of_nil in Hq. }
    destruct Hin as (Hv & _ & Hp).
    destruct (pipes_to_run st); [by rewrite Hfin|].
    destruct Hfin as (st2 & Hcomb & ->).
    by apply (combine_pipes_source o _ (fun s => s ∈ sources) _ _ _ Hcomb).
  - unfold plug in H. rewrite Hplan in H.
    destruct (to_run p) as [[|p0 seq]|]; try discriminate.
    destruct (build_all o fuel (src_scope (final_source p)) (p0 :: seq)
                        (sort_by_priority (good_sinks p)))
      as [[res [|x left]]|] eqn:E; try discriminate.
    injection H as <- <-. split.
    + apply build_all_perm in E. rewrite app_nil_r in E.
      unfold assigned. by rewrite E, sort_by_priority_perm.
    + by apply (build_all_scope _ _ _ _ _ _ _ E).
Qed.

(** Two checks of scopes 0 and 1 on the feed type of two sources of
    scopes 0 and 1 and one cost. *)
Definition K0 : sink := Check "K0" "X" 0 0.
Definition K1 : sink := Check "K1" "X" 1 0.

(** The searches leave [S2], of scope 1, in [source]; the pipeline is
    rooted at [S1], of scope 0, and holds [K1], of scope 1. *)
Lemma plug_scope_of_last_source_witness :
  plug first_order [] 5 [K0; K1] [S1; S2] =
    Returned ([], [(S1, CheckRunner [Plain K1; Plain K0])]) /\
  (sink_scope K1 <= src_scope S2)%nat /\
  (src_scope S1 < sink_scope K1)%nat.
Proof.
  split; [vm_compute; reflexivity|]. split; [|simpl; lia].
  destruct (plug_scope_of_last_source first_order [] 5 [K0; K1] [S1; S2]
              {| bad_sinks := []; good_sinks := [K0; K1];
                 to_run := Some [(S1, ∅)]; final_source := S2 |}
              [] [(S1, CheckRunner [Plain K1; Plain K0])])
    as (_ & _ & Hscope).
  - vm_compute. reflexivity.
  - vm_compute. reflexivity.
  - apply (Hscope S1 (CheckRunner [Plain K1; Plain K0]) K1); by left.
Defined.

(** C4. On these two sources and two checks every check is reachable,
    and yet [plug] does not partition them: when the searches unpack
    [S1], of scope 0, last, [build_transform] tests the scope of [K1]
    against it, leaves [K1] in [good_sinks], and the final
    [assert not good_sinks] fails. *)
Theorem plug_asserts_on_reachable_sinks :
  (forall k, k ∈ [K0; K1] -> reachable_sink [] [S1; S2] k) /\
  plug last_order [] 5 [K0; K1] [S1; S2] = AssertionError.
Proof.
  split; [|vm_compute; reflexivity].
  intros k Hk. exists S2. split; [by right; left|].
  rewrite !elem_of_cons, elem_of_nil in Hk.
  destruct Hk as [->|[->|[]]]; (split; [by constructor|simpl; lia]).
Qed.

End PlanFacts.

(* ===================================================================== *)
(** * Reporters                                                           *)
(* ===================================================================== *)

Module ReportersFacts.
Import Reporters.
Local Open Scope list_scope.

(** ** StrReporter *)

(** A whole report: [add_report] for each result, then [finish]. *)
Definition StrReporter_session (self : reporter) (rs : list result)
  : str_reporter * option exn :=
  match add_report_all StrReporter_process self rs StrReporter_init with
  | (st, None) => (StrReporter_finish st, None)
  | (st, Some e) => (st, Some e)
  end.

Lemma add_report_all_snoc {S : Type}
      (process : Z -> result -> S -> S * option exn)
      (self : reporter) (rs : list result) (r : result) (st : S) :
  add_report_all process self (rs ++ [r]) st =
  match add_report_all process self rs st with
  | (st', None) => add_report process self r st'
  | (st', Some e) => (st', Some e)
  end.
Proof.
  unfold add_report_all. rewrite fold_left_app. cbn [fold_left].
  by destruct (fold_left _ rs (st, None)) as [st' [e|]].
Qed.

(** What has been written after the results [rs], when none raised. *)
Lemma str_reports_written (self : reporter) (rs : list result)
      (st : str_reporter) :
  add_report_all StrReporter_process self rs StrReporter_init = (st, None) ->
  exists lines,
    Forall2 (fun r l => str_line (verbosity self) r = inr l)
            (List.filter (enabled self) rs) lines /\
    match lines with
    | [] => st = StrReporter_init
    | _ => st = {| str_out := [] :: List.map (fun l => [l]) lines;
                   first_report := false |}
    end.
Proof.
  revert st. induction rs as [|r rs IH] using rev_ind; intros st H.
  - injection H as <-. exists []. split; [constructor|done].
  - rewrite add_report_all_snoc in H.
    destruct (add_report_all StrReporter_process self rs StrReporter_init)
      as [st0 [e|]] eqn:E0; [done|].
    destruct (IH st0 eq_refl) as (lines & Hlines & Hst0).
    rewrite List.filter_app. cbn [List.filter]. unfold add_report in H.
    destruct (enabled self r).
    + unfold StrReporter_process in H.
      destruct (str_line (verbosity self) r) as [e|line] eqn:El;
        [by destruct (first_report st0)|].
      exists (lines ++ [line]). split.
      * apply Forall2_app; [done|]. by constructor.
      * destruct lines as [|l0 lines]; subst st0;
          cbn [StrReporter_init first_report str_out] in H;
          injection H as <-; cbn [app]; [done|].
        f_equal. cbn [List.map app]. by rewrite List.map_app.
    + injection H as <-. exists lines. rewrite app_nil_r. done.
Qed.

(** A report that ends without an exception has written nothing at all
    when no result passed the keyword filter; otherwise it has written
    an empty line, one line per result that passed, in their order, and
    an empty line. *)
Theorem str_reporter_frames (self : reporter) (rs : list result)
        (st : str_reporter) :
  StrReporter_session self rs = (st, None) ->
  exists lines,
    Forall2 (fun r l => str_line (verbosity self) r = inr l)
            (List.filter (enabled self) rs) lines /\
    str_out st = match lines with
                 | [] => []
                 | _ => [] :: List.map (fun l => [l]) lines ++ [[]]
                 end.
Proof.
  unfold StrReporter_session.
  destruct (add_report_all StrReporter_process self rs StrReporter_init)
    as [st0 [e|]] eqn:E0; [done|].
  intros [= <-].
  destruct (str_reports_written self rs st0 E0) as (lines & Hlines & Hst0).
  exists lines. split; [done|].
  destruct lines as [|l0 lines]; by subst st0.
Qed.

Definition a_warning : result :=
  Result "RedundantVersion" 30 versioned_feed
         (Some "dev-lang") (Some "python") (Some "3.6")
         "slot(0) keywords are overshadowed by version: 3.7"
         "slot(0) keywords are overshadowed by version: 3.7".

Definition an_error : result :=
  Result "MetadataError" 40 versioned_feed
         (Some "dev-lang") (Some "python") (Some "3.7")
         "attr(depend): bad atom" "attr(depend): bad atom".

Lemma str_reporter_frames_witness :
  exists lines,
    Forall2 (fun r l => str_line 0 r = inr l) [an_error] lines /\
    [[]; ["dev-lang/python-3.7: attr(depend): bad atom"]; []] =
      match lines with
      | [] => []
      | _ => [] :: List.map (fun l => [l]) lines ++ [[]]
      end.
Proof.
  apply (str_reporter_frames
           (Reporter_init (Some ["MetadataError"]) None)
           [a_warning; an_error]
           {| str_out := [[]; ["dev-lang/python-3.7: attr(depend): bad atom"];
                          []];
              first_report := false |}).
  vm_compute. reflexivity.
Defined.

(** ** FancyReporter *)

(** A run of equal keys gets one header. *)
Fixpoint headers (prev : option string) (keys : list string) : list string :=
  match keys with
  | [] => []
  | k :: rest =>
      if bool_decide (Some k = prev) then headers prev rest
      else k :: headers (Some k) rest
  end.

(** The keys of the headers among the calls of [write]. *)
Definition header_of (w : list token) : option string :=
  match w with
  | [Bold; Txt k] => Some k
  | _ => None
  end.

Lemma headers_snoc (prev : option string) (keys : list string) (k : string) :
  headers prev (keys ++ [k]) =
  headers prev keys ++
  (if bool_decide (Some k = last (option_list prev ++ keys))
   then [] else [k]).
Proof.
  revert prev. induction keys as [|k0 keys IH]; intros prev.
  - destruct prev as [p|]; simpl; done.
  - cbn [app headers]. case_bool_decide as Hk.
    + rewrite IH. do 2 f_equal. subst prev. simpl. by destruct keys.
    + rewrite IH. cbn [app]. do 2 f_equal.
      destruct prev as [p|]; simpl; by destruct keys.
Qed.

Lemma fancy_process_ok (v : Z) (r : result) (self st : fancy_reporter) :
  FancyReporter_process v r self = (st, None) ->
  exists k line,
    fancy_key r = inr k /\ fancy_line v r = inr line /\
    header_of line = None /\
    first_prefix st = first_prefix self /\
    later_prefix st = later_prefix self /\
    key st = Some k /\
    fancy_out st = fancy_out self ++
                   (if bool_decide (Some k = key self) then []
                    else [[]; [Bold; Txt k]]) ++ [line].
Proof.
  unfold FancyReporter_process.
  destruct (fancy_key r) as [e|k]; [done|].
  destruct (fancy_line v r) as [e|line] eqn:El; [done|].
  intros [= <-]. exists k, line. split; [done|]. split; [done|]. split.
  { unfold fancy_line in El.
    destruct (if String.eqb _ _ then _ else _) as [?|s]; [done|].
    destruct (color r); [|done]. by injection El as <-. }
  case_bool_decide as Hk; cbn.
  - repeat split; try done.
  - repeat split; try done. by rewrite <- app_assoc.
Qed.

(** After results that were all written without an exception: the
    prefixes of the formatter are as they were, and the headers written
    are the keys of the results that passed the keyword filter, one per
    run of equal keys. *)
Theorem fancy_reporter_groups (self : reporter) (rs : list result)
        (st : fancy_reporter) :
  add_report_all FancyReporter_process self rs FancyReporter_init = (st, None) ->
  exists keys,
    Forall2 (fun r k => fancy_key r = inr k)
            (List.filter (enabled self) rs) keys /\
    omap header_of (fancy_out st) = headers None keys /\
    length (fancy_out st) = (length keys + 2 * length (headers None keys))%nat /\
    first_prefix st = [] /\ later_prefix st = [].
Proof.
  intros H.
  enough (Hgen : exists keys,
    Forall2 (fun r k => fancy_key r = inr k)
            (List.filter (enabled self) rs) keys /\
    omap header_of (fancy_out st) = headers None keys /\
    length (fancy_out st) = (length keys + 2 * length (headers None keys))%nat /\
    first_prefix st = [] /\ later_prefix st = [] /\
    key st = last keys)
    by (destruct Hgen as (keys & ? & ? & ? & ? & ? & _); by exists keys).
  revert st H. induction rs as [|r rs IH] using rev_ind; intros st H.
  - injection H as <-. exists []. by repeat split.
  - rewrite add_report_all_snoc in H.
    destruct (add_report_all FancyReporter_process self rs FancyReporter_init)
      as [st0 [e|]] eqn:E0; [done|].
    destruct (IH st0 eq_refl) as (keys & Hkeys & Hh & Hlen & Hf & Hl & Hk).
    rewrite List.filter_app. cbn [List.filter]. unfold add_report in H.
    destruct (enabled self r).
    + apply fancy_process_ok in H
        as (k & line & Hkey & Hline & Hnh & Hf' & Hl' & Hk' & Hout).
      exists (keys ++ [k]). split; [|split; [|split; [|split; [|split]]]].
      * apply Forall2_app; [done|]. by constructor.
      * rewrite Hout, !omap_app, Hh, headers_snoc.
        change (option_list None ++ keys) with keys.
        rewrite <- Hk. case_bool_decide; cbn [omap list_omap header_of];
          by rewrite Hnh.
      * rewrite Hout, !length_app, Hlen, headers_snoc.
        change (option_list None ++ keys) with keys.
        rewrite <- Hk, !length_app. case_bool_decide; cbn [length]; lia.
      * congruence.
      * congruence.
      * by rewrite last_snoc.
    + injection H as <-. exists keys. rewrite app_nil_r. done.
Qed.

Lemma fancy_reporter_groups_witness :
  exists keys,
    Forall2 (fun r k => fancy_key r = inr k) [a_warning; an_error] keys /\
    omap header_of
         [[]; [Bold; Txt "dev-lang/python"];
          [Fg "yellow"; Txt "RedundantVersion"; Reset; Txt ": ";
           Txt "version 3.6: ";
           Txt "slot(0) keywords are overshadowed by version: 3.7"];
          [Fg "red"; Txt "MetadataError"; Reset; Txt ": ";
           Txt "version 3.7: "; Txt "attr(depend): bad atom"]]
      = headers None keys /\
    4%nat = (length keys + 2 * length (headers None keys))%nat /\
    ([] : list string) = [] /\ ([] : list string) = [].
Proof.
  apply (fancy_reporter_groups (Reporter_init None None) [a_warning; an_error]
           {| fancy_out :=
                [[]; [Bold; Txt "dev-lang/python"];
                 [Fg "yellow"; Txt "RedundantVersion"; Reset; Txt ": ";
                  Txt "version 3.6: ";
                  Txt "slot(0) keywords are overshadowed by version: 3.7"];
                 [Fg "red"; Txt "MetadataError"; Reset; Txt ": ";
                  Txt "version 3.7: "; Txt "attr(depend): bad atom"]];
              first_prefix := []; later_prefix := [];
              key := Some "dev-lang/python" |}).
  vm_compute. reflexivity.
Defined.

(** When the line of a result cannot be put together (an attribute is
    missing, or the level has no colour), the exception leaves the
    prefixes pushed: there is no [finally] around the [pop]s. *)
Theorem fancy_reporter_leaves_prefixes (v : Z) (r : result)
        (self st : fancy_reporter) (k : string) (e : exn) :
  fancy_key r = inr k ->
  FancyReporter_process v r self = (st, Some e) ->
  fancy_line v r = inl e /\
  first_prefix st = first_prefix self ++ ["  "] /\
  later_prefix st = later_prefix self ++ ["    "].
Proof.
  unfold FancyReporter_process. intros ->.
  destruct (fancy_line v r) as [e'|line]; [|done].
  intros [= <- <-]. by case_bool_decide.
Qed.

Definition odd_level : result :=
  Result "Odd" 10 repository_feed None None None "odd" "odd".

Lemma fancy_reporter_leaves_prefixes_witness :
  fancy_line 0 odd_level = inl KeyError /\
  first_prefix
    {| fancy_out := [[]; [Bold; Txt "repo"]];
       first_prefix := ["  "]; later_prefix := ["    "];
       key := Some "repo" |} = first_prefix FancyReporter_init ++ ["  "] /\
  later_prefix
    {| fancy_out := [[]; [Bold; Txt "repo"]];
       first_prefix := ["  "]; later_prefix := ["    "];
       key := Some "repo" |} = later_prefix FancyReporter_init ++ ["    "].
Proof.
  apply (fancy_reporter_leaves_prefixes 0 odd_level FancyReporter_init _ "repo").
  - reflexivity.
  - reflexivity.
Defined.

End ReportersFacts.

(* ===================================================================== *)
(** * [UnstableOnlyReport.__init__]: the arches                           *)
(* ===================================================================== *)

Module ArchesFacts.
Import UnstableOnly.

Lemma lstrip_tilde (s : string) :
  startswith "~" (lstrip (Ascii.eqb "~") s) = false.
Proof.
  induction s as [|c s IH]; [done|]. cbn [lstrip].
  destruct (Ascii.eqb "~" c) eqn:Hc; [done|].
  unfold startswith. cbn [String.prefix].
  destruct (ascii_dec "~" c) as [<-|?]; [|done].
  by rewrite Ascii.eqb_refl in Hc.
Qed.

(** Whatever [str.strip] takes for whitespace, no configured arch starts
    with [~]; and an entry of [stable_arches] from which [strip] takes
    the same with and without a [~] in front (as it does when the entry
    does not start with whitespace) names the same arch with or without
    it: listing both configures one arch. *)
Theorem normalize_arch_tilde (strip : string -> string) (x : string) :
  startswith "~" (normalize_arch strip x) = false /\
  (strip (String "~" x) = String "~" (strip x) ->
   normalize_arch strip (String "~" x) = normalize_arch strip x /\
   arches_of strip [String "~" x; x] = arches_of strip [x]).
Proof.
  split; [apply lstrip_tilde|]. intros Hx.
  assert (Heq : normalize_arch strip (String "~" x) = normalize_arch strip x).
  { unfold normalize_arch. rewrite Hx. cbn [lstrip].
    by rewrite Ascii.eqb_refl. }
  split; [done|]. unfold arches_of. cbn [List.map]. rewrite Heq. set_solver.
Qed.

(** On ASCII text [strip] is [Reference.strip_str], and the condition
    holds of an entry that does not start with whitespace. *)
Lemma normalize_arch_tilde_witness :
  arches_of Reference.strip_str ["~amd64"; "amd64"] =
  arches_of Reference.strip_str ["amd64"].
Proof.
  apply (proj2 (normalize_arch_tilde Reference.strip_str "amd64")).
  reflexivity.
Defined.

End ArchesFacts.
